(** * winedump's PE dumper (tools/winedump/pe.c): a shallow embedding

    The development follows pe.c function by function.  The mapped file is a
    list of bytes, a pointer into it is the byte offset from [dump_base],
    [NULL] is [None].  C's unsigned arithmetic is written out with explicit
    reductions modulo a power of two.  What the dumper prints is kept as a
    list of structured lines (one constructor per [printf] call, carrying the
    values the format string receives); column widths and number formatting
    are not modelled. *)

From Stdlib Require Import ZArith Lia String Ascii DecimalString.
From Stdlib.Strings Require Import Byte.
From stdpp Require Import base option list sorting.

Open Scope Z_scope.

(** ** Machine integers *)

Definition wrap (bits x : Z) : Z := x mod 2 ^ bits.

(** A value reduced to a DWORD, the 32-bit unsigned type of the PE
    structures. *)
Definition DWORD (x : Z) : Z := wrap 32 x.

(** ** Outcome of running a piece of the dumper

    [Fault] stands for the undefined behaviour of the C program: a read
    through [NULL], a read outside the mapped file, a store outside an
    allocated array.  [Aborted] is a failed [assert].  [OutOfFuel] is
    returned by a loop that was given too few steps; the dumper's entry
    points give enough, which is proved below. *)

Inductive outcome (A : Type) : Type :=
| Done (a : A)
| Fault
| Aborted
| OutOfFuel.
Arguments Done {A} a.
Arguments Fault {A}.
Arguments Aborted {A}.
Arguments OutOfFuel {A}.

#[global] Instance outcome_ret : MRet outcome := fun A a => Done a.
#[global] Instance outcome_bind : MBind outcome := fun A B k m =>
  match m with
  | Done a => k a
  | Fault => Fault
  | Aborted => Aborted
  | OutOfFuel => OutOfFuel
  end.

(** A load that failed is a fault. *)
Definition load {A} (o : option A) : outcome A :=
  match o with Some a => Done a | None => Fault end.

(** ** The file being dumped *)

(** The fields of IMAGE_SECTION_HEADER that pe.c's address translation reads. *)
Record IMAGE_SECTION_HEADER : Type := {
  VirtualAddress : Z;
  SizeOfRawData : Z;
  PointerToRawData : Z
}.

Record IMAGE_DATA_DIRECTORY : Type := {
  dir_VirtualAddress : Z;
  dir_Size : Z
}.

(** The process-wide state pe.c works on: the mapped file ([dump_base],
    [dump_total_len]) and what [PE_nt_headers] points to.  The section
    table is the array [IMAGE_FIRST_SECTION(PE_nt_headers)] of
    [FileHeader.NumberOfSections] entries.  [ulong_bits] is the width of
    the host's [unsigned long], the type of [RVA]'s parameters. *)
Record pe_file : Type := {
  ulong_bits : Z;
  dump_base : list byte;
  Magic : Z;
  NumberOfRvaAndSizes : Z;
  DataDirectory : list IMAGE_DATA_DIRECTORY;
  sectHead : list IMAGE_SECTION_HEADER
}.

Definition dump_total_len (f : pe_file) : Z := Z.of_nat (length (dump_base f)).
Definition NumberOfSections (f : pe_file) : nat := length (sectHead f).
Definition ulong (f : pe_file) (x : Z) : Z := wrap (ulong_bits f) x.

(** Modelled from the spec: [PRD], the physical read, is defined in dump.c,
    which is not among the sources.  Spec 4.1: it returns the slice at
    [offset] for [length] bytes and "returns None (not a crash) if
    offset + length exceeds the buffer length or overflows".  The slice is
    represented by the offset it starts at. *)
Definition PRD (f : pe_file) (prd len : Z) : option Z :=
  if prd + len <=? dump_total_len f then Some prd else None.

(** ** RVA: virtual address to file pointer (pe.c, [RVA]) *)

(** The loop [for (i = NumberOfSections - 1; i >= 0; i--)]; [n] is [i + 1]. *)
Fixpoint RVA_scan (f : pe_file) (rva len : Z) (n : nat) : option Z :=
  match n with
  | O => None
  | S i =>
      match sectHead f !! i with
      | Some s =>
          if (VirtualAddress s <=? rva)
             && (ulong f (rva + len) <=? DWORD (VirtualAddress s + SizeOfRawData s))
          then PRD f (ulong f (ulong f (PointerToRawData s + rva) - VirtualAddress s)) len
          else RVA_scan f rva len i
      | None => None
      end
  end.

Definition RVA (f : pe_file) (rva len : Z) : option Z :=
  if rva =? 0 then None else RVA_scan f rva len (NumberOfSections f).

(** The test the loop applies to one section, as the code computes it: the
    left sum in [unsigned long], the right sum in [DWORD]. *)
Definition section_holds (f : pe_file) (s : IMAGE_SECTION_HEADER) (rva len : Z) : Prop :=
  VirtualAddress s <= rva /\
  ulong f (rva + len) <= DWORD (VirtualAddress s + SizeOfRawData s).

(** The same test read over the integers, as the specification words it. *)
Definition spec_section_matches (s : IMAGE_SECTION_HEADER) (va len : Z) : Prop :=
  VirtualAddress s <= va /\ va + len <= VirtualAddress s + SizeOfRawData s.

Definition spec_file_offset (s : IMAGE_SECTION_HEADER) (va : Z) : Z :=
  PointerToRawData s + (va - VirtualAddress s).

Definition file_offset (f : pe_file) (s : IMAGE_SECTION_HEADER) (rva : Z) : Z :=
  ulong f (PointerToRawData s + rva - VirtualAddress s).

(** ** Reading the mapped file

    All multi-byte fields are little-endian.  A read that leaves the file
    gives [None]. *)

Definition byte_value (b : byte) : Z := Z.of_N (Byte.to_N b).

Definition rd8 (f : pe_file) (p : Z) : option Z :=
  if p <? 0 then None else byte_value <$> dump_base f !! Z.to_nat p.

Definition rd16 (f : pe_file) (p : Z) : option Z :=
  lo ← rd8 f p; hi ← rd8 f (p + 1); Some (lo + 256 * hi).

Definition rd32 (f : pe_file) (p : Z) : option Z :=
  lo ← rd16 f p; hi ← rd16 f (p + 2); Some (lo + 65536 * hi).

Definition rd64 (f : pe_file) (p : Z) : option Z :=
  lo ← rd32 f p; hi ← rd32 f (p + 4); Some (lo + 4294967296 * hi).

(** The NUL-terminated string that starts the byte list [mem]. *)
Fixpoint c_string (mem : list byte) : option string :=
  match mem with
  | [] => None
  | b :: rest =>
      if byte_value b =? 0 then Some EmptyString
      else s ← c_string rest; Some (String (ascii_of_byte b) s)
  end.

Definition rd_string (f : pe_file) (p : Z) : option string :=
  if p <? 0 then None else c_string (drop (Z.to_nat p) (dump_base f)).

(** ** Data directories (pe.c, [get_dir_and_size] and [get_dir]) *)

Definition IMAGE_NT_OPTIONAL_HDR64_MAGIC : Z := 0x20b.
Definition IMAGE_FILE_EXPORT_DIRECTORY : Z := 0.
Definition IMAGE_FILE_IMPORT_DIRECTORY : Z := 1.
Definition IMAGE_DIRECTORY_ENTRY_BASERELOC : Z := 5.

(** [get_dir_and_size(idx, &size)]: the pointer returned and the value of
    [size] afterwards, [size0] being its value before.  The two branches on
    [OptionalHeader.Magic] read the same two fields from the 32-bit or the
    64-bit header; [NumberOfRvaAndSizes] and [DataDirectory] of [pe_file]
    are those of the variant the magic selects. *)
Definition get_dir_and_size (f : pe_file) (idx : Z) (size0 : Z) : option Z * Z :=
  if NumberOfRvaAndSizes f <=? idx then (None, size0)
  else
    match DataDirectory f !! Z.to_nat idx with
    | Some d => (RVA f (dir_VirtualAddress d) (dir_Size d), dir_Size d)
    | None => (None, size0)
    end.

Definition get_dir (f : pe_file) (idx : Z) : option Z :=
  fst (get_dir_and_size f idx 0).

(** ** Export directory *)

(** Modelled from the spec: winnt.h, which declares IMAGE_EXPORT_DIRECTORY,
    is not among the sources.  The fields are those the spec's ExportTable
    lists, at the byte offsets the PE format gives them. *)
Module IMAGE_EXPORT_DIRECTORY.
Definition Characteristics (f : pe_file) (p : Z) := rd32 f p.
Definition TimeDateStamp (f : pe_file) (p : Z) := rd32 f (p + 4).
Definition MajorVersion (f : pe_file) (p : Z) := rd16 f (p + 8).
Definition MinorVersion (f : pe_file) (p : Z) := rd16 f (p + 10).
Definition Name (f : pe_file) (p : Z) := rd32 f (p + 12).
Definition Base (f : pe_file) (p : Z) := rd32 f (p + 16).
Definition NumberOfFunctions (f : pe_file) (p : Z) := rd32 f (p + 20).
Definition NumberOfNames (f : pe_file) (p : Z) := rd32 f (p + 24).
Definition AddressOfFunctions (f : pe_file) (p : Z) := rd32 f (p + 28).
Definition AddressOfNames (f : pe_file) (p : Z) := rd32 f (p + 32).
Definition AddressOfNameOrdinals (f : pe_file) (p : Z) := rd32 f (p + 36).
End IMAGE_EXPORT_DIRECTORY.

(** A store [a[i] = x] into an array of [length a] cells. *)
Definition store {A} (a : list A) (i : Z) (x : A) : outcome (list A) :=
  if (0 <=? i) && (i <? Z.of_nat (length a)) then Done (<[Z.to_nat i := x]> a)
  else Fault.

(** A read [a[i]] from an array of [length a] cells. *)
Definition fetch {A} (a : list A) (i : Z) : outcome A :=
  if i <? 0 then Fault else load (a !! Z.to_nat i).

(** What [dump_dir_exported_functions] prints. *)
Inductive export_name : Type :=
| by_ordinal
| by_name (symbol_str : option string).

Inductive export_line : Type :=
| ExportsTable (name : option string)
    (Characteristics TimeDateStamp MajorVersion MinorVersion Base
     NumberOfFunctions NumberOfNames
     AddressOfFunctions AddressOfNameOrdinals AddressOfNames : Z)
| CantGrabFunctionsTable
| ExportEntry (entry_pt ordn : Z) (name : export_name) (forward : option string)
| ExportsEnd.

(** [printf("%s", p)]: the string at [p]; glibc prints "(null)" for [NULL],
    kept here as [None]. *)
Definition string_arg (f : pe_file) (p : option Z) : outcome (option string) :=
  match p with
  | None => Done None
  | Some q => s ← load (rd_string f q); Done (Some s)
  end.

(** [for (i = 0; i < NumberOfNames; i++) funcs[pOrdl[i]] = pName[i];]
    with [n] iterations left. *)
Fixpoint merge_names (f : pe_file) (pName pOrdl : option Z)
    (n : nat) (i : Z) (funcs : list Z) : outcome (list Z) :=
  match n with
  | O => Done funcs
  | S n' =>
      ordl ← load (p ← pOrdl; rd16 f (p + 2 * i));
      name ← load (p ← pName; rd32 f (p + 4 * i));
      funcs' ← store funcs ordl name;
      merge_names f pName pOrdl n' (i + 1) funcs'
  end.

(** The pointer test [exportDir <= p < exportDir + size] on [p = RVA(..)];
    [NULL] is below every pointer into the file. *)
Definition inside_directory (exportDir size : Z) (p : option Z) : bool :=
  match p with
  | None => false
  | Some q => (exportDir <=? q) && (q <? exportDir + size)
  end.

(** [for (i = 0; i < NumberOfFunctions; i++) ...] with [n] iterations left. *)
Fixpoint export_entries (f : pe_file) (exportDir size Base pFunc : Z)
    (funcs : list Z) (n : nat) (i : Z) : outcome (list export_line) :=
  match n with
  | O => Done []
  | S n' =>
      func ← load (rd32 f (pFunc + 4 * i));
      if func =? 0 then export_entries f exportDir size Base pFunc funcs n' (i + 1)
      else
        name_rva ← fetch funcs i;
        name ← (if name_rva =? 0 then Done by_ordinal
                else s ← string_arg f (RVA f name_rva 4); Done (by_name s));
        forward ← (if inside_directory exportDir size (RVA f func 1)
                   then s ← string_arg f (RVA f func 1); Done s
                   else Done None);
        rest ← export_entries f exportDir size Base pFunc funcs n' (i + 1);
        Done (ExportEntry func (DWORD (Base + i)) name forward :: rest)
  end.

Definition dump_dir_exported_functions (f : pe_file) : outcome (list export_line) :=
  match get_dir_and_size f IMAGE_FILE_EXPORT_DIRECTORY 0 with
  | (None, _) => Done []
  | (Some exportDir, size) =>
      Name ← load (IMAGE_EXPORT_DIRECTORY.Name f exportDir);
      name ← string_arg f (RVA f Name 4);
      Characteristics ← load (IMAGE_EXPORT_DIRECTORY.Characteristics f exportDir);
      TimeDateStamp ← load (IMAGE_EXPORT_DIRECTORY.TimeDateStamp f exportDir);
      MajorVersion ← load (IMAGE_EXPORT_DIRECTORY.MajorVersion f exportDir);
      MinorVersion ← load (IMAGE_EXPORT_DIRECTORY.MinorVersion f exportDir);
      Base ← load (IMAGE_EXPORT_DIRECTORY.Base f exportDir);
      NumberOfFunctions ← load (IMAGE_EXPORT_DIRECTORY.NumberOfFunctions f exportDir);
      NumberOfNames ← load (IMAGE_EXPORT_DIRECTORY.NumberOfNames f exportDir);
      AddressOfFunctions ← load (IMAGE_EXPORT_DIRECTORY.AddressOfFunctions f exportDir);
      AddressOfNameOrdinals ← load (IMAGE_EXPORT_DIRECTORY.AddressOfNameOrdinals f exportDir);
      AddressOfNames ← load (IMAGE_EXPORT_DIRECTORY.AddressOfNames f exportDir);
      let header :=
        ExportsTable name Characteristics TimeDateStamp MajorVersion MinorVersion Base
          NumberOfFunctions NumberOfNames
          AddressOfFunctions AddressOfNameOrdinals AddressOfNames in
      match RVA f AddressOfFunctions (ulong f (NumberOfFunctions * 4)) with
      | None => Done [header; CantGrabFunctionsTable]
      | Some pFunc =>
          let pName := RVA f AddressOfNames (ulong f (NumberOfNames * 4)) in
          let pOrdl := RVA f AddressOfNameOrdinals (ulong f (NumberOfNames * 2)) in
          (* funcs = calloc(NumberOfFunctions, sizeof funcs[0]) *)
          let funcs := replicate (Z.to_nat NumberOfFunctions) 0 in
          funcs' ← merge_names f pName pOrdl (Z.to_nat NumberOfNames) 0 funcs;
          entries ← export_entries f exportDir size Base pFunc funcs'
                      (Z.to_nat NumberOfFunctions) 0;
          Done (header :: entries ++ [ExportsEnd])
      end
  end.

(** ** The symbol enumerator (pe.c, [do_grab_sym] and [dll_next_symbol]) *)

(** A cell of the [dll_symbols] array; [symbol = None] is the [NULL] that
    ends the array. *)
Record dll_symbol : Type := {
  ordinal : Z;
  symbol : option string
}.

(** The two file-scope pointers.  [dll_current_symbol] is kept as the index
    of the cell it points to in the array [dll_symbols]. *)
Record enumerator : Type := {
  dll_symbols : option (list dll_symbol);
  dll_current_symbol : option nat
}.

Definition no_symbols : enumerator :=
  {| dll_symbols := None; dll_current_symbol := None |}.

Definition symbol_cmp (left right : dll_symbol) : Z :=
  if ordinal right <? ordinal left then 1 else 0.

(** What [do_grab_sym] reads of winedump's [globals].

    Modelled from the spec: the macro OUTPUT_UC_DLL_NAME is defined in
    winedump.h, which is not among the sources; the spec calls its value
    the module name.  It is a field here. *)
Record winedump_globals : Type := {
  forward_dll : option string;
  OUTPUT_UC_DLL_NAME : string
}.

Definition cant_get_function : string := "cant_get_function".

(** [%u] of a value. *)
Definition decimal (x : Z) : string :=
  NilZero.string_of_uint (N.to_uint (Z.to_N x)).

(** [snprintf(buf, size, ...)] keeps the first [size - 1] characters of the
    formatted text. *)
Definition snprintf (size : nat) (text : string) : string :=
  substring 0 (size - 1) text.

Definition toupper (c : ascii) : ascii :=
  let n := N_of_ascii c in
  if ((97 <=? n) && (n <=? 122))%N then ascii_of_N (n - 32) else c.

(** Modelled from the spec: [str_toupper] is defined in misc.c, which is not
    among the sources; the spec has the synthesized name "uppercased".
    Each character goes through C's [toupper] (ASCII). *)
Fixpoint str_toupper (s : string) : string :=
  match s with
  | EmptyString => EmptyString
  | String c s' => String (toupper c) (str_toupper s')
  end.

(** The first loop, over the named exports, with [n] iterations left. *)
Fixpoint grab_names (f : pe_file) (Base pName pOrdl : Z)
    (n : nat) (j : Z) (map : list Z) (syms : list dll_symbol)
  : outcome (list Z * list dll_symbol) :=
  match n with
  | O => Done (map, syms)
  | S n' =>
      ordl ← load (rd16 f (pOrdl + 2 * j));
      word ← fetch map (ordl / 32);
      map' ← store map (ordl / 32) (Z.lor word (Z.shiftl 1 (ordl mod 32)));
      name_rva ← load (rd32 f (pName + 4 * j));
      ptr ← match RVA f name_rva 4 with
            | None => Done cant_get_function
            | Some p => load (rd_string f p)
            end;
      syms' ← store syms j {| ordinal := DWORD (Base + ordl); symbol := Some ptr |};
      grab_names f Base pName pOrdl n' (j + 1) map' syms'
  end.

(** [globals.forward_dll ? globals.forward_dll : OUTPUT_UC_DLL_NAME] *)
Definition module_name (g : winedump_globals) : string :=
  match forward_dll g with
  | Some d => d
  | None => OUTPUT_UC_DLL_NAME g
  end.

(** [snprintf(ordinal_text, sizeof(ordinal_text), "%s_%u", ..., ord);
    str_toupper(ordinal_text);] with [char ordinal_text[256]]. *)
Definition ordinal_name (g : winedump_globals) (ord : Z) : string :=
  str_toupper (snprintf 256 (module_name g ++ "_" ++ decimal ord)%string).

(** The second loop, over the function table, with [n] iterations left. *)
Fixpoint grab_ordinals (g : winedump_globals) (f : pe_file)
    (Base NumberOfFunctions pFunc : Z) (map : list Z)
    (n : nat) (i j : Z) (syms : list dll_symbol)
  : outcome (Z * list dll_symbol) :=
  match n with
  | O => Done (j, syms)
  | S n' =>
      func ← load (rd32 f (pFunc + 4 * i));
      if func =? 0
      then grab_ordinals g f Base NumberOfFunctions pFunc map n' (i + 1) j syms
      else
        word ← fetch map (i / 32);
        if Z.land word (Z.shiftl 1 (i mod 32)) =? 0
        then
          (* Ordinal only entry *)
          syms' ← store syms j {| ordinal := DWORD (Base + i);
                                  symbol := Some (ordinal_name g (DWORD (Base + i))) |};
          if j + 1 <=? NumberOfFunctions
          then grab_ordinals g f Base NumberOfFunctions pFunc map n' (i + 1) (j + 1) syms'
          else Aborted
        else grab_ordinals g f Base NumberOfFunctions pFunc map n' (i + 1) j syms
  end.

(** [do_grab_sym], from the test on [get_dir] on ([get_nt_header] has found
    the headers [f] holds).  [qsort] is the C library's; [junk] is what
    [malloc] leaves in the cells of the fresh array; [calloc] and [malloc]
    succeed.  The line printed under [NORMAL] is left out.
    [exportDir->Base] is read where the other fields are, not inside the
    loops.  On every early return the two pointers stay as they were. *)
Definition do_grab_sym
    (qsort : (dll_symbol -> dll_symbol -> Z) -> list dll_symbol -> list dll_symbol)
    (g : winedump_globals) (junk : nat -> dll_symbol)
    (f : pe_file) (st : enumerator) : outcome enumerator :=
  match get_dir f IMAGE_FILE_EXPORT_DIRECTORY with
  | None => Done st
  | Some exportDir =>
      AddressOfNames ← load (IMAGE_EXPORT_DIRECTORY.AddressOfNames f exportDir);
      NumberOfNames ← load (IMAGE_EXPORT_DIRECTORY.NumberOfNames f exportDir);
      match RVA f AddressOfNames (ulong f (NumberOfNames * 4)) with
      | None => Done st
      | Some pName =>
      AddressOfNameOrdinals ← load (IMAGE_EXPORT_DIRECTORY.AddressOfNameOrdinals f exportDir);
      match RVA f AddressOfNameOrdinals (ulong f (NumberOfNames * 2)) with
      | None => Done st
      | Some pOrdl =>
      AddressOfFunctions ← load (IMAGE_EXPORT_DIRECTORY.AddressOfFunctions f exportDir);
      NumberOfFunctions ← load (IMAGE_EXPORT_DIRECTORY.NumberOfFunctions f exportDir);
      match RVA f AddressOfFunctions (ulong f (NumberOfFunctions * 4)) with
      | None => Done st
      | Some pFunc =>
      Base ← load (IMAGE_EXPORT_DIRECTORY.Base f exportDir);
      let syms := junk <$> seq 0 (Z.to_nat (DWORD (NumberOfFunctions + 1))) in
      (* bit map of used funcs *)
      let map :=
        replicate (Z.to_nat (Z.land (DWORD (NumberOfFunctions + 31)) (DWORD (-32)) / 32)) 0 in
      '(map, syms) ← grab_names f Base pName pOrdl (Z.to_nat NumberOfNames) 0 map syms;
      '(j, syms) ← grab_ordinals g f Base NumberOfFunctions pFunc map
                     (Z.to_nat NumberOfFunctions) 0 NumberOfNames syms;
      let syms := qsort symbol_cmp (take (Z.to_nat j) syms) ++ drop (Z.to_nat j) syms in
      last ← fetch syms j;
      syms ← store syms j {| ordinal := ordinal last; symbol := None |};
      Done {| dll_symbols := Some syms; dll_current_symbol := Some 0%nat |}
      end end end
  end.

(** Modelled from the spec: [parsed_symbol] is declared in winedump.h, which
    is not among the sources.  Spec 4.7 has the enumerator yield
    "Symbol{name, ordinal}": [sym_symbol] and [sym_ordinal] are the two
    members [dll_next_symbol] assigns, [sym_others] is everything else the
    structure holds.  The type of the member [ordinal] is in the missing
    header; [sym_ordinal] is the value the member holds, and the conversion
    of the [size_t] of a cell to the member's type is a parameter of
    [dll_next_symbol]. *)
Record parsed_symbol (R : Type) : Type := {
  sym_symbol : option string;
  sym_ordinal : Z;
  sym_others : R
}.
Arguments sym_symbol {R} _.
Arguments sym_ordinal {R} _.
Arguments sym_others {R} _.

(** The conversion of a value to C's [int] (32 bits, two's complement), the
    type Wine's winedump.h gives the member [ordinal]: the value itself
    when it is below 2^31, and 2^32 less for a DWORD from 2^31 on. *)
Definition to_int (x : Z) : Z := (x + 2 ^ 31) mod 2 ^ 32 - 2 ^ 31.

(** [dll_next_symbol(sym)]: the value returned, the pointers and [*sym]
    afterwards.  [to_ordinal] is the conversion the assignment
    [sym->ordinal = dll_current_symbol->ordinal] makes, from [size_t] to
    the type of the member.  [strdup] succeeds.  [assert (dll_symbols)]
    holds whenever [dll_current_symbol] points to a cell: the cursor is an
    index into that array. *)
Definition dll_next_symbol {R} (to_ordinal : Z -> Z)
    (st : enumerator) (sym : parsed_symbol R)
  : outcome (Z * enumerator * parsed_symbol R) :=
  match dll_current_symbol st with
  | None => Done (1, st, sym)
  | Some k =>
      cell ← load (a ← dll_symbols st; a !! k);
      match symbol cell with
      | None => Done (1, st, sym)
      | Some s =>
          Done (0,
                {| dll_symbols := dll_symbols st; dll_current_symbol := Some (S k) |},
                {| sym_symbol := Some s; sym_ordinal := to_ordinal (ordinal cell);
                   sym_others := sym_others sym |})
      end
  end.

(** ** Arrays walked by a pointer

    [array_at f rd stride p] is the array that starts at [p], as far as the
    file holds it: the cells [rd f p], [rd f (p + stride)], ...  A loop that
    walks off its end has left the file. *)

Fixpoint array_cells {A} (rd : Z -> option A) (stride p : Z) (n : nat) : list A :=
  match n with
  | O => []
  | S n' =>
      match rd p with
      | Some a => a :: array_cells rd stride (p + stride) n'
      | None => []
      end
  end.

Definition array_at {A} (f : pe_file) (rd : pe_file -> Z -> option A)
    (stride p : Z) : list A :=
  array_cells (rd f) stride p (length (dump_base f)).

(** ** Import directory (pe.c, [dump_dir_imported_functions]) *)

(** Modelled from the spec: winnt.h, which declares IMAGE_IMPORT_DESCRIPTOR,
    is not among the sources.  The five fields are at the byte offsets the
    PE format gives them; a descriptor is 20 bytes. *)
Module IMAGE_IMPORT_DESCRIPTOR.
Record t : Type := {
  OriginalFirstThunk : Z;
  TimeDateStamp : Z;
  ForwarderChain : Z;
  Name : Z;
  FirstThunk : Z
}.
Definition size : Z := 20.
Definition read (f : pe_file) (p : Z) : option t :=
  a ← rd32 f p; b ← rd32 f (p + 4); c ← rd32 f (p + 8);
  d ← rd32 f (p + 12); e ← rd32 f (p + 16);
  Some {| OriginalFirstThunk := a; TimeDateStamp := b; ForwarderChain := c;
          Name := d; FirstThunk := e |}.
End IMAGE_IMPORT_DESCRIPTOR.

(** Modelled from the spec: the macros IMAGE_SNAP_BY_ORDINAL32/64 and
    IMAGE_ORDINAL32/64 are defined in winnt.h, which is not among the
    sources.  Spec 4.5: an entry is by ordinal when the top bit of the field
    is set, "bit 63 on 64-bit thunks, bit 31 on 32-bit"; the ordinal is the
    low 16 bits of the field. *)
Definition IMAGE_SNAP_BY_ORDINAL64 (o : Z) : bool := Z.testbit o 63.
Definition IMAGE_SNAP_BY_ORDINAL32 (o : Z) : bool := Z.testbit o 31.
Definition IMAGE_ORDINAL64 (o : Z) : Z := Z.land o 0xffff.
Definition IMAGE_ORDINAL32 (o : Z) : Z := Z.land o 0xffff.

Inductive import_line : Type :=
| ImportTableSize (directorySize : Z)
| ImportedModule (offset : Z) (name : option string)
    (OriginalFirstThunk TimeDateStamp ForwarderChain FirstThunk : Z)
| CantGrabThunkData
| ThunkByOrdinal (ordinal : Z)
| CantGrabImportByName
| ThunkByName (Hint : Z) (Name : string) (AddressOfData : Z)
| ImportBlankLine.

(** [printf("  %4u  %s %x\n", iibn->Hint, iibn->Name, ...)] *)
Definition import_by_name (f : pe_file) (iibn : option Z) (AddressOfData : Z)
  : outcome import_line :=
  match iibn with
  | None => Done CantGrabImportByName
  | Some p =>
      Hint ← load (rd16 f p);
      Name ← load (rd_string f (p + 2));
      Done (ThunkByName Hint Name AddressOfData)
  end.

(** [for (; il->u1.Ordinal; il++)] over 64-bit thunks. *)
Fixpoint dump_image_thunk_data64 (f : pe_file) (il : list Z)
  : outcome (list import_line) :=
  match il with
  | [] => Fault
  | Ordinal :: il' =>
      if Ordinal =? 0 then Done []
      else
        line ← (if IMAGE_SNAP_BY_ORDINAL64 Ordinal
                then Done (ThunkByOrdinal (DWORD (IMAGE_ORDINAL64 Ordinal)))
                else import_by_name f (RVA f (DWORD Ordinal) 4) (DWORD Ordinal));
        rest ← dump_image_thunk_data64 f il';
        Done (line :: rest)
  end.

(** [for (; il->u1.Ordinal; il++)] over 32-bit thunks. *)
Fixpoint dump_image_thunk_data32 (f : pe_file) (il : list Z) (offset : Z)
  : outcome (list import_line) :=
  match il with
  | [] => Fault
  | Ordinal :: il' =>
      if Ordinal =? 0 then Done []
      else
        line ← (if IMAGE_SNAP_BY_ORDINAL32 Ordinal
                then Done (ThunkByOrdinal (IMAGE_ORDINAL32 Ordinal))
                else import_by_name f (RVA f (DWORD (Ordinal - offset)) 4) Ordinal);
        rest ← dump_image_thunk_data32 f il' offset;
        Done (line :: rest)
  end.

(** [if (!il) printf(...) else { ... }]: the thunk table at [il]. *)
Definition import_thunks (f : pe_file) (il : option Z) : outcome (list import_line) :=
  match il with
  | None => Done [CantGrabThunkData]
  | Some il =>
      lines ← (if Magic f =? IMAGE_NT_OPTIONAL_HDR64_MAGIC
               then dump_image_thunk_data64 f (array_at f rd64 8 il)
               else dump_image_thunk_data32 f (array_at f rd32 4 il) 0);
      Done (lines ++ [ImportBlankLine])
  end.

(** The body of [for (;;)] after the test that leaves the loop, for the
    descriptor [d] found at [p]. *)
Definition import_descriptor (f : pe_file) (d : IMAGE_IMPORT_DESCRIPTOR.t) (p : Z)
  : outcome (list import_line) :=
  name ← string_arg f (RVA f (IMAGE_IMPORT_DESCRIPTOR.Name d) 4);
  let il :=
    if negb (IMAGE_IMPORT_DESCRIPTOR.OriginalFirstThunk d =? 0)
    then RVA f (IMAGE_IMPORT_DESCRIPTOR.OriginalFirstThunk d) 4
    else RVA f (IMAGE_IMPORT_DESCRIPTOR.FirstThunk d) 4 in
  thunks ← import_thunks f il;
  Done (ImportedModule p name
          (IMAGE_IMPORT_DESCRIPTOR.OriginalFirstThunk d)
          (IMAGE_IMPORT_DESCRIPTOR.TimeDateStamp d)
          (IMAGE_IMPORT_DESCRIPTOR.ForwarderChain d)
          (IMAGE_IMPORT_DESCRIPTOR.FirstThunk d) :: thunks).

(** [for (;;) { if (!importDesc->Name || !importDesc->FirstThunk) break;
    ...; importDesc++; }]; [importDesc] is the array the pointer walks and
    [p] the pointer itself. *)
Fixpoint import_descriptors (f : pe_file)
    (importDesc : list IMAGE_IMPORT_DESCRIPTOR.t) (p : Z)
  : outcome (list import_line) :=
  match importDesc with
  | [] => Fault
  | d :: importDesc' =>
      if (IMAGE_IMPORT_DESCRIPTOR.Name d =? 0)
         || (IMAGE_IMPORT_DESCRIPTOR.FirstThunk d =? 0)
      then Done []
      else
        lines ← import_descriptor f d p;
        rest ← import_descriptors f importDesc' (p + IMAGE_IMPORT_DESCRIPTOR.size);
        Done (lines ++ rest)
  end.

(** [opt->DataDirectory[idx].Size] *)
Definition directory_size (f : pe_file) (idx : Z) : Z :=
  match DataDirectory f !! Z.to_nat idx with
  | Some d => dir_Size d
  | None => 0
  end.

Definition dump_dir_imported_functions (f : pe_file) : outcome (list import_line) :=
  match get_dir f IMAGE_FILE_IMPORT_DIRECTORY with
  | None => Done []
  | Some importDesc =>
      let directorySize := directory_size f IMAGE_FILE_IMPORT_DIRECTORY in
      lines ← import_descriptors f
                (array_at f IMAGE_IMPORT_DESCRIPTOR.read IMAGE_IMPORT_DESCRIPTOR.size importDesc)
                importDesc;
      Done (ImportTableSize directorySize :: lines ++ [ImportBlankLine])
  end.

(** ** Base relocations (pe.c, [dump_dir_reloc]) *)

Definition reloc_names : list string :=
  [ "BASED_ABSOLUTE"; "BASED_HIGH"; "BASED_LOW"; "BASED_HIGHLOW";
    "BASED_HIGHADJ"; "BASED_MIPS_JMPADDR"; "BASED_SECTION"; "BASED_REL";
    "unknown 8"; "BASED_IA64_IMM64"; "BASED_DIR64"; "BASED_HIGH3ADJ";
    "unknown 12"; "unknown 13"; "unknown 14"; "unknown 15" ]%string.

(** Modelled from the spec: winnt.h, which declares IMAGE_BASE_RELOCATION,
    is not among the sources.  A block header is the page address and the
    block size, two DWORDs (spec: "fixed-size page blocks"); the 16-bit
    entries follow it. *)
Module IMAGE_BASE_RELOCATION.
Definition size : Z := 8.
Definition VirtualAddress (f : pe_file) (p : Z) := rd32 f p.
Definition SizeOfBlock (f : pe_file) (p : Z) := rd32 f (p + 4).
End IMAGE_BASE_RELOCATION.

Inductive reloc_line : Type :=
| Relocations
| RelocPage (VirtualAddress : Z)
| RelocEntry (offset : Z) (type_name : string)
| RelocBlankLine.

(** [while (i--) { ...; relocs++; }] with [n] entries left: the lines and
    the final value of [relocs]. *)
Fixpoint reloc_entries (f : pe_file) (relocs : Z) (n : nat)
  : outcome (list reloc_line * Z) :=
  match n with
  | O => Done ([], relocs)
  | S n' =>
      w ← load (rd16 f relocs);
      let offset := Z.land w 0xfff in
      let type := Z.shiftr w 12 in
      name ← fetch reloc_names type;
      '(rest, relocs') ← reloc_entries f (relocs + 2) n';
      Done (RelocEntry offset name :: rest, relocs')
  end.

(** [while (rel < end - 1 && rel->SizeOfBlock)]; [end - 1] is one block
    header before [end].  The entry count is computed in [size_t], which
    has the width of [unsigned long], and stored in an [unsigned int]. *)
Fixpoint reloc_blocks (f : pe_file) (end_ : Z) (fuel : nat) (rel : Z)
  : outcome (list reloc_line) :=
  match fuel with
  | O => OutOfFuel
  | S fuel' =>
      if rel <? end_ - IMAGE_BASE_RELOCATION.size
      then
        SizeOfBlock ← load (IMAGE_BASE_RELOCATION.SizeOfBlock f rel);
        if SizeOfBlock =? 0 then Done []
        else
          VirtualAddress ← load (IMAGE_BASE_RELOCATION.VirtualAddress f rel);
          let i := DWORD (ulong f (SizeOfBlock - IMAGE_BASE_RELOCATION.size) / 2) in
          '(lines, relocs) ← reloc_entries f (rel + IMAGE_BASE_RELOCATION.size) (Z.to_nat i);
          rest ← reloc_blocks f end_ fuel' relocs;
          Done (RelocPage VirtualAddress :: lines ++ rest)
      else Done []
  end.

Definition dump_dir_reloc (f : pe_file) : outcome (list reloc_line) :=
  match get_dir_and_size f IMAGE_DIRECTORY_ENTRY_BASERELOC 0 with
  | (None, _) => Done []
  | (Some rel, size) =>
      lines ← reloc_blocks f (rel + size) (S (Z.to_nat size)) rel;
      Done (Relocations :: lines ++ [RelocBlankLine])
  end.

(** ** x86-64 unwind data (pe.c, [dump_x86_64_unwind_info]) *)

(** [struct runtime_function]: three DWORDs. *)
Module runtime_function.
Definition size : Z := 12.
Definition BeginAddress (f : pe_file) (p : Z) := rd32 f p.
Definition EndAddress (f : pe_file) (p : Z) := rd32 f (p + 4).
Definition UnwindData (f : pe_file) (p : Z) := rd32 f (p + 8).
End runtime_function.

(** [struct unwind_info] and [struct opcode]: bit-fields of a byte are
    allocated from its low bits, as the x86-64 ABIs have it. *)
Module unwind_info.
Definition size : Z := 6.
Definition version (f : pe_file) (p : Z) := b ← rd8 f p; Some (Z.land b 7).
Definition flags (f : pe_file) (p : Z) := b ← rd8 f p; Some (Z.shiftr b 3).
Definition prolog (f : pe_file) (p : Z) := rd8 f (p + 1).
Definition count (f : pe_file) (p : Z) := rd8 f (p + 2).
Definition frame_reg (f : pe_file) (p : Z) := b ← rd8 f (p + 3); Some (Z.land b 15).
Definition frame_offset (f : pe_file) (p : Z) := b ← rd8 f (p + 3); Some (Z.shiftr b 4).
(** [&info->opcodes[i]] *)
Definition opcodes (p i : Z) : Z := p + 4 + 2 * i.
End unwind_info.

Module opcode.
Definition offset (f : pe_file) (p : Z) := rd8 f p.
Definition code (f : pe_file) (p : Z) := b ← rd8 f (p + 1); Some (Z.land b 15).
Definition info (f : pe_file) (p : Z) := b ← rd8 f (p + 1); Some (Z.shiftr b 4).
End opcode.

Definition UWOP_PUSH_NONVOL : Z := 0.
Definition UWOP_ALLOC_LARGE : Z := 1.
Definition UWOP_ALLOC_SMALL : Z := 2.
Definition UWOP_SET_FPREG : Z := 3.
Definition UWOP_SAVE_NONVOL : Z := 4.
Definition UWOP_SAVE_NONVOL_FAR : Z := 5.
Definition UWOP_SAVE_XMM128 : Z := 8.
Definition UWOP_SAVE_XMM128_FAR : Z := 9.
Definition UWOP_PUSH_MACHFRAME : Z := 10.

Definition UNW_FLAG_EHANDLER : Z := 1.
Definition UNW_FLAG_UHANDLER : Z := 2.
Definition UNW_FLAG_CHAININFO : Z := 4.

(** One line per opcode; registers are kept as their number, the index
    into [reg_names]. *)
Inductive unwind_op : Type :=
| op_push (reg : Z)
| op_sub (count : Z)
| op_lea (frame_offset16 frame_reg : Z)
| op_mov (reg count : Z)
| op_movaps (xmm count : Z)
| op_push_machframe (info : Z)
| op_unknown (code : Z).

Inductive unwind_line : Type :=
| UnwindFunction (BeginAddress EndAddress : Z)
| UnwindNextFunction (BeginAddress EndAddress : Z)
| UnwindInfoAt (UnwindData : Z)
| UnwindUnknownVersion (version : Z)
| UnwindFlags (flags prolog : Z)
| UnwindFrameRegister (frame_reg frame_offset16 : Z)
| UnwindCode (offset : Z) (op : unwind_op)
| UnwindChained (BeginAddress EndAddress : Z)
| UnwindHandler (handler data_at : Z).

(** The body of the opcode loop at cursor [i], up to the end of the
    [switch]: the line printed and the value [i] has there. *)
Definition unwind_opcode (f : pe_file) (info frame_reg frame_offset i : Z)
  : outcome (unwind_line * Z) :=
  let op := unwind_info.opcodes info i in
  let next := unwind_info.opcodes info (i + 1) in
  offset ← load (opcode.offset f op);
  code ← load (opcode.code f op);
  opinfo ← load (opcode.info f op);
  if code =? UWOP_PUSH_NONVOL then Done (UnwindCode offset (op_push opinfo), i)
  else if code =? UWOP_ALLOC_LARGE then
    if negb (opinfo =? 0)
    then count ← load (rd32 f next); Done (UnwindCode offset (op_sub count), i + 2)
    else count ← load (rd16 f next); Done (UnwindCode offset (op_sub (count * 8)), i + 1)
  else if code =? UWOP_ALLOC_SMALL then
    Done (UnwindCode offset (op_sub ((opinfo + 1) * 8)), i)
  else if code =? UWOP_SET_FPREG then
    Done (UnwindCode offset (op_lea (frame_offset * 16) frame_reg), i)
  else if code =? UWOP_SAVE_NONVOL then
    count ← load (rd16 f next); Done (UnwindCode offset (op_mov opinfo (count * 8)), i + 1)
  else if code =? UWOP_SAVE_NONVOL_FAR then
    count ← load (rd32 f next); Done (UnwindCode offset (op_mov opinfo count), i + 2)
  else if code =? UWOP_SAVE_XMM128 then
    count ← load (rd16 f next); Done (UnwindCode offset (op_movaps opinfo (count * 16)), i + 1)
  else if code =? UWOP_SAVE_XMM128_FAR then
    count ← load (rd32 f next); Done (UnwindCode offset (op_movaps opinfo count), i + 2)
  else if code =? UWOP_PUSH_MACHFRAME then
    Done (UnwindCode offset (op_push_machframe opinfo), i)
  else Done (UnwindCode offset (op_unknown code), i).

(** [for (i = 0; i < info->count; i++)] from cursor [i] on. *)
Fixpoint unwind_opcodes (f : pe_file) (info count frame_reg frame_offset : Z)
    (fuel : nat) (i : Z) : outcome (list unwind_line) :=
  match fuel with
  | O => OutOfFuel
  | S fuel' =>
      if i <? count
      then
        '(line, i') ← unwind_opcode f info frame_reg frame_offset i;
        rest ← unwind_opcodes f info count frame_reg frame_offset fuel' (i' + 1);
        Done (line :: rest)
      else Done []
  end.

(** What follows the opcode loop: [handler_data] and the two tests on
    [info->flags]. *)
Definition unwind_handler_data (f : pe_file) (UnwindData info flags count : Z)
  : outcome (list unwind_line) :=
  let handler_data := unwind_info.opcodes info (Z.land (count + 1) (-2)) in
  if negb (Z.land flags UNW_FLAG_CHAININFO =? 0)
  then
    b ← load (runtime_function.BeginAddress f handler_data);
    e ← load (runtime_function.EndAddress f handler_data);
    Done [UnwindChained b e]
  else if negb (Z.land flags (Z.lor UNW_FLAG_EHANDLER UNW_FLAG_UHANDLER) =? 0)
  then
    handler ← load (rd32 f handler_data);
    Done [UnwindHandler handler (DWORD (UnwindData + (handler_data + 4 - info)))]
  else Done [].

(** [if (info->frame_reg) printf(...)] *)
Definition unwind_frame (frame_reg frame_offset : Z) : list unwind_line :=
  if frame_reg =? 0 then [] else [UnwindFrameRegister frame_reg (frame_offset * 16)].

(** [dump_x86_64_unwind_info(function)]; [function] points into the file. *)
Definition dump_x86_64_unwind_info (f : pe_file) (function : Z)
  : outcome (list unwind_line) :=
  BeginAddress ← load (runtime_function.BeginAddress f function);
  EndAddress ← load (runtime_function.EndAddress f function);
  UnwindData ← load (runtime_function.UnwindData f function);
  let head := UnwindFunction BeginAddress EndAddress in
  if Z.testbit UnwindData 0
  then
    next ← load (RVA f (Z.land UnwindData 0xfffffffe) runtime_function.size);
    b ← load (runtime_function.BeginAddress f next);
    e ← load (runtime_function.EndAddress f next);
    Done [head; UnwindNextFunction b e]
  else
    info ← load (RVA f UnwindData unwind_info.size);
    version ← load (unwind_info.version f info);
    if negb (version =? 1)
    then Done [head; UnwindInfoAt UnwindData; UnwindUnknownVersion version]
    else
      flags ← load (unwind_info.flags f info);
      prolog ← load (unwind_info.prolog f info);
      frame_reg ← load (unwind_info.frame_reg f info);
      frame_offset ← load (unwind_info.frame_offset f info);
      count ← load (unwind_info.count f info);
      codes ← unwind_opcodes f info count frame_reg frame_offset (S (Z.to_nat count)) 0;
      tail ← unwind_handler_data f UnwindData info flags count;
      Done (head :: UnwindInfoAt UnwindData :: UnwindFlags flags prolog
              :: unwind_frame frame_reg frame_offset ++ codes ++ tail).

(** ** String resources (pe.c, [dump_string_data]) *)

(** [n] WCHARs starting at [p]. *)
Fixpoint rd16s (f : pe_file) (p : Z) (n : nat) : option (list Z) :=
  match n with
  | O => Some []
  | S n' => c ← rd16 f p; cs ← rd16s f (p + 2) n'; Some (c :: cs)
  end.

(** The line of one string: the identifier printed with [%04x] and the
    characters handed to [dump_strW]. *)
Inductive string_line : Type :=
| StringEntry (id : Z) (str : list Z).

(** [for (i = 0; i < 16 && size; i++)] with [n = 16 - i] iterations left;
    [ptr] may be [NULL]. *)
Fixpoint string_slots (f : pe_file) (id : Z) (n : nat) (i : Z)
    (ptr : option Z) (size : Z) : outcome (list string_line) :=
  match n with
  | O => Done []
  | S n' =>
      if size =? 0 then Done []
      else
        p ← load ptr;
        len0 ← load (rd16 f p);
        let ptr := p + 2 in
        let '(len, size) :=
          if size <=? len0 then (size, 0) else (len0, size - (len0 + 1)) in
        if negb (len =? 0)
        then
          str ← load (rd16s f ptr (Z.to_nat len));
          rest ← string_slots f id n' (i + 1) (Some (ptr + 2 * len)) size;
          Done (StringEntry (DWORD ((id - 1) * 16 + i)) str :: rest)
        else string_slots f id n' (i + 1) (Some ptr) size
  end.

Definition dump_string_data (f : pe_file) (ptr : option Z) (size id : Z)
  : outcome (list string_line) :=
  string_slots f id 16 0 ptr size.

(** ** What the specification says, in its own words *)

(** The file holds the 16-bit words [ws] from [p] on. *)
Definition holds16 (f : pe_file) (p : Z) (ws : list Z) : Prop :=
  rd16s f p (length ws) = Some ws.

(** A string-table block: each string preceded by its length. *)
Definition string_block (strs : list (list Z)) : list Z :=
  flat_map (fun s => Z.of_nat (length s) :: s) strs.

(** Spec 4.6: "entry k within a block of ordinal id is global string
    (id-1)*16 + k". *)
Definition spec_string_id (id k : Z) : Z := (id - 1) * 16 + k.

(** The lines for the non-empty strings of a block whose first string is
    entry [k], each under the identifier [number] gives its entry. *)
Fixpoint string_table (number : Z -> Z) (k : Z) (strs : list (list Z))
  : list string_line :=
  match strs with
  | [] => []
  | s :: strs' =>
      (if decide (s = []) then [] else [StringEntry (number k) s])
      ++ string_table number (k + 1) strs'
  end.

(** Spec 3, RelocationBlock: an entry is a "(12-bit offset, 4-bit type)"
    pair, the type "decoded against a fixed 16-entry type-name table". *)
Definition reloc_entry_line (w : Z) : reloc_line :=
  RelocEntry (w mod 4096) (default EmptyString (reloc_names !! Z.to_nat (w / 4096))).

(** The walk over the blocks from [rel] up to [end_], with what stops it. *)
Inductive reloc_walk (f : pe_file) (end_ : Z) : Z -> list reloc_line -> Prop :=
| walk_no_room rel :
    end_ - rel <= IMAGE_BASE_RELOCATION.size ->
    reloc_walk f end_ rel []
| walk_empty_block rel :
    IMAGE_BASE_RELOCATION.size < end_ - rel ->
    IMAGE_BASE_RELOCATION.SizeOfBlock f rel = Some 0 ->
    reloc_walk f end_ rel []
| walk_block rel SizeOfBlock VirtualAddress entries rest :
    IMAGE_BASE_RELOCATION.size < end_ - rel ->
    IMAGE_BASE_RELOCATION.SizeOfBlock f rel = Some SizeOfBlock ->
    SizeOfBlock <> 0 ->
    IMAGE_BASE_RELOCATION.VirtualAddress f rel = Some VirtualAddress ->
    Z.of_nat (length entries)
    = DWORD (ulong f (SizeOfBlock - IMAGE_BASE_RELOCATION.size) / 2) ->
    holds16 f (rel + IMAGE_BASE_RELOCATION.size) entries ->
    reloc_walk f end_
      (rel + IMAGE_BASE_RELOCATION.size + 2 * Z.of_nat (length entries)) rest ->
    reloc_walk f end_ rel
      (RelocPage VirtualAddress :: (reloc_entry_line <$> entries) ++ rest).

(** Spec 4.5: the walker "stops when the remaining directory bytes are
    smaller than one block header"; [remaining] bytes leave room for one. *)
Definition spec_room_for_header (remaining : Z) : Prop :=
  IMAGE_BASE_RELOCATION.size <= remaining.

(** Spec 4.5: the slots each opcode takes, "push register: 1 slot;
    small/large stack alloc: 1-3 slots; save non-volatile register/xmm:
    2-3 slots; set frame register: 1 slot".  The large allocation takes 2
    slots when its info field is 0 and 3 otherwise; the far saves take 3.
    Any other code takes the slot it stands in. *)
Definition documented_slots (code opinfo : Z) : Z :=
  if code =? UWOP_PUSH_NONVOL then 1
  else if code =? UWOP_ALLOC_SMALL then 1
  else if code =? UWOP_ALLOC_LARGE then (if opinfo =? 0 then 2 else 3)
  else if code =? UWOP_SAVE_NONVOL then 2
  else if code =? UWOP_SAVE_XMM128 then 2
  else if code =? UWOP_SAVE_NONVOL_FAR then 3
  else if code =? UWOP_SAVE_XMM128_FAR then 3
  else if code =? UWOP_SET_FPREG then 1
  else 1.

(** The [n] opcode slots from slot [i] on lie in the file. *)
Definition slots_in_file (f : pe_file) (info i n : Z) : Prop :=
  0 <= unwind_info.opcodes info i /\
  unwind_info.opcodes info (i + n) <= dump_total_len f.

(** Spec 3, ImportDescriptor: the sequence is "terminated by an all-zero
    sentinel entry". *)
Definition spec_all_zero (d : IMAGE_IMPORT_DESCRIPTOR.t) : bool :=
  (IMAGE_IMPORT_DESCRIPTOR.OriginalFirstThunk d =? 0)
  && (IMAGE_IMPORT_DESCRIPTOR.TimeDateStamp d =? 0)
  && (IMAGE_IMPORT_DESCRIPTOR.ForwarderChain d =? 0)
  && (IMAGE_IMPORT_DESCRIPTOR.Name d =? 0)
  && (IMAGE_IMPORT_DESCRIPTOR.FirstThunk d =? 0).

(** The descriptors [ds], the first of them at [p], each processed in
    turn. *)
Fixpoint processed (f : pe_file) (ds : list IMAGE_IMPORT_DESCRIPTOR.t) (p : Z)
  : outcome (list import_line) :=
  match ds with
  | [] => Done []
  | d :: ds' =>
      lines ← import_descriptor f d p;
      rest ← processed f ds' (p + IMAGE_IMPORT_DESCRIPTOR.size);
      Done (lines ++ rest)
  end.

(** Spec 9: the table is resolved "preferentially from the original first
    thunk", falling back "to the live first thunk only when absent". *)
Definition spec_thunk_rva (d : IMAGE_IMPORT_DESCRIPTOR.t) : Z :=
  if decide (IMAGE_IMPORT_DESCRIPTOR.OriginalFirstThunk d = 0)
  then IMAGE_IMPORT_DESCRIPTOR.FirstThunk d
  else IMAGE_IMPORT_DESCRIPTOR.OriginalFirstThunk d.

(** ** The export tables as the enumerator reads them *)

(** [n] DWORDs starting at [p]. *)
Fixpoint rd32s (f : pe_file) (p : Z) (n : nat) : option (list Z) :=
  match n with
  | O => Some []
  | S n' => c ← rd32 f p; cs ← rd32s f (p + 4) n'; Some (c :: cs)
  end.

(** The name [do_grab_sym] takes for the name RVA [rva]. *)
Definition name_at (f : pe_file) (rva : Z) : option string :=
  match RVA f rva 4 with
  | None => Some cant_get_function
  | Some p => rd_string f p
  end.

(** The [n] named exports whose name RVAs start at [pName] and whose
    ordinal offsets start at [pOrdl]: ordinal offset and name of each. *)
Fixpoint read_named (f : pe_file) (pName pOrdl : Z) (n : nat)
  : option (list (Z * string)) :=
  match n with
  | O => Some []
  | S n' =>
      o ← rd16 f pOrdl;
      rva ← rd32 f pName;
      s ← name_at f rva;
      rest ← read_named f (pName + 4) (pOrdl + 2) n';
      Some ((o, s) :: rest)
  end.

Record export_tables : Type := {
  exp_Base : Z;
  exp_funcs : list Z;
  exp_named : list (Z * string)
}.

(** The export directory of [f] with its three tables, when the directory
    and the tables resolve and can be read. *)
Definition read_exports (f : pe_file) : option export_tables :=
  exportDir ← get_dir f IMAGE_FILE_EXPORT_DIRECTORY;
  AddressOfNames ← IMAGE_EXPORT_DIRECTORY.AddressOfNames f exportDir;
  NumberOfNames ← IMAGE_EXPORT_DIRECTORY.NumberOfNames f exportDir;
  pName ← RVA f AddressOfNames (ulong f (NumberOfNames * 4));
  AddressOfNameOrdinals ← IMAGE_EXPORT_DIRECTORY.AddressOfNameOrdinals f exportDir;
  pOrdl ← RVA f AddressOfNameOrdinals (ulong f (NumberOfNames * 2));
  AddressOfFunctions ← IMAGE_EXPORT_DIRECTORY.AddressOfFunctions f exportDir;
  NumberOfFunctions ← IMAGE_EXPORT_DIRECTORY.NumberOfFunctions f exportDir;
  pFunc ← RVA f AddressOfFunctions (ulong f (NumberOfFunctions * 4));
  Base ← IMAGE_EXPORT_DIRECTORY.Base f exportDir;
  funcs ← rd32s f pFunc (Z.to_nat NumberOfFunctions);
  named ← read_named f pName pOrdl (Z.to_nat NumberOfNames);
  Some {| exp_Base := Base; exp_funcs := funcs; exp_named := named |}.

(** The cells of the named exports, in the order of the name table. *)
Definition named_symbols (Base : Z) (named : list (Z * string)) : list dll_symbol :=
  (fun '(o, s) => {| ordinal := DWORD (Base + o); symbol := Some s |}) <$> named.

(** Slot [i] of the function table is claimed by a named export. *)
Definition claimed (named : list (Z * string)) (i : Z) : bool :=
  bool_decide (i ∈ (fst <$> named)).

(** Spec 4.7: "every unclaimed but present function-address-table slot
    (ordinal-only export) is synthesized a name of the form
    <module>_<ordinal> (uppercased) and appended": the cells for the slots
    [funcs], the first of which is slot [i].  The name is [ordinal_name]. *)
Fixpoint ordinal_only (g : winedump_globals) (Base : Z) (named : list (Z * string))
    (i : Z) (funcs : list Z) : list dll_symbol :=
  match funcs with
  | [] => []
  | func :: funcs' =>
      (if negb (func =? 0) && negb (claimed named i)
       then [{| ordinal := DWORD (Base + i);
                symbol := Some (ordinal_name g (DWORD (Base + i))) |}]
       else [])
      ++ ordinal_only g Base named (i + 1) funcs'
  end.

(** Named exports followed by synthesized ordinal-only exports. *)
Definition combined_symbols (g : winedump_globals) (t : export_tables)
  : list dll_symbol :=
  named_symbols (exp_Base t) (exp_named t)
  ++ ordinal_only g (exp_Base t) (exp_named t) 0 (exp_funcs t).

(** Spec: the name "<module>_<ordinal>", uppercased. *)
Definition spec_ordinal_name (g : winedump_globals) (ord : Z) : string :=
  str_toupper (module_name g ++ "_" ++ decimal ord)%string.

(** Bit [i] of the bit map of used functions. *)
Definition bit (map : list Z) (i : Z) : bool :=
  match map !! Z.to_nat (i / 32) with
  | Some w => Z.testbit w (i mod 32)
  | None => false
  end.

(** ** The C library's qsort

    pe.c hands the array to [qsort] of the C library, which is not among
    the sources.  What stands for it here is the merge sort of the GNU C
    library (msort.c): the two halves of the array are sorted and then
    merged. *)

(** Modelled from the spec: spec 4.7 has the list "sorted by ordinal
    (stable, ties broken by original insertion order)".  The merge of the
    sorted halves [b1] and [b2]: of the two elements in front it takes the
    left one unless the comparison function says that one is the greater
    ([cmp(b1, b2) <= 0]). *)
Fixpoint msort_merge {A} (cmp : A -> A -> Z) (b1 : list A) : list A -> list A :=
  fix merge_right (b2 : list A) : list A :=
    match b1, b2 with
    | [], _ => b2
    | _, [] => b1
    | x :: b1', y :: b2' =>
        if cmp x y <=? 0 then x :: msort_merge cmp b1' b2 else y :: merge_right b2'
    end.

(** Modelled from the spec: the sort of spec 4.7, as the library's
    [msort_with_tmp] does it: an array of at most one element is left as it
    is, otherwise the first [n / 2] elements and the rest are sorted and
    merged.  [depth] bounds the depth of the recursion; the length of the
    array is enough, each half being shorter than the whole. *)
Fixpoint msort_with_tmp {A} (depth : nat) (cmp : A -> A -> Z) (b : list A) : list A :=
  match depth with
  | O => b
  | S depth' =>
      let n := length b in
      if (n <=? 1)%nat then b
      else
        let n1 := (n / 2)%nat in
        msort_merge cmp (msort_with_tmp depth' cmp (take n1 b))
                        (msort_with_tmp depth' cmp (drop n1 b))
  end.

(** Modelled from the spec: [qsort(base, nmemb, size, compar)], the sort of
    spec 4.7, on the array [base] as a list of its elements. *)
Definition qsort {A} (cmp : A -> A -> Z) (base : list A) : list A :=
  msort_with_tmp (length base) cmp base.

(** ** The caller's loop [while (!dll_next_symbol(&sym))]: name and
    ordinal left in [sym] by each call that returns 0. *)
Fixpoint next_symbols {R} (to_ordinal : Z -> Z) (fuel : nat)
    (st : enumerator) (sym : parsed_symbol R)
  : outcome (list (option string * Z)) :=
  match fuel with
  | O => OutOfFuel
  | S fuel' =>
      '(r, st', sym') ← dll_next_symbol to_ordinal st sym;
      if r =? 0
      then rest ← next_symbols to_ordinal fuel' st' sym';
           Done ((sym_symbol sym', sym_ordinal sym') :: rest)
      else Done []
  end.

Definition all_symbols {R} (to_ordinal : Z -> Z)
    (st : enumerator) (sym : parsed_symbol R)
  : outcome (list (option string * Z)) :=
  next_symbols to_ordinal (S (length (default [] (dll_symbols st)))) st sym.

(** Name of a cell and its ordinal as the caller's structure holds it. *)
Definition yielded (to_ordinal : Z -> Z) (c : dll_symbol) : option string * Z :=
  (symbol c, to_ordinal (ordinal c)).

(** The array [do_grab_sym] builds from the tables [t]: what [qsort] makes
    of the combined list, the cell that ends the array, and the cells of
    the allocation that were never written. *)
Definition built_symbols
    (qsort : (dll_symbol -> dll_symbol -> Z) -> list dll_symbol -> list dll_symbol)
    (g : winedump_globals) (junk : nat -> dll_symbol) (t : export_tables)
  : list dll_symbol :=
  let j := length (combined_symbols g t) in
  qsort symbol_cmp (combined_symbols g t)
  ++ {| ordinal := ordinal (junk j); symbol := None |}
  :: (junk <$> seq (S j) (length (exp_funcs t) - j)).
(** ** Concrete inputs used by the examples below *)

(** Little-endian bytes of a WORD, of a DWORD, of an array of WORDs, and the
    bytes of a NUL-terminated string. *)
Definition le16 (x : Z) : list Z := [x mod 256; x / 256 mod 256].
Definition le32 (x : Z) : list Z := le16 (x mod 65536) ++ le16 (x / 65536).
Definition le16s (ws : list Z) : list Z := flat_map le16 ws.
Definition le32s (ws : list Z) : list Z := flat_map le32 ws.
Definition asciiz (s : string) : list Z :=
  ((fun c => Z.of_N (N_of_ascii c)) <$> list_ascii_of_string s) ++ [0].

Definition byte_of (x : Z) : byte :=
  default x00 (Byte.of_N (Z.to_N (x mod 256))).

Definition no_directory : IMAGE_DATA_DIRECTORY :=
  {| dir_VirtualAddress := 0; dir_Size := 0 |}.

(** The 16 data directories, all absent. *)
Definition no_directories : list IMAGE_DATA_DIRECTORY := replicate 16 no_directory.

(** The 16 data directories, all absent but number [idx], which is [size]
    bytes at virtual address 0x1000. *)
Definition one_directory (idx : Z) (size : Z) : list IMAGE_DATA_DIRECTORY :=
  <[Z.to_nat idx := {| dir_VirtualAddress := 0x1000; dir_Size := size |}]> no_directories.

(** A 32-bit image on a 64-bit host: its bytes, section table and data
    directories. *)
Definition image32 (bytes : list Z) (sections : list IMAGE_SECTION_HEADER)
    (dirs : list IMAGE_DATA_DIRECTORY) : pe_file :=
  {| ulong_bits := 64; dump_base := byte_of <$> bytes; Magic := 0x10b;
     NumberOfRvaAndSizes := 16; DataDirectory := dirs; sectHead := sections |}.

(** A file of 4096 bytes whose only section starts at virtual address
    0xFFFFF000 and holds 0x2000 bytes of raw data at file offset 0x400. *)
Definition high_section : IMAGE_SECTION_HEADER :=
  {| VirtualAddress := 0xFFFFF000; SizeOfRawData := 0x2000; PointerToRawData := 0x400 |}.

Definition high_section_file : pe_file :=
  image32 (replicate 4096 0) [high_section] no_directories.


(** The string-table block of identifier 2 with "Hi" at slot 0 and "abc" at
    slot 5, alone in a file. *)
Definition hi_abc_strings : list (list Z) :=
  [[72; 105]; []; []; []; []; [97; 98; 99]; []; []; []; []; []; []; []; []; []; []].

Definition hi_abc_file : pe_file :=
  image32 (le16s (string_block hi_abc_strings)) [] no_directories.

(** One section mapping virtual addresses 0x1000.. to the start of the
    file. *)
Definition flat_section (size : Z) : IMAGE_SECTION_HEADER :=
  {| VirtualAddress := 0x1000; SizeOfRawData := size; PointerToRawData := 0 |}.

(** A file that is one base-relocation directory, at virtual address
    0x1000. *)
Definition reloc_file (bytes : list Z) : pe_file :=
  let size := Z.of_nat (length bytes) in
  image32 bytes [flat_section size] (one_directory IMAGE_DIRECTORY_ENTRY_BASERELOC size).

(** Spec 8: one block for page 0x1000 with the entries (offset 0x004,
    type 3) and (offset 0x100, type 10). *)
Definition two_entry_block : list Z :=
  le32 0x1000 ++ le32 12 ++ le16 0x3004 ++ le16 0xA100.

(** A block whose size field is zero, followed by a well-formed block. *)
Definition zero_size_block : list Z :=
  le32 0x1000 ++ le32 0 ++ le32 0x2000 ++ le32 12 ++ le16 0x3004 ++ le16 0xA100.

(** A directory that is exactly one block header. *)
Definition header_only_block : list Z :=
  le32 0x1000 ++ le32 8.

(** A runtime function at offset 0 whose unwind info (version 1, four
    opcode slots) follows it at offset 12: a large allocation of info 0 with
    its operand, a register push, a frame-register set. *)
Definition unwind_file : pe_file :=
  image32 (le32 0x2000 ++ le32 0x2050 ++ le32 0x100C
           ++ [0x01; 0x0b; 4; 0x05]
           ++ [0x0b; 0x01] ++ le16 16 ++ [0x04; 0x50] ++ [0x01; 0x03])
    [flat_section 24] no_directories.

Definition import_directory (size : Z) : list IMAGE_DATA_DIRECTORY :=
  one_directory IMAGE_FILE_IMPORT_DIRECTORY size.

(** An import directory of one descriptor and the all-zero entry that ends
    it.  The descriptor imports, from "k.dll", ordinal 1 and the function
    "Fn" (hint 7). *)
Definition k_dll : IMAGE_IMPORT_DESCRIPTOR.t :=
  {| IMAGE_IMPORT_DESCRIPTOR.OriginalFirstThunk := 0x1028;
     IMAGE_IMPORT_DESCRIPTOR.TimeDateStamp := 0;
     IMAGE_IMPORT_DESCRIPTOR.ForwarderChain := 0;
     IMAGE_IMPORT_DESCRIPTOR.Name := 0x1034;
     IMAGE_IMPORT_DESCRIPTOR.FirstThunk := 0x1028 |}.

Definition zero_descriptor : IMAGE_IMPORT_DESCRIPTOR.t :=
  {| IMAGE_IMPORT_DESCRIPTOR.OriginalFirstThunk := 0;
     IMAGE_IMPORT_DESCRIPTOR.TimeDateStamp := 0;
     IMAGE_IMPORT_DESCRIPTOR.ForwarderChain := 0;
     IMAGE_IMPORT_DESCRIPTOR.Name := 0;
     IMAGE_IMPORT_DESCRIPTOR.FirstThunk := 0 |}.

Definition import_file : pe_file :=
  image32 (le32s [0x1028; 0; 0; 0x1034; 0x1028] ++ le32s [0; 0; 0; 0; 0]
           ++ le32s [0x80000001; 0x103C; 0]
           ++ asciiz "k.dll" ++ [0; 0]
           ++ le16 7 ++ asciiz "Fn")
    [flat_section 65] (import_directory 40).

(** The same directory with, in front, a descriptor whose FirstThunk is
    zero and whose other fields are not. *)
Definition unbound_descriptor : IMAGE_IMPORT_DESCRIPTOR.t :=
  {| IMAGE_IMPORT_DESCRIPTOR.OriginalFirstThunk := 0x103C;
     IMAGE_IMPORT_DESCRIPTOR.TimeDateStamp := 0;
     IMAGE_IMPORT_DESCRIPTOR.ForwarderChain := 0;
     IMAGE_IMPORT_DESCRIPTOR.Name := 0x1048;
     IMAGE_IMPORT_DESCRIPTOR.FirstThunk := 0 |}.

Definition k_dll_second : IMAGE_IMPORT_DESCRIPTOR.t :=
  {| IMAGE_IMPORT_DESCRIPTOR.OriginalFirstThunk := 0x103C;
     IMAGE_IMPORT_DESCRIPTOR.TimeDateStamp := 0;
     IMAGE_IMPORT_DESCRIPTOR.ForwarderChain := 0;
     IMAGE_IMPORT_DESCRIPTOR.Name := 0x1048;
     IMAGE_IMPORT_DESCRIPTOR.FirstThunk := 0x103C |}.

Definition unbound_import_file : pe_file :=
  image32 (le32s [0x103C; 0; 0; 0x1048; 0] ++ le32s [0x103C; 0; 0; 0x1048; 0x103C]
           ++ le32s [0; 0; 0; 0; 0]
           ++ le32s [0x80000001; 0x1050; 0]
           ++ asciiz "k.dll" ++ [0; 0]
           ++ le16 7 ++ asciiz "Fn")
    [flat_section 85] (import_directory 60).

(** The 40 bytes of an export directory. *)
Definition export_directory_bytes
    (Name Base NumberOfFunctions NumberOfNames
     AddressOfFunctions AddressOfNames AddressOfNameOrdinals : Z) : list Z :=
  le32s [0; 0] ++ le16s [0; 0]
  ++ le32s [Name; Base; NumberOfFunctions; NumberOfNames;
            AddressOfFunctions; AddressOfNames; AddressOfNameOrdinals].

(** Where each of the strings [names] starts when they are laid out, NUL
    terminated, one after the other from [start]. *)
Fixpoint string_offsets (start : Z) (names : list string) : list Z :=
  match names with
  | [] => []
  | s :: names' => start :: string_offsets (start + Z.of_nat (String.length s) + 1) names'
  end.

(** A file that is one export directory at virtual address 0x1000, followed
    by its function table, name table, name-ordinal table, module name and
    export names.  [named] gives each name with its ordinal offset. *)
Definition export_bytes (dll : string) (Base : Z) (funcs : list Z)
    (named : list (string * Z)) : list Z :=
  let N := Z.of_nat (length funcs) in
  let M := Z.of_nat (length named) in
  let o_funcs := 40 in
  let o_names := o_funcs + 4 * N in
  let o_ords := o_names + 4 * M in
  let o_dll := o_ords + 2 * M in
  let o_strs := o_dll + Z.of_nat (String.length dll) + 1 in
  export_directory_bytes (0x1000 + o_dll) Base N M
    (0x1000 + o_funcs) (0x1000 + o_names) (0x1000 + o_ords)
  ++ le32s funcs
  ++ le32s (Z.add 0x1000 <$> string_offsets o_strs (fst <$> named))
  ++ le16s (snd <$> named)
  ++ asciiz dll
  ++ flat_map asciiz (fst <$> named)
  ++ [0; 0; 0; 0].

Definition export_file (bytes : list Z) : pe_file :=
  image32 bytes [flat_section (Z.of_nat (length bytes))]
    (one_directory IMAGE_FILE_EXPORT_DIRECTORY 40).

(** One function, one name, and a name ordinal that is not an index of the
    function table. *)
Definition stray_ordinal_file : pe_file :=
  export_file (export_bytes "a.dll" 1 [0x2000] [("f"%string, 40)]).

(** Spec 8: three functions, ordinal base 10, only the second one named. *)
Definition three_exports_file : pe_file :=
  export_file (export_bytes "a.dll" 10 [0x2000; 0x2010; 0x2020] [("Named"%string, 1)]).

(** One function exported by ordinal only: no names, and no name table. *)
Definition ordinal_only_file : pe_file :=
  export_file (export_directory_bytes 0x102C 1 1 0 0x1028 0 0
               ++ le32s [0x2000] ++ asciiz "a.dll").

(** Two names for the second function, then one for the first; the third
    slot of the function table is empty. *)
Definition alias_file : pe_file :=
  export_file (export_bytes "a.dll" 1 [0x2000; 0x2010; 0]
                 [("B1"%string, 1); ("B2"%string, 1); ("A"%string, 0)]).

Definition kernel32_globals : winedump_globals :=
  {| forward_dll := Some "kernel32"%string; OUTPUT_UC_DLL_NAME := "A"%string |}.

(** A module name of 260 characters. *)
Definition long_name_globals : winedump_globals :=
  {| forward_dll := Some (string_of_list_ascii (replicate 260 "m"%char));
     OUTPUT_UC_DLL_NAME := "A"%string |}.

(** A fresh array whose cells hold an ordinal of 0xDEAD and a stray name. *)
Definition stale (n : nat) : dll_symbol :=
  {| ordinal := 0xDEAD; symbol := Some "stale"%string |}.

Definition alias_tables : export_tables :=
  {| exp_Base := 1; exp_funcs := [0x2000; 0x2010; 0];
     exp_named := [(1, "B1"%string); (1, "B2"%string); (0, "A"%string)] |}.

Definition three_exports_tables : export_tables :=
  {| exp_Base := 10; exp_funcs := [0x2000; 0x2010; 0x2020];
     exp_named := [(1, "Named"%string)] |}.

(** Spec 8's table with ordinal base 2^31 - 2: the third ordinal is 2^31. *)
Definition high_ordinals_file : pe_file :=
  export_file (export_bytes "a.dll" 0x7FFFFFFE [0x2000; 0x2010; 0x2020]
                 [("Named"%string, 1)]).

(** One named function whose ordinal is the largest DWORD. *)
Definition top_ordinal_file : pe_file :=
  export_file (export_bytes "a.dll" 0xFFFFFFFF [0x2000] [("f"%string, 0)]).

(** Two functions, and two names for the first of them: three symbols. *)
Definition crowded_file : pe_file :=
  export_file (export_bytes "a.dll" 1 [0x2000; 0x2010]
                 [("A"%string, 0); ("B"%string, 0)]).

(** The caller's structure before the first call. *)
Definition blank_symbol : parsed_symbol unit :=
  {| sym_symbol := None; sym_ordinal := 0; sym_others := tt |}.
(** * The rest of pe.c

    The functions below print text whose characters matter (escapes, digits),
    so their output is kept as the bytes written to [stdout]. *)

(** ** printf's [%x] and [%o] *)

(** The characters of a format string's literal text. *)
Definition chars (s : string) : list byte := list_byte_of_string s.

Definition backslash : byte := "\"%byte.

(** The digit [d] of a number written in base 8 or 16, in lower case. *)
Definition digit (d : Z) : byte := byte_of (if d <? 10 then 48 + d else 87 + d).

(** The [k] low digits of [n] in base [base], the highest first. *)
Fixpoint low_digits (base : Z) (k : nat) (n : Z) : list byte :=
  match k with
  | O => []
  | S k' => low_digits base k' (n / base) ++ [digit (n mod base)]
  end.

(** The number of digits of [n] in base [2 ^ bits] without leading zeros;
    zero has the one digit 0. *)
Definition digit_count (bits n : Z) : nat :=
  if n <=? 0 then 1%nat else Z.to_nat (Z.log2 n / bits + 1).

(** [%x] with a minimal field width ([%x], [%02x], [%04x], [%08lx]: padded
    with zeros on the left). *)
Definition printf_x (width : nat) (n : Z) : list byte :=
  low_digits 16 (Nat.max width (digit_count 4 n)) n.

(** [%o] and [%03o]. *)
Definition printf_o (width : nat) (n : Z) : list byte :=
  low_digits 8 (Nat.max width (digit_count 3 n)) n.

(** [isxdigit] of the C locale. *)
Definition isxdigit (c : Z) : bool :=
  ((48 <=? c) && (c <=? 57)) || ((97 <=? c) && (c <=? 102)) || ((65 <=? c) && (c <=? 70)).

(** ** Escaped strings (pe.c, [dump_strA] and [dump_strW]) *)

Definition escapes : list byte := chars ".......abtnvfr.............e....".

Definition sizeof_buffer : Z := 256.
Definition INT_MAX : Z := 2147483647.

(** The local state of [dump_strA] and [dump_strW]: [buffer] holds the
    bytes [buffer[0 .. pos - buffer)], the ones written and not yet handed
    to [fwrite]; [stdout] is what [fwrite] has received; [count] is the
    [int] of that name. *)
Record strbuf : Type := {
  buffer : list byte;
  stdout : list byte;
  count : Z
}.

(** [pos - buffer] *)
Definition pos (b : strbuf) : Z := Z.of_nat (length (buffer b)).

(** [fwrite( buffer, pos - buffer, 1, stdout ); count += pos - buffer;]
    A count that leaves the range of [int] is an overflow where ptrdiff_t
    is [int] and an out-of-range conversion elsewhere; the run is not
    followed beyond it. *)
Definition fwrite_buffer (b : strbuf) : outcome strbuf :=
  if count b + pos b <=? INT_MAX
  then Done {| buffer := buffer b; stdout := stdout b ++ buffer b;
               count := count b + pos b |}
  else Fault.

(** [pos = buffer;] *)
Definition rewind (b : strbuf) : strbuf :=
  {| buffer := []; stdout := stdout b; count := count b |}.

(** [pos += sprintf( pos, ... )], [text] being what the format produces:
    [sprintf] stores the text and a NUL behind it, all of which has to lie
    inside [buffer]. *)
Definition sprintf (b : strbuf) (text : list byte) : outcome strbuf :=
  if pos b + Z.of_nat (length text) + 1 <=? sizeof_buffer
  then Done {| buffer := buffer b ++ text; stdout := stdout b; count := count b |}
  else Fault.

(** [*pos++ = c;] *)
Definition put (b : strbuf) (c : byte) : outcome strbuf :=
  if pos b + 1 <=? sizeof_buffer
  then Done {| buffer := buffer b ++ [c]; stdout := stdout b; count := count b |}
  else Fault.

(** The test at the head of the loop body:
    [if (pos > buffer + sizeof(buffer) - 8) { fwrite; count +=; pos = buffer; }] *)
Definition make_room (b : strbuf) : outcome strbuf :=
  if sizeof_buffer - 8 <? pos b
  then b' ← fwrite_buffer b; Done (rewind b')
  else Done b.

(** [len > 1 && str[1] >= '0' && str[1] <= '7'], [rest] being the
    characters behind the current one. *)
Definition octal_follows (rest : list Z) : bool :=
  match rest with
  | [] => false
  | next :: _ => (48 <=? next) && (next <=? 55)
  end.

(** The branch [if ( *str < 32 )] of both functions, for the character [v]:
    the terminating NUL is left out, the characters the table [escapes]
    names get their C escape, the others an octal one, of three digits when
    an octal digit follows. *)
Definition control_escape (v : Z) (rest : list Z) (b : strbuf) : outcome strbuf :=
  if (v =? 0) && bool_decide (rest = []) then Done b
  else
    e ← fetch escapes v;
    if negb (byte_value e =? byte_value ".") then sprintf b [backslash; e]
    else if octal_follows rest then sprintf b (backslash :: printf_o 3 v)
    else sprintf b (backslash :: printf_o 0 v).

(** [if ( *str == '\\') *pos++ = '\\'; *pos++ = *str;] *)
Definition plain_char (v : Z) (b : strbuf) : outcome strbuf :=
  b ← (if v =? byte_value backslash then put b backslash else Done b);
  put b (byte_of v).

(** The body of [dump_strA]'s loop behind the test for room, for the
    character [v] with [rest] behind it ([len] is [1 + length rest]). *)
Definition dump_strA_char (v : Z) (rest : list Z) (b : strbuf) : outcome strbuf :=
  if 127 <? v then sprintf b (chars "\x" ++ printf_x 2 v)
  else if v <? 32 then control_escape v rest b
  else plain_char v b.

(** [for (; len; str++, len--)] of [dump_strA]; [str] holds the [len]
    characters, each an [unsigned char]. *)
Fixpoint dump_strA_loop (str : list Z) (b : strbuf) : outcome strbuf :=
  match str with
  | [] => Done b
  | v :: rest =>
      b ← make_room b;
      b ← dump_strA_char v rest b;
      dump_strA_loop rest b
  end.

Definition empty_buffer : strbuf := {| buffer := []; stdout := []; count := 0 |}.

(** [dump_strA( str, len )]: what it writes to [stdout] and the count it
    returns. *)
Definition dump_strA (str : list byte) : outcome (list byte * Z) :=
  b ← dump_strA_loop (byte_value <$> str) empty_buffer;
  b ← fwrite_buffer b;
  Done (stdout b, count b).

(** [len > 1 && str[1] < 128 && isxdigit((char)str[1])] *)
Definition xdigit_follows (rest : list Z) : bool :=
  match rest with
  | [] => false
  | next :: _ => (next <? 128) && isxdigit next
  end.

(** The body of [dump_strW]'s loop behind the test for room. *)
Definition dump_strW_char (v : Z) (rest : list Z) (b : strbuf) : outcome strbuf :=
  if 127 <? v then
    if xdigit_follows rest then sprintf b (chars "\x" ++ printf_x 4 v)
    else sprintf b (chars "\x" ++ printf_x 0 v)
  else if v <? 32 then control_escape v rest b
  else plain_char v b.

(** [for (; len; str++, len--)] of [dump_strW]; [str] holds the [len]
    WCHARs. *)
Fixpoint dump_strW_loop (str : list Z) (b : strbuf) : outcome strbuf :=
  match str with
  | [] => Done b
  | v :: rest =>
      b ← make_room b;
      b ← dump_strW_char v rest b;
      dump_strW_loop rest b
  end.

Definition dump_strW (str : list Z) : outcome (list byte * Z) :=
  b ← dump_strW_loop str empty_buffer;
  b ← fwrite_buffer b;
  Done (stdout b, count b).

(** *** The text of an escaped string, character by character

    What the loop body of [dump_strA] and of [dump_strW] stores for the
    character [v] with [rest] behind it, and the text of a whole string;
    the buffer and its flushes are left out. *)

Definition control_text (v : Z) (rest : list Z) : list byte :=
  if (v =? 0) && bool_decide (rest = []) then []
  else
    match escapes !! Z.to_nat v with
    | Some e =>
        if negb (byte_value e =? byte_value ".") then [backslash; e]
        else if octal_follows rest then backslash :: printf_o 3 v
        else backslash :: printf_o 0 v
    | None => []
    end.

Definition plain_text (v : Z) : list byte :=
  (if v =? byte_value backslash then [backslash] else []) ++ [byte_of v].

Definition strA_text (v : Z) (rest : list Z) : list byte :=
  if 127 <? v then chars "\x" ++ printf_x 2 v
  else if v <? 32 then control_text v rest
  else plain_text v.

Definition strW_text (v : Z) (rest : list Z) : list byte :=
  if 127 <? v then
    if xdigit_follows rest then chars "\x" ++ printf_x 4 v
    else chars "\x" ++ printf_x 0 v
  else if v <? 32 then control_text v rest
  else plain_text v.

Fixpoint escaped (text : Z -> list Z -> list byte) (str : list Z) : list byte :=
  match str with
  | [] => []
  | v :: rest => text v rest ++ escaped text rest
  end.

(** A string without the NUL that ends it, if one does. *)
Fixpoint unterminated (str : list Z) : list Z :=
  match str with
  | [] => []
  | v :: rest =>
      if (v =? 0) && bool_decide (rest = []) then [] else v :: unterminated rest
  end.

(** A byte of the range the two functions keep to, 32 to 127: nothing
    below 32, nothing above 127.  The range has 127 (DEL) in it, which
    neither function escapes. *)
Definition plain_byte (c : byte) : Prop := 32 <= byte_value c <= 127.

(** How the text of one character starts: it is empty for the NUL that
    ends the string, the character itself for a plain one, and starts with
    a backslash otherwise. *)
Definition text_head (text : Z -> list Z -> list byte) (v : Z) (rest : list Z) : Prop :=
  (text v rest = [] /\ v = 0 /\ rest = []) \/
  (exists l, text v rest = backslash :: l) \/
  (32 <= v <= 127 /\ v <> byte_value backslash /\ text v rest = [byte_of v]).

(** The loop of [dump_strA] and [dump_strW] over a loop body [body]. *)
Fixpoint escape_loop (body : Z -> list Z -> strbuf -> outcome strbuf)
    (str : list Z) (b : strbuf) : outcome strbuf :=
  match str with
  | [] => Done b
  | v :: rest =>
      b ← make_room b;
      b ← body v rest b;
      escape_loop body rest b
  end.

(** [b] with [text] stored at [pos]. *)
Definition stored (b : strbuf) (text : list byte) : strbuf :=
  {| buffer := buffer b ++ text; stdout := stdout b; count := count b |}.

(** The result of [dump_strA] and [dump_strW] for the text [out]. *)
Definition written (out : list byte) : outcome (list byte * Z) :=
  if Z.of_nat (length out) <=? INT_MAX then Done (out, Z.of_nat (length out))
  else Fault.

(** *** Reading an escaped character back

    Not part of pe.c: the reading of the text the two functions write,
    used to show that the text determines the string. *)

(** The value of an octal digit, and of a hexadecimal digit as [%x]
    prints it. *)
Definition octal_value (c : byte) : option Z :=
  let v := byte_value c in
  if (48 <=? v) && (v <=? 55) then Some (v - 48) else None.

Definition hex_value (c : byte) : option Z :=
  let v := byte_value c in
  if (48 <=? v) && (v <=? 57) then Some (v - 48)
  else if (97 <=? v) && (v <=? 102) then Some (v - 87)
  else None.

(** The number spelled by the digits at the head of [l], at most [n] of
    them, continuing [acc]; and what is behind these digits. *)
Fixpoint read_digits (value : byte -> option Z) (base : Z) (n : nat) (acc : Z)
    (l : list byte) : Z * list byte :=
  match n, l with
  | S n', c :: l' =>
      match value c with
      | Some d => read_digits value base n' (acc * base + d) l'
      | None => (acc, l)
      end
  | _, _ => (acc, l)
  end.

(** The character a letter of the table [escapes] stands for. *)
Definition escape_code (e : byte) : option Z :=
  if byte_value e =? byte_value "." then None
  else '(i, _) ← list_find (fun c => byte_value c = byte_value e) escapes;
       Some (Z.of_nat i).

(** The character at the head of an escaped text and the rest of the text;
    a hexadecimal escape has at most [hexmax] digits. *)
Definition unescape_char (hexmax : nat) (l : list byte) : option (Z * list byte) :=
  match l with
  | [] => None
  | c :: l1 =>
      if byte_value c =? byte_value backslash then
        match l1 with
        | [] => None
        | e :: l2 =>
            if byte_value e =? byte_value backslash then Some (byte_value backslash, l2)
            else if byte_value e =? byte_value "x"
            then Some (read_digits hex_value 16 hexmax 0 l2)
            else
              match escape_code e with
              | Some v => Some (v, l2)
              | None => Some (read_digits octal_value 8 3 0 l1)
              end
        end
      else Some (byte_value c, l1)
  end.

(** ** 64-bit header fields (pe.c, [print_longlong]) *)

(** [print_longlong(title, value)]: the digits written behind "0x", up to
    the end of the line.  Both arguments of the formats are converted to
    [unsigned long]. *)
Definition print_longlong (f : pe_file) (value : Z) : list byte :=
  if negb (Z.shiftr value 32 =? 0)
  then printf_x 0 (ulong f (Z.shiftr value 32)) ++ printf_x 8 (ulong f value)
  else printf_x 0 (ulong f value).

(** ** Exception directory (pe.c, [dump_dir_exceptions]) *)

(** Modelled from the PE format: winnt.h, which defines the machine types,
    is not among the sources.  The directory index is the position of
    "EXCEPTION" in pe.c's table [DirectoryNames]. *)
Definition IMAGE_FILE_EXCEPTION_DIRECTORY : Z := 3.
Definition IMAGE_FILE_MACHINE_AMD64 : Z := 0x8664.

Inductive exception_line : Type :=
| ExceptionInfo (functions : Z)
| ExceptionUnwind (line : unwind_line)
| ExceptionNotSupported (Machine : Z).

(** [for (i = 0; i < size; i++) dump_x86_64_unwind_info( funcs + i );]
    with [n] iterations left. *)
Fixpoint exception_functions (f : pe_file) (funcs : Z) (n : nat) (i : Z)
  : outcome (list unwind_line) :=
  match n with
  | O => Done []
  | S n' =>
      lines ← dump_x86_64_unwind_info f (funcs + runtime_function.size * i);
      rest ← exception_functions f funcs n' (i + 1);
      Done (lines ++ rest)
  end.

(** [Machine] is [PE_nt_headers->FileHeader.Machine].  The name
    [get_machine_str] gives it is left out of the last line. *)
Definition dump_dir_exceptions (f : pe_file) (Machine : Z)
  : outcome (list exception_line) :=
  match get_dir_and_size f IMAGE_FILE_EXCEPTION_DIRECTORY 0 with
  | (None, _) => Done []
  | (Some funcs, size) =>
      if Machine =? IMAGE_FILE_MACHINE_AMD64
      then
        let size := size / runtime_function.size in
        lines ← exception_functions f funcs (Z.to_nat size) 0;
        Done (ExceptionInfo size :: (ExceptionUnwind <$> lines))
      else Done [ExceptionNotSupported Machine]
  end.

(** ** Delay-load imports (pe.c, [dump_dir_delay_imported_functions]) *)

(** The index is the position of "Delay IAT" in [DirectoryNames]. *)
Definition IMAGE_DIRECTORY_ENTRY_DELAY_IMPORT : Z := 13.

(** [struct ImgDelayDescr], declared in the function: eight DWORDs. *)
Module ImgDelayDescr.
Record t : Type := {
  grAttrs : Z;
  szName : Z;
  phmod : Z;
  pIAT : Z;
  pINT : Z;
  pBoundIAT : Z;
  pUnloadIAT : Z;
  dwTimeStamp : Z
}.
Definition size : Z := 32.
Definition read (f : pe_file) (p : Z) : option t :=
  a ← rd32 f p; n ← rd32 f (p + 4); h ← rd32 f (p + 8); i ← rd32 f (p + 12);
  t ← rd32 f (p + 16); b ← rd32 f (p + 20); u ← rd32 f (p + 24); s ← rd32 f (p + 28);
  Some {| grAttrs := a; szName := n; phmod := h; pIAT := i; pINT := t;
          pBoundIAT := b; pUnloadIAT := u; dwTimeStamp := s |}.
End ImgDelayDescr.

Inductive delay_line : Type :=
| DelayImportTableSize (directorySize : Z)
| DelayImportedModule (grAttrs offset : Z) (name : option string) (pINT dwTimeStamp : Z)
| DelayImport (line : import_line).

(** [int offset = (importDesc->grAttrs & 1) ? 0 : ImageBase;]  It is only
    ever subtracted from a DWORD, so it is kept as the DWORD it comes from. *)
Definition delay_offset (ImageBase : Z) (d : ImgDelayDescr.t) : Z :=
  if negb (Z.land (ImgDelayDescr.grAttrs d) 1 =? 0) then 0 else ImageBase.

(** [if (!il) printf(...) else { ... }]: the thunk table at [il]; only the
    32-bit walk is given the offset. *)
Definition delay_thunks (f : pe_file) (il : option Z) (offset : Z)
  : outcome (list import_line) :=
  match il with
  | None => Done [CantGrabThunkData]
  | Some il =>
      lines ← (if Magic f =? IMAGE_NT_OPTIONAL_HDR64_MAGIC
               then dump_image_thunk_data64 f (array_at f rd64 8 il)
               else dump_image_thunk_data32 f (array_at f rd32 4 il) offset);
      Done (lines ++ [ImportBlankLine])
  end.

(** The body of [for (;;)] behind the test that leaves the loop. *)
Definition delay_descriptor (f : pe_file) (ImageBase : Z) (d : ImgDelayDescr.t) (p : Z)
  : outcome (list delay_line) :=
  let offset := delay_offset ImageBase d in
  name ← string_arg f (RVA f (DWORD (ImgDelayDescr.szName d - offset)) 4);
  thunks ← delay_thunks f (RVA f (DWORD (ImgDelayDescr.pINT d - offset)) 4) offset;
  Done (DelayImportedModule (ImgDelayDescr.grAttrs d) p name
          (ImgDelayDescr.pINT d) (ImgDelayDescr.dwTimeStamp d)
        :: (DelayImport <$> thunks)).

(** [for (;;) { ...; if (!importDesc->szName || !importDesc->pIAT ||
    !importDesc->pINT) break; ...; importDesc++; }] *)
Fixpoint delay_descriptors (f : pe_file) (ImageBase : Z)
    (importDesc : list ImgDelayDescr.t) (p : Z) : outcome (list delay_line) :=
  match importDesc with
  | [] => Fault
  | d :: importDesc' =>
      if (ImgDelayDescr.szName d =? 0) || (ImgDelayDescr.pIAT d =? 0)
         || (ImgDelayDescr.pINT d =? 0)
      then Done []
      else
        lines ← delay_descriptor f ImageBase d p;
        rest ← delay_descriptors f ImageBase importDesc' (p + ImgDelayDescr.size);
        Done (lines ++ rest)
  end.

(** [ImageBase] is [PE_nt_headers->OptionalHeader.ImageBase]. *)
Definition dump_dir_delay_imported_functions (f : pe_file) (ImageBase : Z)
  : outcome (list delay_line) :=
  match get_dir f IMAGE_DIRECTORY_ENTRY_DELAY_IMPORT with
  | None => Done []
  | Some importDesc =>
      let directorySize := directory_size f IMAGE_DIRECTORY_ENTRY_DELAY_IMPORT in
      lines ← delay_descriptors f ImageBase
                (array_at f ImgDelayDescr.read ImgDelayDescr.size importDesc)
                importDesc;
      Done (DelayImportTableSize directorySize :: lines
              ++ [DelayImport ImportBlankLine])
  end.

(** The descriptors the walk dumps before it stops: those of [ds], the
    first of which is at [p]. *)
Fixpoint delay_processed (f : pe_file) (ImageBase : Z)
    (ds : list ImgDelayDescr.t) (p : Z) : outcome (list delay_line) :=
  match ds with
  | [] => Done []
  | d :: ds' =>
      lines ← delay_descriptor f ImageBase d p;
      rest ← delay_processed f ImageBase ds' (p + ImgDelayDescr.size);
      Done (lines ++ rest)
  end.

(** ** The name of an exported slot

    What the loop [funcs[pOrdl[i]] = pName[i]] of
    [dump_dir_exported_functions] leaves in [funcs[slot]] for the name
    ordinals [ords] and name RVAs [names]: the RVA of the last name whose
    ordinal is [slot], zero when there is none. *)
Definition last_name (ords names : list Z) (slot : Z) : Z :=
  default 0 (snd <$> last (filter (fun on => fst on = slot) (zip ords names))).

(** The slots of the function table [fs], the first of which is slot [i],
    that hold an address, with that address: the slots the printing loop
    of [dump_dir_exported_functions] does not skip with
    [if (!pFunc[i]) continue]. *)
Fixpoint present_slots (i : Z) (fs : list Z) : list (Z * Z) :=
  match fs with
  | [] => []
  | func :: fs' =>
      (if func =? 0 then [] else [(i, func)]) ++ present_slots (i + 1) fs'
  end.

(** The name printed for a slot whose cell of [funcs] holds [name_rva]:
    "<by ordinal>" for zero, otherwise the string at that RVA. *)
Definition entry_name (f : pe_file) (name_rva : Z) (name : export_name) : Prop :=
  if name_rva =? 0 then name = by_ordinal
  else exists s, string_arg f (RVA f name_rva 4) = Done s /\ name = by_name s.

(** The number of characters of a line of [dump_string_data]. *)
Definition line_chars (l : string_line) : nat :=
  match l with StringEntry _ str => length str end.

(** The line that starts the dump of a runtime function. *)
Definition is_function_header (l : unwind_line) : bool :=
  match l with UnwindFunction _ _ => true | _ => false end.

(** The number of runtime functions dumped in [lines]. *)
Definition function_headers (lines : list unwind_line) : nat :=
  length (filter (fun l => is_function_header l = true) lines).

(** ** The lines of a thunk table

    What [dump_image_thunk_data64] and [dump_image_thunk_data32] show for
    the thunk [t]: [rva] is the address the name is looked up at and
    [data] the address printed. *)
Definition thunk_shown (f : pe_file) (by_ordinal : bool) (t rva data : Z)
    (line : import_line) : Prop :=
  if by_ordinal then line = ThunkByOrdinal (Z.land t 0xffff)
  else
    match RVA f rva 4 with
    | None => line = CantGrabImportByName
    | Some p =>
        exists Hint Name,
          rd16 f p = Some Hint /\ rd_string f (p + 2) = Some Name /\
          line = ThunkByName Hint Name data
    end.

(** The name of the thunk at [rva], if the thunk resolves, ends inside the
    file. *)
Definition name_readable (f : pe_file) (rva : Z) : Prop :=
  forall p, RVA f rva 4 = Some p -> is_Some (rd_string f (p + 2)).

(** ** Further inputs *)

(** The bytes of a text. *)
Definition text_bytes (s : string) : list byte := list_byte_of_string s.

(** The ten characters A, backslash, newline, 0x01, the digit 7, 0x01, 0xC8,
    the letter a, NUL and the NUL that ends the string. *)
Definition mixed_string : list Z := [65; 92; 10; 1; 55; 1; 200; 97; 0; 0].

(** The same with the WCHAR 0x1234 in front of the letter a. *)
Definition mixed_wide_string : list Z := [65; 92; 10; 1; 55; 1; 200; 0x1234; 97; 0; 0].

(** An empty image on a host whose [unsigned long] has 32 bits, and on one
    where it has 64. *)
Definition on_host (bits : Z) : pe_file :=
  {| ulong_bits := bits; dump_base := []; Magic := 0x20b;
     NumberOfRvaAndSizes := 16; DataDirectory := no_directories; sectHead := [] |}.

(** The name RVAs and name ordinals of [alias_file], which lie at the file
    offsets 52 and 64. *)
Definition alias_name_rvas : list Z := [0x104C; 0x104F; 0x1052].
Definition alias_name_ordinals : list Z := [1; 1; 0].

(** A relocation block whose size field is 4, less than the 8 bytes of its
    own header, followed by a well-formed block. *)
Definition short_size_block : list Z :=
  le32 0x1000 ++ le32 4 ++ le32 0x2000 ++ le32 12 ++ le16 0x3004 ++ le16 0xA100.

(** An exception directory of 30 bytes: two runtime functions, each
    pointing (low bit of UnwindData set) to the other, and 6 more bytes. *)
Definition chained_functions_file : pe_file :=
  image32 (le32s [0x2000; 0x2010; 0x100D] ++ le32s [0x2010; 0x2020; 0x1001]
           ++ [0; 0; 0; 0; 0; 0])
    [flat_section 30] (one_directory IMAGE_FILE_EXCEPTION_DIRECTORY 30).

(** A delay-import directory of one descriptor and the all-zero entry that
    ends it, in an image based at 0x400000.  The descriptor holds virtual
    addresses (bit 0 of grAttrs clear); it imports, from "k.dll", ordinal 1
    and the function "Fn" (hint 7). *)
Definition delay_k_dll : ImgDelayDescr.t :=
  {| ImgDelayDescr.grAttrs := 0; ImgDelayDescr.szName := 0x40104C;
     ImgDelayDescr.phmod := 0; ImgDelayDescr.pIAT := 0x401040;
     ImgDelayDescr.pINT := 0x401040; ImgDelayDescr.pBoundIAT := 0;
     ImgDelayDescr.pUnloadIAT := 0; ImgDelayDescr.dwTimeStamp := 0 |}.

Definition delay_zero : ImgDelayDescr.t :=
  {| ImgDelayDescr.grAttrs := 0; ImgDelayDescr.szName := 0;
     ImgDelayDescr.phmod := 0; ImgDelayDescr.pIAT := 0;
     ImgDelayDescr.pINT := 0; ImgDelayDescr.pBoundIAT := 0;
     ImgDelayDescr.pUnloadIAT := 0; ImgDelayDescr.dwTimeStamp := 0 |}.

Definition delay_import_file : pe_file :=
  image32 (le32s [0; 0x40104C; 0; 0x401040; 0x401040; 0; 0; 0]
           ++ le32s [0; 0; 0; 0; 0; 0; 0; 0]
           ++ le32s [0x80000001; 0x401054; 0]
           ++ asciiz "k.dll" ++ [0; 0]
           ++ le16 7 ++ asciiz "Fn")
    [flat_section 89] (one_directory IMAGE_DIRECTORY_ENTRY_DELAY_IMPORT 64).
(** * Properties *)

(** ** Machine integers *)

Lemma wrap_range bits x : 0 <= bits -> 0 <= wrap bits x < 2 ^ bits.
Proof. intros Hb. unfold wrap. apply Z.mod_pos_bound. lia. Qed.

Lemma wrap_small bits x : 0 <= x < 2 ^ bits -> wrap bits x = x.
Proof. intros Hx. unfold wrap. apply Z.mod_small. exact Hx. Qed.

Lemma wrap_sub_l bits x y : wrap bits (wrap bits x - y) = wrap bits (x - y).
Proof. unfold wrap. apply Zminus_mod_idemp_l. Qed.

(** One step of a run: a load that succeeded, a bind on a result. *)
Tactic Notation "run" := cbn [load mbind outcome_bind].
Tactic Notation "run" "in" hyp(H) := cbn [load mbind outcome_bind] in H.

(** ** RVA *)

Lemma RVA_scan_none f rva len n :
  (forall i s, (i < n)%nat -> sectHead f !! i = Some s -> ~ section_holds f s rva len) ->
  RVA_scan f rva len n = None.
Proof.
  induction n as [|n IH]; intros Hno; [reflexivity|].
  simpl. destruct (sectHead f !! n) as [s|] eqn:Hs; [|reflexivity].
  destruct (VirtualAddress s <=? rva) eqn:H1;
    destruct (ulong f (rva + len) <=? DWORD (VirtualAddress s + SizeOfRawData s)) eqn:H2;
    simpl; try (apply IH; intros i s' Hi; apply Hno; lia).
  exfalso. apply (Hno n s); [lia|exact Hs|]. split; lia.
Qed.

Lemma RVA_scan_hit f rva len n i s :
  (n <= NumberOfSections f)%nat ->
  (i < n)%nat ->
  sectHead f !! i = Some s ->
  section_holds f s rva len ->
  (forall j s', (i < j < n)%nat -> sectHead f !! j = Some s' -> ~ section_holds f s' rva len) ->
  RVA_scan f rva len n = PRD f (file_offset f s rva) len.
Proof.
  unfold NumberOfSections.
  induction n as [|n IH]; intros Hn Hi Hs Hm Hlater; [lia|].
  simpl. destruct (decide (i = n)) as [->|Hne].
  - rewrite Hs. destruct Hm as [H1 H2].
    destruct (VirtualAddress s <=? rva) eqn:E1; [|lia].
    destruct (ulong f (rva + len) <=? DWORD (VirtualAddress s + SizeOfRawData s)) eqn:E2; [|lia].
    simpl. unfold file_offset, ulong. rewrite wrap_sub_l. reflexivity.
  - destruct (sectHead f !! n) as [s'|] eqn:Hs'.
    + assert (Hno : ~ section_holds f s' rva len) by (apply (Hlater n); [lia|exact Hs']).
      destruct (VirtualAddress s' <=? rva) eqn:E1;
        destruct (ulong f (rva + len) <=? DWORD (VirtualAddress s' + SizeOfRawData s')) eqn:E2;
        simpl; try (apply IH; [lia|lia|exact Hs|exact Hm|intros j s'' Hj; apply Hlater; lia]).
      exfalso. apply Hno. split; lia.
    + apply lookup_ge_None in Hs'. lia.
Qed.

Lemma section_holds_spec f s rva len :
  0 <= ulong_bits f ->
  0 <= VirtualAddress s + SizeOfRawData s < 2 ^ 32 ->
  0 <= rva + len < 2 ^ ulong_bits f ->
  section_holds f s rva len <-> spec_section_matches s rva len.
Proof.
  intros Hw Hs Hr. unfold section_holds, spec_section_matches, ulong, DWORD.
  rewrite !wrap_small by assumption. reflexivity.
Qed.

(** C1 (as the code has it).  [RVA] gives [None] for address zero and when
    no section passes the test; otherwise the answer is the physical read
    for the section of highest index that passes it, at the offset
    [PointerToRawData + rva - VirtualAddress].  The test is
    [VirtualAddress <= rva] and [rva + len <= VirtualAddress +
    SizeOfRawData] with the left sum taken in [unsigned long] and the right
    sum in [DWORD], that is, modulo 2^32; where neither sum wraps it is the
    test over the integers. *)
Theorem C1_RVA_resolution (f : pe_file) (rva len : Z) :
  (rva = 0 -> RVA f rva len = None) /\
  (rva <> 0 ->
   (forall i s, sectHead f !! i = Some s -> ~ section_holds f s rva len) ->
   RVA f rva len = None) /\
  (rva <> 0 ->
   forall (i : nat) s,
     sectHead f !! i = Some s ->
     section_holds f s rva len ->
     (forall (j : nat) s', (i < j)%nat -> sectHead f !! j = Some s' ->
                           ~ section_holds f s' rva len) ->
     RVA f rva len = PRD f (file_offset f s rva) len) /\
  (forall s,
     0 <= ulong_bits f ->
     0 <= VirtualAddress s + SizeOfRawData s < 2 ^ 32 ->
     0 <= rva + len < 2 ^ ulong_bits f ->
     (section_holds f s rva len <-> spec_section_matches s rva len) /\
     (0 <= spec_file_offset s rva < 2 ^ ulong_bits f ->
      file_offset f s rva = spec_file_offset s rva)).
Proof.
  unfold RVA. split; [|split; [|split]].
  - intros ->. reflexivity.
  - intros Hnz Hno. destruct (rva =? 0) eqn:E; [lia|].
    apply RVA_scan_none. intros i s _. apply Hno.
  - intros Hnz i s Hs Hm Hlater. destruct (rva =? 0) eqn:E; [lia|].
    apply (RVA_scan_hit f rva len _ i s); auto.
    + apply lookup_lt_Some in Hs. exact Hs.
    + intros j s' [Hj _]. apply Hlater. exact Hj.
  - intros s Hw Hs Hr. split.
    + apply section_holds_spec; assumption.
    + intros Ho. unfold file_offset, spec_file_offset, ulong in *.
      replace (PointerToRawData s + rva - VirtualAddress s)
        with (PointerToRawData s + (rva - VirtualAddress s)) by lia.
      apply wrap_small. exact Ho.
Qed.

(** C1 as stated fails: the section matches over the integers and the
    physical read it designates is present, yet [RVA] answers [NULL],
    because the code's right-hand sum wraps to 0x1000. *)
Lemma C1_RVA_wrapping_counterexample :
  spec_section_matches high_section 0xFFFFF000 0x10 /\
  PRD high_section_file (spec_file_offset high_section 0xFFFFF000) 0x10 = Some 0x400 /\
  RVA high_section_file 0xFFFFF000 0x10 = None.
Proof.
  split; [|split].
  - unfold spec_section_matches, high_section; simpl. lia.
  - vm_compute. reflexivity.
  - vm_compute. reflexivity.
Qed.

(** ** String resources *)

Lemma holds16_cons f p w ws :
  holds16 f p (w :: ws) -> rd16 f p = Some w /\ holds16 f (p + 2) ws.
Proof.
  unfold holds16. cbn [length rd16s]. intros H.
  destruct (rd16 f p) as [c|]; [|discriminate]. cbn in H.
  destruct (rd16s f (p + 2) (length ws)) as [cs|]; [|discriminate].
  cbn in H. injection H as -> ->. split; reflexivity.
Qed.

Lemma holds16_app f p a b :
  holds16 f p (a ++ b) ->
  holds16 f p a /\ holds16 f (p + 2 * Z.of_nat (length a)) b.
Proof.
  revert p. induction a as [|w a IH]; intros p H.
  - split; [reflexivity|]. cbn [length]. rewrite Z.mul_0_r, Z.add_0_r. exact H.
  - rewrite <- app_comm_cons in H. apply holds16_cons in H as [Hw H].
    apply IH in H as [Ha Hb]. split.
    + unfold holds16 in *. cbn [length rd16s]. rewrite Hw, Ha. reflexivity.
    + cbn [length].
      replace (p + 2 * Z.of_nat (S (length a)))
        with (p + 2 + 2 * Z.of_nat (length a)) by lia.
      exact Hb.
Qed.

Lemma rd16s_holds f p ws : holds16 f p ws -> rd16s f p (length ws) = Some ws.
Proof. intros H. exact H. Qed.

Lemma string_slots_block f id strs : forall i p size,
  Z.of_nat (length (string_block strs)) < size ->
  holds16 f p (string_block strs) ->
  string_slots f id (length strs) i (Some p) size
  = Done (string_table (fun k => DWORD (spec_string_id id k)) i strs).
Proof.
  induction strs as [|s strs IH]; intros i p size Hsize Hmem; [reflexivity|].
  cbn [string_block flat_map] in Hsize, Hmem.
  change (flat_map _ strs) with (string_block strs) in Hsize, Hmem.
  rewrite <- app_comm_cons in Hsize, Hmem.
  apply holds16_cons in Hmem as [Hlen Hmem].
  apply holds16_app in Hmem as [Hs Hrest].
  cbn [length] in Hsize. rewrite length_app in Hsize.
  cbn [length string_slots string_table].
  destruct (size =? 0) eqn:E0; [lia|].
  run. rewrite Hlen. run.
  destruct (size <=? Z.of_nat (length s)) eqn:E1; [lia|].
  destruct (decide (s = [])) as [->|Hne].
  - cbn [length negb Z.eqb Z.of_nat]. simpl negb. cbv iota.
    rewrite IH; [reflexivity| cbn [length] in *; lia |].
    cbn [length] in Hrest. rewrite Z.mul_0_r, Z.add_0_r in Hrest. exact Hrest.
  - assert (Hpos : (0 < length s)%nat) by (destruct s; [congruence|simpl; lia]).
    destruct (Z.of_nat (length s) =? 0) eqn:E2; [lia|]. cbn [negb].
    rewrite Nat2Z.id, (rd16s_holds _ _ _ Hs). run.
    rewrite IH; [reflexivity|lia|exact Hrest].
Qed.

Lemma string_table_ext g h k strs :
  (forall j, k <= j < k + Z.of_nat (length strs) -> g j = h j) ->
  string_table g k strs = string_table h k strs.
Proof.
  revert k. induction strs as [|s strs IH]; intros k Hgh; [reflexivity|].
  cbn [length] in Hgh. simpl. rewrite (Hgh k) by lia. f_equal.
  apply IH. intros j Hj. apply Hgh. lia.
Qed.

(** C9.  For a leaf holding the 16 length-prefixed strings [strs], with
    [size] larger than the number of 16-bit words they take,
    [dump_string_data] prints exactly the non-empty strings, the one at
    slot [k] under [(id - 1) * 16 + k] (an [unsigned int], hence taken
    modulo 2^32; for the identifiers a resource directory can hold, 1 to
    65535, that is the number itself). *)
Theorem C9_string_table_ids (f : pe_file) (p size id : Z) (strs : list (list Z)) :
  length strs = 16%nat ->
  Z.of_nat (length (string_block strs)) < size ->
  holds16 f p (string_block strs) ->
  dump_string_data f (Some p) size id
  = Done (string_table (fun k => DWORD (spec_string_id id k)) 0 strs) /\
  (1 <= id <= 65535 ->
   dump_string_data f (Some p) size id
   = Done (string_table (spec_string_id id) 0 strs)).
Proof.
  intros Hlen Hsize Hmem. unfold dump_string_data.
  pose proof (string_slots_block f id strs 0 p size Hsize Hmem) as H.
  rewrite Hlen in H. split; [exact H|].
  intros Hid. rewrite H. f_equal. apply string_table_ext.
  intros j Hj. rewrite Hlen in Hj. unfold DWORD, spec_string_id.
  apply wrap_small. lia.
Qed.

Lemma C9_string_table_ids_witness :
  dump_string_data hi_abc_file (Some 0) 42 2
  = Done [StringEntry 16 [72; 105]; StringEntry 21 [97; 98; 99]].
Proof.
  refine (proj2 (C9_string_table_ids hi_abc_file 0 42 2 hi_abc_strings _ _ _) _).
  - reflexivity.
  - vm_compute. reflexivity.
  - vm_compute. reflexivity.
  - lia.
Defined.

(** ** Reading the file *)

Lemma byte_value_range b : 0 <= byte_value b < 256.
Proof. unfold byte_value. pose proof (Byte.to_N_bounded b). lia. Qed.

Lemma rd8_range f p v : rd8 f p = Some v -> 0 <= v < 256.
Proof.
  unfold rd8. destruct (p <? 0); [discriminate|].
  destruct (dump_base f !! Z.to_nat p) as [b|]; [|discriminate].
  cbn. intros [= <-]. apply byte_value_range.
Qed.

Lemma rd16_range f p v : rd16 f p = Some v -> 0 <= v < 65536.
Proof.
  unfold rd16. destruct (rd8 f p) as [lo|] eqn:Hlo; [|discriminate].
  destruct (rd8 f (p + 1)) as [hi|] eqn:Hhi; [|discriminate].
  cbn. intros [= <-]. apply rd8_range in Hlo, Hhi. lia.
Qed.

Lemma rd32_range f p v : rd32 f p = Some v -> 0 <= v < 4294967296.
Proof.
  unfold rd32. destruct (rd16 f p) as [lo|] eqn:Hlo; [|discriminate].
  destruct (rd16 f (p + 2)) as [hi|] eqn:Hhi; [|discriminate].
  cbn. intros [= <-]. apply rd16_range in Hlo, Hhi. lia.
Qed.

(** ** Base relocations *)

Lemma reloc_type_name w :
  0 <= w < 65536 ->
  fetch reloc_names (Z.shiftr w 12)
  = Done (default EmptyString (reloc_names !! Z.to_nat (w / 4096))).
Proof.
  intros Hw. rewrite Z.shiftr_div_pow2 by lia. change (2 ^ 12) with 4096.
  assert (Ht : 0 <= w / 4096 < 16).
  { split; [apply Z.div_pos; lia|apply Z.div_lt_upper_bound; lia]. }
  unfold fetch. destruct (w / 4096 <? 0) eqn:E; [lia|].
  destruct (reloc_names !! Z.to_nat (w / 4096)) as [name|] eqn:Hn; [reflexivity|].
  apply lookup_ge_None in Hn. simpl in Hn. lia.
Qed.

Lemma reloc_offset w : 0 <= w -> Z.land w 0xfff = w mod 4096.
Proof. intros Hw. change 0xfff with (Z.ones 12). rewrite Z.land_ones by lia. reflexivity. Qed.

Lemma reloc_entries_holds f entries : forall relocs,
  holds16 f relocs entries ->
  reloc_entries f relocs (length entries)
  = Done (reloc_entry_line <$> entries, relocs + 2 * Z.of_nat (length entries)).
Proof.
  induction entries as [|w ws IH]; intros relocs H.
  - simpl. rewrite Z.add_0_r. reflexivity.
  - apply holds16_cons in H as [Hw Hws].
    cbn [length reloc_entries]. rewrite Hw. run.
    apply rd16_range in Hw. rewrite reloc_type_name by exact Hw.
    cbn [mbind outcome_bind]. rewrite (IH _ Hws). cbn [mbind outcome_bind].
    rewrite reloc_offset by lia. rewrite fmap_cons. unfold reloc_entry_line at 2.
    do 2 f_equal. lia.
Qed.

Lemma reloc_entries_done f n : forall relocs lines relocs',
  reloc_entries f relocs n = Done (lines, relocs') ->
  exists entries,
    length entries = n /\ holds16 f relocs entries /\
    lines = reloc_entry_line <$> entries /\
    relocs' = relocs + 2 * Z.of_nat n.
Proof.
  induction n as [|n IH]; intros relocs lines relocs' H.
  - injection H as <- <-. exists []. repeat split. lia.
  - cbn [reloc_entries] in H.
    destruct (rd16 f relocs) as [w|] eqn:Hw; [|discriminate].
    run in H.
    pose proof (rd16_range _ _ _ Hw) as Hr.
    rewrite reloc_type_name in H by exact Hr. cbn [mbind outcome_bind] in H.
    destruct (reloc_entries f (relocs + 2) n) as [[rest r]| | |] eqn:Hrest;
      try discriminate.
    cbn [mbind outcome_bind] in H. injection H as <- <-.
    destruct (IH _ _ _ Hrest) as (ws & Hlen & Hws & -> & ->).
    exists (w :: ws). split; [simpl; lia|]. split; [|split].
    + unfold holds16 in *. cbn [length rd16s]. rewrite Hw, Hws. reflexivity.
    + rewrite fmap_cons. f_equal. unfold reloc_entry_line.
      rewrite reloc_offset by lia. reflexivity.
    + lia.
Qed.

Lemma reloc_blocks_walk f end_ fuel : forall rel lines,
  reloc_blocks f end_ fuel rel = Done lines -> reloc_walk f end_ rel lines.
Proof.
  induction fuel as [|fuel IH]; intros rel lines H; [discriminate|].
  cbn [reloc_blocks] in H.
  destruct (rel <? end_ - IMAGE_BASE_RELOCATION.size) eqn:Hroom.
  - destruct (IMAGE_BASE_RELOCATION.SizeOfBlock f rel) as [sz|] eqn:Hsz; [|discriminate].
    run in H.
    destruct (sz =? 0) eqn:Hz.
    + injection H as <-. apply walk_empty_block; [lia|].
      rewrite Hsz. f_equal. lia.
    + destruct (IMAGE_BASE_RELOCATION.VirtualAddress f rel) as [va|] eqn:Hva;
        [|discriminate].
      run in H.
      destruct (reloc_entries f (rel + IMAGE_BASE_RELOCATION.size)
                  (Z.to_nat (DWORD (ulong f (sz - IMAGE_BASE_RELOCATION.size) / 2))))
        as [[entry_lines relocs]| | |] eqn:He; try discriminate.
      cbn [mbind outcome_bind] in H.
      destruct (reloc_blocks f end_ fuel relocs) as [rest| | |] eqn:Hrest;
        try discriminate.
      cbn [mbind outcome_bind] in H. injection H as <-.
      destruct (reloc_entries_done _ _ _ _ _ He) as (entries & Hlen & Hmem & -> & ->).
      assert (Hcount : 0 <= DWORD (ulong f (sz - IMAGE_BASE_RELOCATION.size) / 2)).
      { apply wrap_range. lia. }
      eapply walk_block; eauto.
      * lia.
      * lia.
      * lia.
      * apply IH. rewrite Hlen. exact Hrest.
  - injection H as <-. apply walk_no_room. lia.
Qed.

Lemma reloc_walk_blocks f end_ rel lines :
  reloc_walk f end_ rel lines ->
  forall fuel, (1 <= fuel)%nat -> end_ - rel <= 8 * Z.of_nat fuel ->
  reloc_blocks f end_ fuel rel = Done lines.
Proof.
  unfold IMAGE_BASE_RELOCATION.size.
  induction 1 as [rel Hroom|rel Hroom Hsz
                  |rel sz va entries rest Hroom Hsz Hnz Hva Hcount Hmem Hrest IH];
    intros [|fuel] Hfuel Hmeasure; try lia; cbn [reloc_blocks];
    unfold IMAGE_BASE_RELOCATION.size in *.
  - destruct (rel <? end_ - 8) eqn:E; [lia|reflexivity].
  - destruct (rel <? end_ - 8) eqn:E; [|lia].
    rewrite Hsz. reflexivity.
  - destruct (rel <? end_ - 8) eqn:E; [|lia].
    rewrite Hsz. run.
    destruct (sz =? 0) eqn:Ez; [lia|].
    rewrite Hva. run.
    rewrite <- Hcount, Nat2Z.id, (reloc_entries_holds _ _ _ Hmem).
    cbn [mbind outcome_bind].
    rewrite IH; [reflexivity|lia|lia].
Qed.

Lemma reloc_entries_fuel f n : forall relocs, reloc_entries f relocs n <> OutOfFuel.
Proof.
  induction n as [|n IH]; intros relocs; [discriminate|].
  cbn [reloc_entries]. destruct (rd16 f relocs) as [w|]; [|discriminate].
  run. unfold fetch.
  destruct (Z.shiftr w 12 <? 0); [discriminate|].
  destruct (reloc_names !! Z.to_nat (Z.shiftr w 12)); [|discriminate].
  run. specialize (IH (relocs + 2)).
  destruct (reloc_entries f (relocs + 2) n) as [[rest r]| | |];
    [discriminate|discriminate|discriminate|congruence].
Qed.

Lemma reloc_blocks_fuel f end_ fuel : forall rel,
  (1 <= fuel)%nat -> end_ - rel <= 8 * Z.of_nat fuel ->
  reloc_blocks f end_ fuel rel <> OutOfFuel.
Proof.
  induction fuel as [|fuel IH]; intros rel Hfuel Hmeasure; [lia|].
  cbn [reloc_blocks]. unfold IMAGE_BASE_RELOCATION.size in *.
  destruct (rel <? end_ - 8) eqn:E; [|discriminate].
  destruct (IMAGE_BASE_RELOCATION.SizeOfBlock f rel) as [sz|]; [|discriminate].
  run. destruct (sz =? 0); [discriminate|].
  destruct (IMAGE_BASE_RELOCATION.VirtualAddress f rel) as [va|]; [|discriminate].
  run.
  pose proof (reloc_entries_fuel f (Z.to_nat (DWORD (ulong f (sz - 8) / 2))) (rel + 8))
    as Hentries.
  destruct (reloc_entries f (rel + 8) (Z.to_nat (DWORD (ulong f (sz - 8) / 2))))
    as [[entry_lines relocs]| | |] eqn:He; try discriminate; [|congruence].
  cbn [mbind outcome_bind].
  apply reloc_entries_done in He as (entries & Hlen & _ & _ & ->).
  specialize (IH (rel + 8 + 2 * Z.of_nat (Z.to_nat (DWORD (ulong f (sz - 8) / 2))))).
  destruct (reloc_blocks f end_ fuel _) as [rest| | |]; try discriminate.
  exfalso. apply IH; [lia|lia|reflexivity].
Qed.

(** C4 (as the code has it).  Each 16-bit entry is printed with its low 12
    bits as offset and the name the 16-entry table gives its top 4 bits, so
    type 3 is BASED_HIGHLOW and type 10 is BASED_DIR64.  The walk over the
    blocks always ends, and what it prints is what [reloc_walk] describes:
    it stops when no more than one block header (8 bytes) is left before
    the end of the directory, or at a block whose SizeOfBlock is zero. *)
Theorem C4_reloc_walk (f : pe_file) (rel size : Z) :
  get_dir_and_size f IMAGE_DIRECTORY_ENTRY_BASERELOC 0 = (Some rel, size) ->
  dump_dir_reloc f <> OutOfFuel /\
  (forall out,
     dump_dir_reloc f = Done out <->
     exists lines,
       out = Relocations :: lines ++ [RelocBlankLine] /\
       reloc_walk f (rel + size) rel lines) /\
  (forall offset,
     0 <= offset < 4096 ->
     reloc_entry_line (3 * 4096 + offset) = RelocEntry offset "BASED_HIGHLOW" /\
     reloc_entry_line (10 * 4096 + offset) = RelocEntry offset "BASED_DIR64").
Proof.
  intros Hdir. unfold dump_dir_reloc. rewrite Hdir.
  assert (Hfuel : (rel + size) - rel <= 8 * Z.of_nat (S (Z.to_nat size))) by lia.
  split; [|split].
  - pose proof (reloc_blocks_fuel f (rel + size) (S (Z.to_nat size)) rel) as H.
    destruct (reloc_blocks f (rel + size) (S (Z.to_nat size)) rel);
      try discriminate.
    exfalso. apply H; [lia|exact Hfuel|reflexivity].
  - intros out. split.
    + destruct (reloc_blocks f (rel + size) (S (Z.to_nat size)) rel)
        as [lines| | |] eqn:Hb; try discriminate.
      cbn [mbind outcome_bind]. intros [= <-]. exists lines. split; [reflexivity|].
      eapply reloc_blocks_walk. exact Hb.
    + intros (lines & -> & Hwalk).
      rewrite (reloc_walk_blocks _ _ _ _ Hwalk); [reflexivity|lia|exact Hfuel].
  - intros offset Ho. unfold reloc_entry_line.
    rewrite !(Z.add_comm _ offset), !Z.mod_add, !Z.div_add by lia.
    rewrite Z.mod_small, Z.div_small by lia. split; reflexivity.
Qed.

Lemma C4_reloc_walk_witness :
  exists lines,
    [Relocations; RelocPage 0x1000; RelocEntry 4 "BASED_HIGHLOW";
     RelocEntry 0x100 "BASED_DIR64"; RelocBlankLine]
    = Relocations :: lines ++ [RelocBlankLine] /\
    reloc_walk (reloc_file two_entry_block) (0 + 12) 0 lines.
Proof.
  refine (proj1 (proj1 (proj2 (C4_reloc_walk (reloc_file two_entry_block) 0 12 _)) _) _).
  - vm_compute. reflexivity.
  - vm_compute. reflexivity.
Defined.

(** C4 as stated fails.  In the first directory 20 bytes are left at the
    first block, whose size field is zero; in the second exactly one block
    header is left.  In both there is room for a block header, and the
    walker stops without printing a block. *)
Lemma C4_reloc_stop_counterexample :
  (get_dir_and_size (reloc_file zero_size_block) IMAGE_DIRECTORY_ENTRY_BASERELOC 0
   = (Some 0, 20) /\
   spec_room_for_header 20 /\
   dump_dir_reloc (reloc_file zero_size_block) = Done [Relocations; RelocBlankLine]) /\
  (get_dir_and_size (reloc_file header_only_block) IMAGE_DIRECTORY_ENTRY_BASERELOC 0
   = (Some 0, 8) /\
   spec_room_for_header 8 /\
   dump_dir_reloc (reloc_file header_only_block) = Done [Relocations; RelocBlankLine]).
Proof.
  unfold spec_room_for_header, IMAGE_BASE_RELOCATION.size.
  repeat split; try lia; vm_compute; reflexivity.
Qed.

Lemma rd8_in_file f p : 0 <= p < dump_total_len f -> exists v, rd8 f p = Some v.
Proof.
  unfold dump_total_len, rd8. intros Hp. destruct (p <? 0) eqn:E; [lia|].
  destruct (lookup_lt_is_Some_2 (dump_base f) (Z.to_nat p)) as [b Hb]; [lia|].
  rewrite Hb. eexists. reflexivity.
Qed.

Lemma rd16_in_file f p : 0 <= p -> p + 2 <= dump_total_len f -> exists v, rd16 f p = Some v.
Proof.
  intros H0 H1. unfold rd16.
  destruct (rd8_in_file f p) as [lo ->]; [lia|].
  destruct (rd8_in_file f (p + 1)) as [hi ->]; [lia|].
  eexists. reflexivity.
Qed.

Lemma rd32_in_file f p : 0 <= p -> p + 4 <= dump_total_len f -> exists v, rd32 f p = Some v.
Proof.
  intros H0 H1. unfold rd32.
  destruct (rd16_in_file f p) as [lo ->]; [lia|lia|].
  destruct (rd16_in_file f (p + 2)) as [hi ->]; [lia|lia|].
  eexists. reflexivity.
Qed.

(** ** x86-64 unwind data *)

Lemma unwind_opcode_slots f info frame_reg frame_offset i offset code opinfo :
  opcode.offset f (unwind_info.opcodes info i) = Some offset ->
  opcode.code f (unwind_info.opcodes info i) = Some code ->
  opcode.info f (unwind_info.opcodes info i) = Some opinfo ->
  slots_in_file f info i (documented_slots code opinfo) ->
  exists op,
    unwind_opcode f info frame_reg frame_offset i
    = Done (UnwindCode offset op, i + documented_slots code opinfo - 1).
Proof.
  intros Ho Hc Hi [Hlow Hhigh]. unfold unwind_opcode.
  rewrite Ho, Hc, Hi. run.
  unfold documented_slots, unwind_info.opcodes in *.
  unfold UWOP_PUSH_NONVOL, UWOP_ALLOC_LARGE, UWOP_ALLOC_SMALL, UWOP_SET_FPREG,
    UWOP_SAVE_NONVOL, UWOP_SAVE_NONVOL_FAR, UWOP_SAVE_XMM128, UWOP_SAVE_XMM128_FAR,
    UWOP_PUSH_MACHFRAME in *.
  destruct (code =? 0) eqn:E0; [eexists; repeat f_equal; lia|].
  destruct (code =? 1) eqn:E1.
  { destruct (code =? 2) eqn:E2; [lia|].
    destruct (opinfo =? 0) eqn:Ei; cbn [negb].
    - destruct (rd16_in_file f (info + 4 + 2 * (i + 1))) as [v ->]; [lia|lia|].
      eexists. run. repeat f_equal. lia.
    - destruct (rd32_in_file f (info + 4 + 2 * (i + 1))) as [v ->]; [lia|lia|].
      eexists. run. repeat f_equal. lia. }
  destruct (code =? 2) eqn:E2; [eexists; repeat f_equal; lia|].
  destruct (code =? 3) eqn:E3.
  { destruct (code =? 4) eqn:E4; [lia|]. destruct (code =? 8) eqn:E8; [lia|].
    destruct (code =? 5) eqn:E5; [lia|]. destruct (code =? 9) eqn:E9; [lia|].
    eexists; repeat f_equal; lia. }
  destruct (code =? 4) eqn:E4.
  { destruct (rd16_in_file f (info + 4 + 2 * (i + 1))) as [v ->]; [lia|lia|].
    eexists. run. repeat f_equal. lia. }
  destruct (code =? 5) eqn:E5.
  { destruct (code =? 8) eqn:E8; [lia|].
    destruct (rd32_in_file f (info + 4 + 2 * (i + 1))) as [v ->]; [lia|lia|].
    eexists. run. repeat f_equal. lia. }
  destruct (code =? 8) eqn:E8.
  { destruct (rd16_in_file f (info + 4 + 2 * (i + 1))) as [v ->]; [lia|lia|].
    eexists. run. repeat f_equal. lia. }
  destruct (code =? 9) eqn:E9.
  { destruct (rd32_in_file f (info + 4 + 2 * (i + 1))) as [v ->]; [lia|lia|].
    eexists. run. repeat f_equal. lia. }
  destruct (code =? 10) eqn:E10; eexists; repeat f_equal; lia.
Qed.

Lemma unwind_opcode_advance f info frame_reg frame_offset i line i' :
  unwind_opcode f info frame_reg frame_offset i = Done (line, i') ->
  exists code opinfo,
    opcode.code f (unwind_info.opcodes info i) = Some code /\
    opcode.info f (unwind_info.opcodes info i) = Some opinfo /\
    i' + 1 = i + documented_slots code opinfo.
Proof.
  unfold unwind_opcode.
  destruct (opcode.offset f (unwind_info.opcodes info i)) as [offset|]; [|discriminate].
  destruct (opcode.code f (unwind_info.opcodes info i)) as [code|]; [|discriminate].
  destruct (opcode.info f (unwind_info.opcodes info i)) as [opinfo|]; [|discriminate].
  run. intros H. exists code, opinfo.
  split; [reflexivity|]. split; [reflexivity|]. revert H.
  unfold documented_slots.
  unfold UWOP_PUSH_NONVOL, UWOP_ALLOC_LARGE, UWOP_ALLOC_SMALL, UWOP_SET_FPREG,
    UWOP_SAVE_NONVOL, UWOP_SAVE_NONVOL_FAR, UWOP_SAVE_XMM128, UWOP_SAVE_XMM128_FAR,
    UWOP_PUSH_MACHFRAME.
  destruct (code =? 0) eqn:E0; [intros [= _ <-]; lia|].
  destruct (code =? 1) eqn:E1.
  { destruct (code =? 2) eqn:E2; [lia|]. destruct (opinfo =? 0); cbn [negb].
    - destruct (rd16 f _); [|discriminate]. intros [= _ <-]. lia.
    - destruct (rd32 f _); [|discriminate]. intros [= _ <-]. lia. }
  destruct (code =? 2) eqn:E2; [intros [= _ <-]; lia|].
  destruct (code =? 3) eqn:E3.
  { destruct (code =? 4) eqn:E4; [lia|]. destruct (code =? 8) eqn:E8; [lia|].
    destruct (code =? 5) eqn:E5; [lia|]. destruct (code =? 9) eqn:E9; [lia|].
    intros [= _ <-]; lia. }
  destruct (code =? 4) eqn:E4.
  { destruct (rd16 f _); [|discriminate]. intros [= _ <-]. lia. }
  destruct (code =? 5) eqn:E5.
  { destruct (code =? 8) eqn:E8; [lia|].
    destruct (rd32 f _); [|discriminate]. intros [= _ <-]. lia. }
  destruct (code =? 8) eqn:E8.
  { destruct (rd16 f _); [|discriminate]. intros [= _ <-]. lia. }
  destruct (code =? 9) eqn:E9.
  { destruct (rd32 f _); [|discriminate]. intros [= _ <-]. lia. }
  destruct (code =? 10) eqn:E10; intros [= _ <-]; lia.
Qed.

Lemma documented_slots_pos code opinfo : 1 <= documented_slots code opinfo <= 3.
Proof.
  unfold documented_slots.
  repeat match goal with |- context [if ?c then _ else _] => destruct c end; lia.
Qed.

Lemma unwind_opcode_fuel f info frame_reg frame_offset i :
  unwind_opcode f info frame_reg frame_offset i <> OutOfFuel.
Proof.
  unfold unwind_opcode.
  repeat match goal with
         | |- context [load ?o] => destruct o; run
         | |- context [if ?c then _ else _] => destruct c
         end; discriminate.
Qed.

Lemma unwind_opcodes_fuel f info count frame_reg frame_offset fuel : forall i,
  count - i < Z.of_nat fuel -> (1 <= fuel)%nat ->
  unwind_opcodes f info count frame_reg frame_offset fuel i <> OutOfFuel.
Proof.
  induction fuel as [|fuel IH]; intros i Hm Hf; [lia|].
  cbn [unwind_opcodes]. destruct (i <? count) eqn:E; [|discriminate].
  pose proof (unwind_opcode_fuel f info frame_reg frame_offset i) as Hop.
  destruct (unwind_opcode f info frame_reg frame_offset i) as [[line i']| | |] eqn:Hstep;
    try discriminate; [|congruence].
  cbn [mbind outcome_bind].
  apply unwind_opcode_advance in Hstep as (code & opinfo & _ & _ & Hadv).
  pose proof (documented_slots_pos code opinfo).
  specialize (IH (i' + 1)).
  destruct (unwind_opcodes f info count frame_reg frame_offset fuel (i' + 1));
    try discriminate.
  exfalso. apply IH; [lia|lia|reflexivity].
Qed.

(** C5.  For a runtime function whose unwind data is an unwind-info record
    (low bit clear) that resolves: a version other than 1 is reported and
    nothing more is decoded; with version 1 the opcode loop runs from slot
    0, always ends, and after decoding the opcode at slot [i] continues at
    slot [i + documented_slots code info]. *)
Theorem C5_unwind_slots (f : pe_file) (function b e UnwindData info version : Z) :
  runtime_function.BeginAddress f function = Some b ->
  runtime_function.EndAddress f function = Some e ->
  runtime_function.UnwindData f function = Some UnwindData ->
  Z.testbit UnwindData 0 = false ->
  RVA f UnwindData unwind_info.size = Some info ->
  unwind_info.version f info = Some version ->
  (version <> 1 ->
   dump_x86_64_unwind_info f function
   = Done [UnwindFunction b e; UnwindInfoAt UnwindData; UnwindUnknownVersion version]) /\
  (version = 1 ->
   forall flags prolog frame_reg frame_offset count,
     unwind_info.flags f info = Some flags ->
     unwind_info.prolog f info = Some prolog ->
     unwind_info.frame_reg f info = Some frame_reg ->
     unwind_info.frame_offset f info = Some frame_offset ->
     unwind_info.count f info = Some count ->
     dump_x86_64_unwind_info f function
     = (codes ← unwind_opcodes f info count frame_reg frame_offset (S (Z.to_nat count)) 0;
        tail ← unwind_handler_data f UnwindData info flags count;
        Done (UnwindFunction b e :: UnwindInfoAt UnwindData :: UnwindFlags flags prolog
                :: unwind_frame frame_reg frame_offset ++ codes ++ tail)) /\
     unwind_opcodes f info count frame_reg frame_offset (S (Z.to_nat count)) 0
     <> OutOfFuel /\
     (forall fuel i, count <= i ->
        unwind_opcodes f info count frame_reg frame_offset (S fuel) i = Done []) /\
     (forall fuel i offset code opinfo,
        i < count ->
        opcode.offset f (unwind_info.opcodes info i) = Some offset ->
        opcode.code f (unwind_info.opcodes info i) = Some code ->
        opcode.info f (unwind_info.opcodes info i) = Some opinfo ->
        slots_in_file f info i (documented_slots code opinfo) ->
        exists op,
          unwind_opcodes f info count frame_reg frame_offset (S fuel) i
          = (rest ← unwind_opcodes f info count frame_reg frame_offset fuel
                      (i + documented_slots code opinfo);
             Done (UnwindCode offset op :: rest)))).
Proof.
  intros Hb He Hu Hbit Hinfo Hv. unfold dump_x86_64_unwind_info.
  rewrite Hb, He, Hu. run. rewrite Hbit, Hinfo.
  run. rewrite Hv. run.
  split.
  - intros Hne. destruct (version =? 1) eqn:E; [lia|]. reflexivity.
  - intros -> flags prolog frame_reg frame_offset count Hfl Hp Hfr Hfo Hc.
    cbn [Z.eqb Pos.eqb negb]. rewrite Hfl, Hp, Hfr, Hfo, Hc.
    run. split; [reflexivity|]. split; [|split].
    + apply unwind_opcodes_fuel; lia.
    + intros fuel i Hi. cbn [unwind_opcodes].
      destruct (i <? count) eqn:E; [lia|reflexivity].
    + intros fuel i offset code opinfo Hi Ho Hcode Hopinfo Hslots.
      destruct (unwind_opcode_slots f info frame_reg frame_offset i offset code opinfo
                  Ho Hcode Hopinfo Hslots) as [op Hop].
      exists op. cbn [unwind_opcodes]. destruct (i <? count) eqn:E; [|lia].
      rewrite Hop. cbn [mbind outcome_bind].
      replace (i + documented_slots code opinfo - 1 + 1)
        with (i + documented_slots code opinfo) by lia.
      reflexivity.
Qed.

Lemma C5_unwind_slots_witness :
  exists op,
    unwind_opcodes unwind_file 12 4 5 0 5 0
    = (rest ← unwind_opcodes unwind_file 12 4 5 0 4 (0 + documented_slots 1 0);
       Done (UnwindCode 11 op :: rest)).
Proof.
  refine (proj2 (proj2 (proj2
            (proj2 (C5_unwind_slots unwind_file 0 0x2000 0x2050 0x100C 12 1 _ _ _ _ _ _)
               eq_refl 0 11 5 0 4 _ _ _ _ _))) 4%nat 0 11 1 0 _ _ _ _ _);
    try (vm_compute; reflexivity).
  split; vm_compute; discriminate.
Defined.

Example unwind_file_dump :
  dump_x86_64_unwind_info unwind_file 0
  = Done [UnwindFunction 0x2000 0x2050; UnwindInfoAt 0x100C; UnwindFlags 0 11;
          UnwindFrameRegister 5 0;
          UnwindCode 11 (op_sub 128); UnwindCode 4 (op_push 5);
          UnwindCode 1 (op_lea 0 5)].
Proof. vm_compute. reflexivity. Qed.

(** ** Import directory *)

Lemma import_descriptors_stop f pre s post : forall p,
  Forall (fun d => IMAGE_IMPORT_DESCRIPTOR.Name d <> 0 /\
                   IMAGE_IMPORT_DESCRIPTOR.FirstThunk d <> 0) pre ->
  IMAGE_IMPORT_DESCRIPTOR.Name s = 0 \/ IMAGE_IMPORT_DESCRIPTOR.FirstThunk s = 0 ->
  import_descriptors f (pre ++ s :: post) p = processed f pre p.
Proof.
  induction pre as [|d pre IH]; intros p Hpre Hs.
  - cbn [app import_descriptors processed].
    destruct Hs as [-> | ->]; [reflexivity|]. rewrite orb_true_r. reflexivity.
  - inversion Hpre as [|? ? [Hn Ht] Hpre']; subst.
    cbn [app import_descriptors processed].
    destruct (IMAGE_IMPORT_DESCRIPTOR.Name d =? 0) eqn:En; [lia|].
    destruct (IMAGE_IMPORT_DESCRIPTOR.FirstThunk d =? 0) eqn:Et; [lia|].
    cbn [orb]. rewrite (IH _ Hpre' Hs). reflexivity.
Qed.

Lemma import_descriptors_no_stop f ds : forall p,
  Forall (fun d => IMAGE_IMPORT_DESCRIPTOR.Name d <> 0 /\
                   IMAGE_IMPORT_DESCRIPTOR.FirstThunk d <> 0) ds ->
  forall lines, import_descriptors f ds p <> Done lines.
Proof.
  induction ds as [|d ds IH]; intros p Hds lines; [discriminate|].
  inversion Hds as [|? ? [Hn Ht] Hds']; subst. cbn [import_descriptors].
  destruct (IMAGE_IMPORT_DESCRIPTOR.Name d =? 0) eqn:En; [lia|].
  destruct (IMAGE_IMPORT_DESCRIPTOR.FirstThunk d =? 0) eqn:Et; [lia|].
  cbn [orb]. destruct (import_descriptor f d p); try discriminate.
  cbn [mbind outcome_bind].
  specialize (IH (p + IMAGE_IMPORT_DESCRIPTOR.size) Hds').
  destruct (import_descriptors f ds (p + IMAGE_IMPORT_DESCRIPTOR.size)) as [rest| | |];
    try discriminate.
  exfalso. apply (IH rest). reflexivity.
Qed.

(** C3 (as the code has it).  The walk over the import descriptors stops at
    the first one whose Name or FirstThunk field is zero, which an all-zero
    entry is; the descriptors before it are processed in turn, each with
    its module line and its thunk table, and nothing after it is looked at.
    If the file holds no such descriptor the walk does not end well. *)
Theorem C3_import_walk (f : pe_file) (importDesc : Z)
    (pre post : list IMAGE_IMPORT_DESCRIPTOR.t) (s : IMAGE_IMPORT_DESCRIPTOR.t) :
  get_dir f IMAGE_FILE_IMPORT_DIRECTORY = Some importDesc ->
  array_at f IMAGE_IMPORT_DESCRIPTOR.read IMAGE_IMPORT_DESCRIPTOR.size importDesc
  = pre ++ s :: post ->
  Forall (fun d => IMAGE_IMPORT_DESCRIPTOR.Name d <> 0 /\
                   IMAGE_IMPORT_DESCRIPTOR.FirstThunk d <> 0) pre ->
  IMAGE_IMPORT_DESCRIPTOR.Name s = 0 \/ IMAGE_IMPORT_DESCRIPTOR.FirstThunk s = 0 ->
  dump_dir_imported_functions f
  = (lines ← processed f pre importDesc;
     Done (ImportTableSize (directory_size f IMAGE_FILE_IMPORT_DIRECTORY)
             :: lines ++ [ImportBlankLine])) /\
  (forall d, spec_all_zero d = true ->
     IMAGE_IMPORT_DESCRIPTOR.Name d = 0 \/ IMAGE_IMPORT_DESCRIPTOR.FirstThunk d = 0) /\
  (forall ds p lines,
     Forall (fun d => IMAGE_IMPORT_DESCRIPTOR.Name d <> 0 /\
                      IMAGE_IMPORT_DESCRIPTOR.FirstThunk d <> 0) ds ->
     import_descriptors f ds p <> Done lines).
Proof.
  intros Hdir Harr Hpre Hs. split; [|split].
  - unfold dump_dir_imported_functions. rewrite Hdir, Harr.
    rewrite (import_descriptors_stop f pre s post importDesc Hpre Hs). reflexivity.
  - intros d Hz. unfold spec_all_zero in Hz.
    apply andb_prop in Hz as [Hz _]. apply andb_prop in Hz as [_ Hz]. left. lia.
  - intros ds p lines Hds. apply import_descriptors_no_stop. exact Hds.
Qed.

Lemma C3_import_walk_witness :
  dump_dir_imported_functions import_file
  = Done [ImportTableSize 40;
          ImportedModule 0 (Some "k.dll"%string) 0x1028 0 0 0x1028;
          ThunkByOrdinal 1; ThunkByName 7 "Fn" 0x103C; ImportBlankLine;
          ImportBlankLine].
Proof.
  refine (eq_trans
            (proj1 (C3_import_walk import_file 0 [k_dll] _ zero_descriptor _ _ _ _)) _).
  - vm_compute. reflexivity.
  - vm_compute. reflexivity.
  - repeat constructor; discriminate.
  - left. reflexivity.
  - vm_compute. reflexivity.
Defined.

(** C3 as stated fails: the first descriptor of this directory is not
    all-zero and the walk stops at it; the descriptor that follows, in
    front of the all-zero entry, is never processed. *)
Lemma C3_import_stop_counterexample :
  get_dir unbound_import_file IMAGE_FILE_IMPORT_DIRECTORY = Some 0 /\
  take 3 (array_at unbound_import_file IMAGE_IMPORT_DESCRIPTOR.read
            IMAGE_IMPORT_DESCRIPTOR.size 0)
  = [unbound_descriptor; k_dll_second; zero_descriptor] /\
  spec_all_zero unbound_descriptor = false /\
  spec_all_zero k_dll_second = false /\
  spec_all_zero zero_descriptor = true /\
  dump_dir_imported_functions unbound_import_file
  = Done [ImportTableSize 60; ImportBlankLine].
Proof. repeat split; vm_compute; reflexivity. Qed.

(** C8.  For every descriptor the thunk table listed is the one at
    OriginalFirstThunk when that field is not zero, and the one at
    FirstThunk when it is. *)
Theorem C8_thunk_preference (f : pe_file) (d : IMAGE_IMPORT_DESCRIPTOR.t) (p : Z) :
  import_descriptor f d p
  = (name ← string_arg f (RVA f (IMAGE_IMPORT_DESCRIPTOR.Name d) 4);
     thunks ← import_thunks f (RVA f (spec_thunk_rva d) 4);
     Done (ImportedModule p name
             (IMAGE_IMPORT_DESCRIPTOR.OriginalFirstThunk d)
             (IMAGE_IMPORT_DESCRIPTOR.TimeDateStamp d)
             (IMAGE_IMPORT_DESCRIPTOR.ForwarderChain d)
             (IMAGE_IMPORT_DESCRIPTOR.FirstThunk d) :: thunks)) /\
  (IMAGE_IMPORT_DESCRIPTOR.OriginalFirstThunk d <> 0 ->
   spec_thunk_rva d = IMAGE_IMPORT_DESCRIPTOR.OriginalFirstThunk d) /\
  (IMAGE_IMPORT_DESCRIPTOR.OriginalFirstThunk d = 0 ->
   spec_thunk_rva d = IMAGE_IMPORT_DESCRIPTOR.FirstThunk d).
Proof.
  unfold import_descriptor, spec_thunk_rva.
  destruct (decide (IMAGE_IMPORT_DESCRIPTOR.OriginalFirstThunk d = 0)) as [Hz|Hnz].
  - rewrite Hz. cbn [Z.eqb negb]. repeat split; congruence.
  - destruct (IMAGE_IMPORT_DESCRIPTOR.OriginalFirstThunk d =? 0) eqn:E; [lia|].
    cbn [negb]. repeat split; congruence.
Qed.

(** ** The symbol enumerator *)

Lemma to_int_small x : 0 <= x < 2 ^ 31 -> to_int x = x.
Proof. intros Hx. unfold to_int. rewrite Z.mod_small by lia. lia. Qed.

Lemma to_int_large x : 2 ^ 31 <= x < 2 ^ 32 -> to_int x = x - 2 ^ 32.
Proof.
  intros Hx. unfold to_int.
  replace (x + 2 ^ 31) with (x - 2 ^ 31 + 1 * 2 ^ 32) by lia.
  rewrite Z.mod_add by lia. rewrite Z.mod_small by lia. lia.
Qed.

(** C10 (as the code has it).  With no array built ([dll_current_symbol] is
    [NULL], as it is from the start and stays when the image has no export
    directory) and at the cell that ends the array, [dll_next_symbol]
    returns 1 and leaves the pointers and the caller's structure as they
    were; at any other cell it returns 0, stores that cell's name, stores
    its ordinal converted to the type of the structure's member ordinal,
    leaves the other fields alone and moves to the next cell.  With the
    member an [int], what is stored is the ordinal itself when that is
    below 2^31, and the ordinal less 2^32 from there on. *)
Theorem C10_dll_next_symbol {R : Type} (to_ordinal : Z -> Z)
    (st : enumerator) (sym : parsed_symbol R) :
  (dll_current_symbol st = None ->
   dll_next_symbol to_ordinal st sym = Done (1, st, sym)) /\
  (forall a k cell,
     dll_symbols st = Some a -> dll_current_symbol st = Some k -> a !! k = Some cell ->
     (symbol cell = None -> dll_next_symbol to_ordinal st sym = Done (1, st, sym)) /\
     (forall s, symbol cell = Some s ->
        dll_next_symbol to_ordinal st sym
        = Done (0,
                {| dll_symbols := Some a; dll_current_symbol := Some (S k) |},
                {| sym_symbol := Some s; sym_ordinal := to_ordinal (ordinal cell);
                   sym_others := sym_others sym |}) /\
        (0 <= ordinal cell < 2 ^ 31 ->
         dll_next_symbol to_int st sym
         = Done (0,
                 {| dll_symbols := Some a; dll_current_symbol := Some (S k) |},
                 {| sym_symbol := Some s; sym_ordinal := ordinal cell;
                    sym_others := sym_others sym |})) /\
        (2 ^ 31 <= ordinal cell < 2 ^ 32 ->
         dll_next_symbol to_int st sym
         = Done (0,
                 {| dll_symbols := Some a; dll_current_symbol := Some (S k) |},
                 {| sym_symbol := Some s; sym_ordinal := ordinal cell - 2 ^ 32;
                    sym_others := sym_others sym |})))) /\
  (forall qsort g junk f,
     get_dir f IMAGE_FILE_EXPORT_DIRECTORY = None ->
     do_grab_sym qsort g junk f no_symbols = Done no_symbols /\
     dll_next_symbol to_ordinal no_symbols sym = Done (1, no_symbols, sym)).
Proof.
  split; [|split].
  - intros Hc. unfold dll_next_symbol. rewrite Hc. reflexivity.
  - intros a k cell Ha Hk Hcell. unfold dll_next_symbol. rewrite Hk, Ha.
    cbn [mbind option_bind]. rewrite Hcell. run.
    split.
    + intros ->. reflexivity.
    + intros s ->. split; [reflexivity|]. split; intros Hord.
      * rewrite to_int_small by exact Hord. reflexivity.
      * rewrite to_int_large by exact Hord. reflexivity.
  - intros qsort g junk f Hdir. unfold do_grab_sym. rewrite Hdir.
    split; reflexivity.
Qed.

Lemma C10_dll_next_symbol_witness :
  dll_next_symbol to_int
    {| dll_symbols := Some [ {| ordinal := 11; symbol := Some "Named"%string |};
                             {| ordinal := 0xDEAD; symbol := None |} ];
       dll_current_symbol := Some 0%nat |}
    blank_symbol
  = Done (0,
          {| dll_symbols := Some [ {| ordinal := 11; symbol := Some "Named"%string |};
                                   {| ordinal := 0xDEAD; symbol := None |} ];
             dll_current_symbol := Some 1%nat |},
          {| sym_symbol := Some "Named"%string; sym_ordinal := 11; sym_others := tt |}).
Proof.
  match goal with
  | |- dll_next_symbol _ ?st _ = _ =>
      refine (proj1 (proj2 (proj2 (proj1 (proj2 (C10_dll_next_symbol to_int st blank_symbol))
                                     _ 0%nat _ eq_refl eq_refl eq_refl)
                              _ eq_refl)) _)
  end.
  cbn [ordinal]. lia.
Defined.

(** C10 as stated fails where it has the ordinal copied exactly.  The one
    function of this image has ordinal 4294967295, which is what the cell
    of the array holds; the member of the caller's structure is an [int],
    and what [dll_next_symbol] leaves there is -1. *)
Lemma C10_int_ordinal_counterexample :
  do_grab_sym (@qsort dll_symbol) kernel32_globals stale top_ordinal_file no_symbols
  = Done {| dll_symbols := Some [ {| ordinal := 4294967295; symbol := Some "f"%string |};
                                  {| ordinal := 0xDEAD; symbol := None |} ];
            dll_current_symbol := Some 0%nat |} /\
  dll_next_symbol to_int
    {| dll_symbols := Some [ {| ordinal := 4294967295; symbol := Some "f"%string |};
                             {| ordinal := 0xDEAD; symbol := None |} ];
       dll_current_symbol := Some 0%nat |}
    blank_symbol
  = Done (0,
          {| dll_symbols := Some [ {| ordinal := 4294967295; symbol := Some "f"%string |};
                                   {| ordinal := 0xDEAD; symbol := None |} ];
             dll_current_symbol := Some 1%nat |},
          {| sym_symbol := Some "f"%string; sym_ordinal := -1; sym_others := tt |}).
Proof. split; vm_compute; reflexivity. Qed.

(** C2, at a name ordinal outside the function table.  Both passes index
    with it unchecked: the dumper stores into [funcs] beyond its end, the
    enumerator into the bit map beyond its end. *)
Theorem C2_stray_ordinal_faults :
  dump_dir_exported_functions stray_ordinal_file = Fault /\
  (forall qsort g junk st,
     do_grab_sym qsort g junk stray_ordinal_file st = Fault).
Proof.
  split.
  - vm_compute. reflexivity.
  - intros qsort g junk st. vm_compute. reflexivity.
Qed.

Lemma bit_test w k : 0 <= k -> (Z.land w (Z.shiftl 1 k) =? 0) = negb (Z.testbit w k).
Proof.
  intros Hk. rewrite Z.shiftl_1_l. destruct (Z.testbit w k) eqn:Hb; cbn [negb].
  - apply Z.eqb_neq. intros H0.
    assert (Ht : Z.testbit (Z.land w (2 ^ k)) k = true).
    { rewrite Z.land_spec, Hb, Z.pow2_bits_true by lia. reflexivity. }
    rewrite H0, Z.bits_0 in Ht. discriminate.
  - apply Z.eqb_eq. apply Z.bits_inj'. intros n Hn.
    rewrite Z.land_spec, Z.bits_0, Z.pow2_bits_eqb by lia.
    destruct (k =? n) eqn:E; [|apply andb_false_r].
    apply Z.eqb_eq in E. subst n. rewrite Hb. reflexivity.
Qed.

Lemma bit_mark w k m :
  0 <= k -> Z.testbit (Z.lor w (Z.shiftl 1 k)) m = Z.testbit w m || (k =? m).
Proof.
  intros Hk. rewrite Z.lor_spec, Z.shiftl_1_l, Z.pow2_bits_eqb by lia. reflexivity.
Qed.

Lemma bit_store map o w i :
  0 <= o -> 0 <= i ->
  map !! Z.to_nat (o / 32) = Some w ->
  bit (<[Z.to_nat (o / 32) := Z.lor w (Z.shiftl 1 (o mod 32))]> map) i
  = bit map i || (i =? o).
Proof.
  intros Ho Hi Hw. unfold bit.
  assert (Hlt : (Z.to_nat (o / 32) < length map)%nat) by (eapply lookup_lt_Some; eauto).
  pose proof (Z.mod_pos_bound o 32 eq_refl) as Hom.
  pose proof (Z.mod_pos_bound i 32 eq_refl) as Him.
  pose proof (Z.div_mod o 32 ltac:(lia)) as Hod.
  pose proof (Z.div_mod i 32 ltac:(lia)) as Hid.
  assert (0 <= o / 32) by (apply Z.div_pos; lia).
  assert (0 <= i / 32) by (apply Z.div_pos; lia).
  destruct (decide (i / 32 = o / 32)) as [Heq|Hne].
  - rewrite Heq, list_lookup_insert_eq, Hw by exact Hlt.
    rewrite bit_mark by lia. f_equal.
    destruct (o mod 32 =? i mod 32) eqn:E1; destruct (i =? o) eqn:E2; try reflexivity; lia.
  - rewrite list_lookup_insert_ne by lia.
    destruct (i =? o) eqn:E2; [apply Z.eqb_eq in E2; subst; lia|].
    rewrite orb_false_r. reflexivity.
Qed.

Lemma claimed_cons o s named i :
  claimed ((o, s) :: named) i = (i =? o) || claimed named i.
Proof.
  unfold claimed. rewrite fmap_cons. cbn [fst].
  destruct (i =? o) eqn:E.
  - apply Z.eqb_eq in E. subst. cbn [orb]. apply bool_decide_eq_true. left.
  - apply Z.eqb_neq in E. cbn [orb].
    destruct (bool_decide (i ∈ fst <$> named)) eqn:Hd.
    + apply bool_decide_eq_true in Hd. apply bool_decide_eq_true. right. exact Hd.
    + apply bool_decide_eq_false in Hd. apply bool_decide_eq_false.
      intros Hin. apply elem_of_cons in Hin as [?|?]; [lia|contradiction].
Qed.

Lemma store_done {A} (a : list A) (i : Z) (x : A) :
  0 <= i < Z.of_nat (length a) -> store a i x = Done (<[Z.to_nat i := x]> a).
Proof.
  intros Hi. unfold store.
  destruct (0 <=? i) eqn:E1; [|lia]. destruct (i <? Z.of_nat (length a)) eqn:E2; [|lia].
  reflexivity.
Qed.

Lemma fetch_done {A} (a : list A) (i : Z) (x : A) :
  0 <= i -> a !! Z.to_nat i = Some x -> fetch a i = Done x.
Proof.
  intros Hi Hx. unfold fetch. destruct (i <? 0) eqn:E; [lia|]. rewrite Hx. reflexivity.
Qed.

Lemma grab_names_done f Base pName pOrdl named : forall j map syms,
  read_named f (pName + 4 * j) (pOrdl + 2 * j) (length named) = Some named ->
  Forall (fun os => fst os / 32 < Z.of_nat (length map)) named ->
  0 <= j -> j + Z.of_nat (length named) <= Z.of_nat (length syms) ->
  exists map',
    grab_names f Base pName pOrdl (length named) j map syms
    = Done (map',
            take (Z.to_nat j) syms ++ named_symbols Base named
            ++ drop (Z.to_nat j + length named) syms) /\
    length map' = length map /\
    (forall i, 0 <= i -> bit map' i = bit map i || claimed named i).
Proof.
  induction named as [|[o s] named IH]; intros j map syms Hread Hrange Hj Hroom.
  - exists map. cbn [length grab_names named_symbols fmap list_fmap app].
    rewrite Nat.add_0_r, take_drop. split; [reflexivity|]. split; [reflexivity|].
    intros i _. unfold claimed. cbn. rewrite orb_false_r. reflexivity.
  - cbn [length read_named] in Hread.
    destruct (rd16 f (pOrdl + 2 * j)) as [o'|] eqn:Ho; [|discriminate].
    destruct (rd32 f (pName + 4 * j)) as [rva|] eqn:Hrva; [|discriminate].
    cbn [mbind option_bind] in Hread.
    destruct (name_at f rva) as [s'|] eqn:Hs; [|discriminate].
    cbn [mbind option_bind] in Hread.
    destruct (read_named f (pName + 4 * j + 4) (pOrdl + 2 * j + 2) (length named))
      as [rest|] eqn:Hrest; [|discriminate].
    cbn [mbind option_bind] in Hread. injection Hread as -> -> ->.
    inversion Hrange as [|? ? Ho32 Hrange']; subst. cbn [fst] in Ho32.
    pose proof (rd16_range _ _ _ Ho) as Hor.
    assert (Hq : 0 <= o / 32) by (apply Z.div_pos; lia).
    destruct (lookup_lt_is_Some_2 map (Z.to_nat (o / 32))) as [w Hw]; [lia|].
    cbn [length grab_names]. rewrite Ho. run.
    rewrite (fetch_done _ _ _ Hq Hw). cbn [mbind outcome_bind].
    rewrite store_done by lia. cbn [mbind outcome_bind].
    rewrite Hrva. run.
    assert (Hname : match RVA f rva 4 with
                    | Some p => load (rd_string f p)
                    | None => Done cant_get_function
                    end = Done s).
    { unfold name_at in Hs. destruct (RVA f rva 4) as [p|].
      - rewrite Hs. reflexivity.
      - injection Hs as <-. reflexivity. }
    rewrite Hname. cbn [mbind outcome_bind].
    cbn [length] in Hroom. rewrite store_done by lia. cbn [mbind outcome_bind].
    set (map1 := <[Z.to_nat (o / 32) := Z.lor w (Z.shiftl 1 (o mod 32))]> map).
    set (cell := {| ordinal := DWORD (Base + o); symbol := Some s |}).
    set (syms1 := <[Z.to_nat j := cell]> syms).
    destruct (IH (j + 1) map1 syms1) as (map' & Hrun & Hlen & Hbits).
    + replace (pName + 4 * (j + 1)) with (pName + 4 * j + 4) by lia.
      replace (pOrdl + 2 * (j + 1)) with (pOrdl + 2 * j + 2) by lia. exact Hrest.
    + unfold map1. rewrite length_insert. exact Hrange'.
    + lia.
    + unfold syms1. rewrite length_insert. lia.
    + exists map'. split; [|split].
      * rewrite Hrun. do 2 f_equal. unfold syms1.
        replace (Z.to_nat (j + 1)) with (S (Z.to_nat j)) by lia.
        rewrite (take_S_r _ _ cell) by (apply list_lookup_insert_eq; lia).
        rewrite take_insert_ge by lia.
        rewrite drop_insert_lt by lia.
        unfold named_symbols. rewrite fmap_cons. fold cell.
        rewrite <- !app_assoc. cbn [app].
        replace (Z.to_nat j + S (length named))%nat
          with (S (Z.to_nat j) + length named)%nat by lia.
        reflexivity.
      * rewrite Hlen. unfold map1. apply length_insert.
      * intros i Hi. rewrite Hbits by exact Hi. unfold map1.
        rewrite bit_store by (try lia; exact Hw).
        rewrite claimed_cons, orb_assoc. reflexivity.
Qed.

Lemma grab_ordinals_done g f Base N pFunc map named funcs : forall i j syms,
  rd32s f (pFunc + 4 * i) (length funcs) = Some funcs ->
  0 <= i -> 0 <= j ->
  (forall k, i <= k < i + Z.of_nat (length funcs) ->
     exists w, map !! Z.to_nat (k / 32) = Some w /\
               Z.testbit w (k mod 32) = claimed named k) ->
  j + Z.of_nat (length (ordinal_only g Base named i funcs)) <= N ->
  N < Z.of_nat (length syms) ->
  grab_ordinals g f Base N pFunc map (length funcs) i j syms
  = Done (j + Z.of_nat (length (ordinal_only g Base named i funcs)),
          take (Z.to_nat j) syms ++ ordinal_only g Base named i funcs
          ++ drop (Z.to_nat j + length (ordinal_only g Base named i funcs)) syms).
Proof.
  induction funcs as [|func funcs IH]; intros i j syms Hread Hi Hj Hmap Hroom Hcap.
  - cbn [length grab_ordinals ordinal_only app]. rewrite Nat.add_0_r, take_drop.
    do 2 f_equal. lia.
  - cbn [length rd32s] in Hread.
    destruct (rd32 f (pFunc + 4 * i)) as [func'|] eqn:Hf; [|discriminate].
    cbn [mbind option_bind] in Hread.
    destruct (rd32s f (pFunc + 4 * i + 4) (length funcs)) as [rest|] eqn:Hrest;
      [|discriminate].
    cbn [mbind option_bind] in Hread. injection Hread as -> ->.
    assert (Hrest' : rd32s f (pFunc + 4 * (i + 1)) (length funcs) = Some funcs).
    { replace (pFunc + 4 * (i + 1)) with (pFunc + 4 * i + 4) by lia. exact Hrest. }
    assert (Hmap' : forall k, i + 1 <= k < i + 1 + Z.of_nat (length funcs) ->
              exists w, map !! Z.to_nat (k / 32) = Some w /\
                        Z.testbit w (k mod 32) = claimed named k).
    { intros k Hk. apply Hmap. cbn [length]. lia. }
    cbn [length grab_ordinals ordinal_only]. rewrite Hf. run.
    cbn [ordinal_only] in Hroom.
    destruct (func =? 0) eqn:Hz; cbn [negb andb app] in *.
    + apply IH; try assumption; lia.
    + destruct (Hmap i) as (w & Hw & Hbit); [cbn [length]; lia|].
      assert (Hq : 0 <= i / 32) by (apply Z.div_pos; lia).
      rewrite (fetch_done _ _ _ Hq Hw). cbn [mbind outcome_bind].
      rewrite bit_test by (apply Z.mod_pos_bound; lia). rewrite Hbit.
      destruct (claimed named i) eqn:Hc; cbn [negb app] in *.
      * apply IH; try assumption; lia.
      * cbn [length] in Hroom. rewrite store_done by lia. cbn [mbind outcome_bind].
        destruct (j + 1 <=? N) eqn:Hassert; [|lia].
        set (cell := {| ordinal := DWORD (Base + i);
                        symbol := Some (ordinal_name g (DWORD (Base + i))) |}).
        rewrite (IH (i + 1) (j + 1) (<[Z.to_nat j := cell]> syms));
          [|assumption|lia|lia|assumption|lia|rewrite length_insert; lia].
        f_equal. f_equal; [cbn [length]; lia|].
        replace (Z.to_nat (j + 1)) with (S (Z.to_nat j)) by lia.
        rewrite (take_S_r _ _ cell) by (apply list_lookup_insert_eq; lia).
        rewrite take_insert_ge by lia. rewrite drop_insert_lt by lia.
        rewrite <- !app_assoc. cbn [app length].
        replace (Z.to_nat j + S (length (ordinal_only g Base named (i + 1) funcs)))%nat
          with (S (Z.to_nat j) + length (ordinal_only g Base named (i + 1) funcs))%nat
          by lia.
        reflexivity.
Qed.

Lemma bit_map_words x :
  0 <= x < 2 ^ 32 -> Z.land x (DWORD (-32)) / 32 = x / 32.
Proof.
  intros Hx. change (DWORD (-32)) with (Z.shiftl (Z.ones 27) 5).
  assert (H : Z.land x (Z.shiftl (Z.ones 27) 5) = Z.shiftl (Z.shiftr x 5) 5).
  { apply Z.bits_inj'. intros n Hn. rewrite Z.land_spec.
    destruct (Z.lt_ge_cases n 5) as [Hlow|Hhigh].
    - rewrite !Z.shiftl_spec_low by lia. apply andb_false_r.
    - rewrite !Z.shiftl_spec by lia. rewrite Z.shiftr_spec by lia.
      replace (n - 5 + 5) with n by lia.
      rewrite Z.testbit_ones_nonneg by lia.
      destruct (n - 5 <? 27) eqn:E; [apply andb_true_r|].
      rewrite andb_false_r. symmetry.
      destruct (Z.eq_dec x 0) as [->|Hnz]; [apply Z.bits_0|].
      apply Z.bits_above_log2; [lia|].
      assert (Z.log2 x < 32) by (apply Z.log2_lt_pow2; lia). lia. }
  rewrite H, Z.shiftl_mul_pow2, Z.shiftr_div_pow2 by lia.
  change (2 ^ 5) with 32. apply Z.div_mul. lia.
Qed.

Lemma rd32s_length f n : forall p l, rd32s f p n = Some l -> length l = n.
Proof.
  induction n as [|n IH]; intros p l H.
  - injection H as <-. reflexivity.
  - cbn [rd32s] in H. destruct (rd32 f p); [|discriminate]. cbn in H.
    destruct (rd32s f (p + 4) n) as [cs|] eqn:Hcs; [|discriminate].
    cbn in H. injection H as <-. cbn [length]. f_equal. eapply IH. exact Hcs.
Qed.

Lemma read_named_length f n : forall pName pOrdl l,
  read_named f pName pOrdl n = Some l -> length l = n.
Proof.
  induction n as [|n IH]; intros pName pOrdl l H.
  - injection H as <-. reflexivity.
  - cbn [read_named] in H.
    destruct (rd16 f pOrdl); [|discriminate].
    destruct (rd32 f pName) as [rva|]; [|discriminate]. cbn in H.
    destruct (name_at f rva); [|discriminate]. cbn in H.
    destruct (read_named f (pName + 4) (pOrdl + 2) n) as [rest|] eqn:Hrest; [|discriminate].
    cbn in H. injection H as <-. cbn [length]. f_equal. eapply IH. exact Hrest.
Qed.

Lemma bit_replicate n i : bit (replicate n 0) i = false.
Proof.
  unfold bit. destruct (replicate n 0 !! Z.to_nat (i / 32)) as [w|] eqn:Hw; [|reflexivity].
  apply lookup_replicate in Hw as [-> _]. apply Z.bits_0.
Qed.

Lemma read_named_range f n : forall pName pOrdl l,
  read_named f pName pOrdl n = Some l -> Forall (fun os => 0 <= fst os < 65536) l.
Proof.
  induction n as [|n IH]; intros pName pOrdl l H.
  - injection H as <-. constructor.
  - cbn [read_named] in H.
    destruct (rd16 f pOrdl) as [o|] eqn:Ho; [|discriminate].
    destruct (rd32 f pName) as [rva|]; [|discriminate]. cbn in H.
    destruct (name_at f rva); [|discriminate]. cbn in H.
    destruct (read_named f (pName + 4) (pOrdl + 2) n) as [rest|] eqn:Hrest; [|discriminate].
    cbn in H. injection H as <-. constructor.
    + cbn [fst]. eapply rd16_range. exact Ho.
    + eapply IH. exact Hrest.
Qed.

(** The array [do_grab_sym] leaves in [dll_symbols]: [cells], the cell that
    ends the array, and the cells of the allocation it never wrote. *)
Lemma do_grab_sym_done qsort g junk f st t :
  read_exports f = Some t ->
  Z.of_nat (length (exp_funcs t)) + 31 < 2 ^ 32 ->
  Forall (fun os => fst os < Z.of_nat (length (exp_funcs t))) (exp_named t) ->
  (length (combined_symbols g t) <= length (exp_funcs t))%nat ->
  length (qsort symbol_cmp (combined_symbols g t)) = length (combined_symbols g t) ->
  do_grab_sym qsort g junk f st
  = Done {| dll_symbols :=
              Some (qsort symbol_cmp (combined_symbols g t)
                    ++ {| ordinal := ordinal (junk (length (combined_symbols g t)));
                          symbol := None |}
                    :: (junk <$> seq (S (length (combined_symbols g t)))
                                   (length (exp_funcs t) - length (combined_symbols g t))));
            dll_current_symbol := Some 0%nat |}.
Proof.
  intros Hread Hsmall Hrange Hroom Hqsort.
  unfold read_exports in Hread. unfold do_grab_sym.
  destruct (get_dir f IMAGE_FILE_EXPORT_DIRECTORY) as [exportDir|]; [|discriminate].
  cbn [mbind option_bind] in Hread.
  destruct (IMAGE_EXPORT_DIRECTORY.AddressOfNames f exportDir) as [AoN|]; [|discriminate].
  cbn [mbind option_bind] in Hread.
  destruct (IMAGE_EXPORT_DIRECTORY.NumberOfNames f exportDir) as [M|] eqn:HM; [|discriminate].
  cbn [mbind option_bind load outcome_bind] in Hread |- *.
  destruct (RVA f AoN (ulong f (M * 4))) as [pName|]; [|discriminate].
  cbn [mbind option_bind] in Hread.
  destruct (IMAGE_EXPORT_DIRECTORY.AddressOfNameOrdinals f exportDir) as [AoNO|];
    [|discriminate].
  cbn [mbind option_bind load outcome_bind] in Hread |- *.
  destruct (RVA f AoNO (ulong f (M * 2))) as [pOrdl|]; [|discriminate].
  cbn [mbind option_bind] in Hread.
  destruct (IMAGE_EXPORT_DIRECTORY.AddressOfFunctions f exportDir) as [AoF|];
    [|discriminate].
  cbn [mbind option_bind] in Hread.
  destruct (IMAGE_EXPORT_DIRECTORY.NumberOfFunctions f exportDir) as [N|] eqn:HN;
    [|discriminate].
  cbn [mbind option_bind load outcome_bind] in Hread |- *.
  destruct (RVA f AoF (ulong f (N * 4))) as [pFunc|]; [|discriminate].
  cbn [mbind option_bind] in Hread.
  destruct (IMAGE_EXPORT_DIRECTORY.Base f exportDir) as [Base|]; [|discriminate].
  cbn [mbind option_bind load outcome_bind] in Hread |- *.
  destruct (rd32s f pFunc (Z.to_nat N)) as [funcs|] eqn:Hfuncs; [|discriminate].
  cbn [mbind option_bind] in Hread.
  destruct (read_named f pName pOrdl (Z.to_nat M)) as [named|] eqn:Hnamed; [|discriminate].
  cbn [mbind option_bind] in Hread. injection Hread as <-.
  unfold combined_symbols in *. cbn [exp_Base exp_funcs exp_named] in *.
  apply rd32_range in HN, HM.
  pose proof (rd32s_length _ _ _ _ Hfuncs) as Hlf.
  pose proof (read_named_length _ _ _ _ _ Hnamed) as Hln.
  assert (HNn : Z.of_nat (length funcs) = N) by lia.
  assert (HMn : Z.of_nat (length named) = M) by lia.
  rewrite HNn in *.
  set (oo := ordinal_only g Base named 0 funcs) in *.
  rewrite length_app in Hroom, Hqsort |- *. unfold named_symbols in Hroom at 1.
  rewrite length_fmap in Hroom.
  (* the two allocations *)
  replace (DWORD (N + 1)) with (N + 1) by (symmetry; apply wrap_small; lia).
  replace (DWORD (N + 31)) with (N + 31) by (symmetry; apply wrap_small; lia).
  rewrite bit_map_words by lia.
  set (syms0 := junk <$> seq 0 (Z.to_nat (N + 1))).
  set (map0 := replicate (Z.to_nat ((N + 31) / 32)) 0).
  assert (Hl0 : length syms0 = S (length funcs)).
  { unfold syms0. rewrite length_fmap, length_seq. lia. }
  assert (Hwords : forall k, 0 <= k < N -> k / 32 < (N + 31) / 32).
  { intros k Hk.
    assert (k / 32 <= (N - 1) / 32) by (apply Z.div_le_mono; lia).
    replace (N + 31) with (N - 1 + 1 * 32) by lia. rewrite Z.div_add by lia. lia. }
  assert (H0 : 0 <= (N + 31) / 32) by (apply Z.div_pos; lia).
  (* the named exports *)
  destruct (grab_names_done f Base pName pOrdl named 0 map0 syms0)
    as (map1 & Hnames & Hlen1 & Hbits).
  { rewrite Hln. replace (pName + 4 * 0) with pName by lia.
    replace (pOrdl + 2 * 0) with pOrdl by lia. exact Hnamed. }
  { unfold map0. rewrite length_replicate.
    rewrite Forall_forall in Hrange |- *. intros [o s] Hin.
    specialize (Hrange _ Hin). cbn [fst] in *.
    assert (Hor : 0 <= o).
    { pose proof (read_named_range _ _ _ _ _ Hnamed) as Hr.
      rewrite Forall_forall in Hr. apply (Hr (o, s)). exact Hin. }
    specialize (Hwords o). lia. }
  { lia. }
  { rewrite Hl0. lia. }
  rewrite <- Hln, Hnames. cbn [mbind outcome_bind].
  change (Z.to_nat 0) with 0%nat. rewrite take_0, app_nil_l, Nat.add_0_l.
  set (cells := named_symbols Base named) in *.
  assert (Hlc : length cells = length named) by (unfold cells; apply length_fmap).
  assert (Hdrop : forall n, (n <= S (length funcs))%nat ->
            drop n syms0 = junk <$> seq n (S (length funcs) - n)).
  { intros n Hn. unfold syms0. rewrite <- fmap_drop, drop_seq. do 2 f_equal; lia. }
  rewrite (Hdrop (length named)) by lia.
  set (syms1 := cells ++ (junk <$> seq (length named) (S (length funcs) - length named))).
  assert (Hl1 : length syms1 = S (length funcs)).
  { unfold syms1. rewrite length_app, length_fmap, length_seq. lia. }
  (* the ordinal-only exports *)
  rewrite <- Hlf.
  rewrite (grab_ordinals_done g f Base N pFunc map1 named funcs 0 M syms1).
  2:{ replace (pFunc + 4 * 0) with pFunc by lia. rewrite Hlf. exact Hfuncs. }
  2:{ lia. }
  2:{ lia. }
  2:{ intros k Hk.
      destruct (lookup_lt_is_Some_2 map1 (Z.to_nat (k / 32))) as [w Hw].
      { rewrite Hlen1. unfold map0. rewrite length_replicate.
        assert (0 <= k / 32) by (apply Z.div_pos; lia).
        specialize (Hwords k). lia. }
      exists w. split; [exact Hw|].
      specialize (Hbits k ltac:(lia)). unfold bit in Hbits at 1. rewrite Hw in Hbits.
      rewrite Hbits. unfold map0. rewrite bit_replicate. reflexivity. }
  2:{ fold oo. lia. }
  2:{ rewrite Hl1. lia. }
  fold oo. cbn [mbind outcome_bind].
  replace (Z.to_nat (M + Z.of_nat (length oo))) with (length cells + length oo)%nat by lia.
  replace (Z.to_nat M) with (length cells) by lia.
  assert (Hsyms2 : take (length cells) syms1 ++ oo ++ drop (length cells + length oo) syms1
                   = (cells ++ oo)
                     ++ (junk <$> seq (length cells + length oo)
                                    (S (length funcs) - (length cells + length oo)))).
  { unfold syms1. rewrite take_app_length, drop_app_add.
    rewrite <- fmap_drop, drop_seq. rewrite <- app_assoc. do 4 f_equal; lia. }
  rewrite Hsyms2. clear Hsyms2.
  replace (length cells + length oo)%nat with (length (cells ++ oo))
    by apply length_app.
  rewrite take_app_length, drop_app_length.
  set (sorted := qsort symbol_cmp (cells ++ oo)).
  assert (Hls : length sorted = length (cells ++ oo)).
  { unfold sorted. rewrite Hqsort, length_app. lia. }
  set (j := length (cells ++ oo)) in *.
  assert (Hj : (j <= length funcs)%nat).
  { unfold j. rewrite length_app. lia. }
  replace (S (length funcs) - j)%nat with (S (length funcs - j)) by lia.
  cbn [seq fmap list_fmap].
  replace (M + Z.of_nat (length oo)) with (Z.of_nat j)
    by (unfold j; rewrite length_app; lia).
  rewrite (fetch_done _ (Z.of_nat j) (junk j)).
  2:{ lia. }
  2:{ rewrite Nat2Z.id, lookup_app_r by lia.
      replace (j - length sorted)%nat with 0%nat by lia. reflexivity. }
  cbn [mbind outcome_bind].
  rewrite store_done.
  2:{ rewrite length_app. cbn [length]. lia. }
  cbn [mbind outcome_bind]. rewrite Nat2Z.id.
  rewrite insert_app_r_alt by lia.
  replace (j - length sorted)%nat with 0%nat by lia.
  reflexivity.
Qed.

(** ** What a completed run of [do_grab_sym] has built *)

Lemma store_inv {A} (a : list A) (i : Z) (x : A) a' :
  store a i x = Done a' ->
  0 <= i < Z.of_nat (length a) /\ a' = <[Z.to_nat i := x]> a.
Proof.
  unfold store.
  destruct (0 <=? i) eqn:E1; destruct (i <? Z.of_nat (length a)) eqn:E2;
    cbn [andb]; intros H; try discriminate.
  injection H as <-. split; [lia|reflexivity].
Qed.

Lemma fetch_inv {A} (a : list A) (i : Z) (x : A) :
  fetch a i = Done x -> 0 <= i /\ a !! Z.to_nat i = Some x.
Proof.
  unfold fetch. destruct (i <? 0) eqn:E; [discriminate|].
  destruct (a !! Z.to_nat i) as [y|]; cbn [load]; intros H; [|discriminate].
  injection H as <-. split; [lia|reflexivity].
Qed.

Lemma grab_names_inv f Base pName pOrdl : forall n j map syms r,
  grab_names f Base pName pOrdl n j map syms = Done r ->
  0 <= j <= Z.of_nat (length syms) ->
  exists named,
    read_named f (pName + 4 * j) (pOrdl + 2 * j) n = Some named /\
    Forall (fun os => fst os / 32 < Z.of_nat (length map)) named /\
    j + Z.of_nat n <= Z.of_nat (length syms).
Proof.
  induction n as [|n IH]; intros j map syms r Hrun Hj.
  - exists []. split; [reflexivity|]. split; [constructor|]. lia.
  - cbn [grab_names] in Hrun.
    destruct (rd16 f (pOrdl + 2 * j)) as [o|] eqn:Ho; run in Hrun; [|discriminate].
    destruct (fetch map (o / 32)) as [w| | |] eqn:Hw;
      cbn [mbind outcome_bind] in Hrun; try discriminate.
    destruct (store map (o / 32) (Z.lor w (Z.shiftl 1 (o mod 32)))) as [map1| | |] eqn:Hm;
      cbn [mbind outcome_bind] in Hrun; try discriminate.
    destruct (rd32 f (pName + 4 * j)) as [rva|] eqn:Hrva; run in Hrun; [|discriminate].
    destruct (match RVA f rva 4 with
              | Some p => load (rd_string f p)
              | None => Done cant_get_function
              end) as [s| | |] eqn:Hname;
      cbn [mbind outcome_bind] in Hrun; try discriminate.
    destruct (store syms j {| ordinal := DWORD (Base + o); symbol := Some s |})
      as [syms1| | |] eqn:Hs; cbn [mbind outcome_bind] in Hrun; try discriminate.
    apply store_inv in Hm as [Hmr ->]. apply store_inv in Hs as [Hsr ->].
    destruct (IH _ _ _ _ Hrun) as (named & Hread & Hrange & Hroom).
    { rewrite length_insert. lia. }
    rewrite !length_insert in *.
    exists ((o, s) :: named). split; [|split].
    + cbn [read_named]. rewrite Ho, Hrva. cbn [mbind option_bind].
      assert (Hs : name_at f rva = Some s).
      { unfold name_at. destruct (RVA f rva 4) as [p|].
        - destruct (rd_string f p); cbn [load] in Hname; congruence.
        - congruence. }
      rewrite Hs. cbn [mbind option_bind].
      replace (pName + 4 * j + 4) with (pName + 4 * (j + 1)) by lia.
      replace (pOrdl + 2 * j + 2) with (pOrdl + 2 * (j + 1)) by lia.
      rewrite Hread. reflexivity.
    + constructor; [cbn [fst]; lia|exact Hrange].
    + lia.
Qed.

Lemma grab_names_run f Base pName pOrdl named j map syms map' syms' :
  grab_names f Base pName pOrdl (length named) j map syms = Done (map', syms') ->
  read_named f (pName + 4 * j) (pOrdl + 2 * j) (length named) = Some named ->
  0 <= j <= Z.of_nat (length syms) ->
  syms' = take (Z.to_nat j) syms ++ named_symbols Base named
          ++ drop (Z.to_nat j + length named) syms /\
  j + Z.of_nat (length named) <= Z.of_nat (length syms) /\
  (forall i, 0 <= i -> bit map' i = bit map i || claimed named i).
Proof.
  intros Hrun Hread Hj.
  destruct (grab_names_inv _ _ _ _ _ _ _ _ _ Hrun Hj) as (named' & Hread' & Hrange & Hroom).
  rewrite Hread in Hread'. injection Hread' as <-.
  destruct (grab_names_done f Base pName pOrdl named j map syms Hread Hrange)
    as (map1 & Hdone & _ & Hbits); [lia|lia|].
  rewrite Hdone in Hrun. injection Hrun as <- <-. auto.
Qed.

Lemma grab_ordinals_inv g f Base N pFunc map named funcs : forall i j syms j' syms',
  grab_ordinals g f Base N pFunc map (length funcs) i j syms = Done (j', syms') ->
  rd32s f (pFunc + 4 * i) (length funcs) = Some funcs ->
  0 <= i -> 0 <= j ->
  (forall k, 0 <= k -> bit map k = claimed named k) ->
  j' = j + Z.of_nat (length (ordinal_only g Base named i funcs)) /\
  syms' = take (Z.to_nat j) syms ++ ordinal_only g Base named i funcs
          ++ drop (Z.to_nat j + length (ordinal_only g Base named i funcs)) syms.
Proof.
  induction funcs as [|func funcs IH]; intros i j syms j' syms' Hrun Hread Hi Hj Hmap.
  - cbn [length grab_ordinals ordinal_only app] in *. injection Hrun as <- <-.
    rewrite Nat.add_0_r, take_drop. split; [lia|reflexivity].
  - cbn [length rd32s] in Hread.
    destruct (rd32 f (pFunc + 4 * i)) as [func'|] eqn:Hf; [|discriminate].
    cbn [mbind option_bind] in Hread.
    destruct (rd32s f (pFunc + 4 * i + 4) (length funcs)) as [rest|] eqn:Hrest;
      [|discriminate].
    cbn [mbind option_bind] in Hread. injection Hread as -> ->.
    assert (Hrest' : rd32s f (pFunc + 4 * (i + 1)) (length funcs) = Some funcs).
    { replace (pFunc + 4 * (i + 1)) with (pFunc + 4 * i + 4) by lia. exact Hrest. }
    cbn [length grab_ordinals] in Hrun. rewrite Hf in Hrun. run in Hrun.
    cbn [ordinal_only].
    destruct (func =? 0) eqn:Hz; cbn [negb andb app].
    + apply IH; try assumption; lia.
    + destruct (fetch map (i / 32)) as [w| | |] eqn:Hw;
        cbn [mbind outcome_bind] in Hrun; try discriminate.
      apply fetch_inv in Hw as [_ Hw].
      rewrite bit_test in Hrun by (apply Z.mod_pos_bound; lia).
      assert (Hbit : Z.testbit w (i mod 32) = claimed named i).
      { rewrite <- Hmap by exact Hi. unfold bit. rewrite Hw. reflexivity. }
      rewrite Hbit in Hrun.
      destruct (claimed named i) eqn:Hc; cbn [negb app] in *.
      * apply IH; try assumption; lia.
      * set (cell := {| ordinal := DWORD (Base + i);
                        symbol := Some (ordinal_name g (DWORD (Base + i))) |}) in *.
        destruct (store syms j cell) as [syms1| | |] eqn:Hs;
          cbn [mbind outcome_bind] in Hrun; try discriminate.
        apply store_inv in Hs as [Hjr ->].
        destruct (j + 1 <=? N) eqn:Hassert; [|discriminate].
        destruct (IH _ _ _ _ _ Hrun Hrest') as [-> ->]; [lia|lia|exact Hmap|].
        split; [cbn [length]; lia|].
        replace (Z.to_nat (j + 1)) with (S (Z.to_nat j)) by lia.
        rewrite (take_S_r _ _ cell) by (apply list_lookup_insert_eq; lia).
        rewrite take_insert_ge by lia. rewrite drop_insert_lt by lia.
        rewrite <- !app_assoc. cbn [app length].
        replace (Z.to_nat j + S (length (ordinal_only g Base named (i + 1) funcs)))%nat
          with (S (Z.to_nat j) + length (ordinal_only g Base named (i + 1) funcs))%nat
          by lia.
        reflexivity.
Qed.

(** When the tables can be read and [do_grab_sym] runs to its end, the
    array it leaves is [built_symbols], and its symbols are no more than
    the function table has slots. *)
Lemma do_grab_sym_inv qsort g junk f st st' t :
  read_exports f = Some t ->
  length (qsort symbol_cmp (combined_symbols g t)) = length (combined_symbols g t) ->
  do_grab_sym qsort g junk f st = Done st' ->
  st' = {| dll_symbols := Some (built_symbols qsort g junk t);
           dll_current_symbol := Some 0%nat |} /\
  (length (combined_symbols g t) <= length (exp_funcs t))%nat.
Proof.
  intros Hread Hqsort Hrun.
  unfold read_exports in Hread. unfold do_grab_sym in Hrun. unfold built_symbols.
  destruct (get_dir f IMAGE_FILE_EXPORT_DIRECTORY) as [exportDir|]; [|discriminate].
  cbn [mbind option_bind] in Hread.
  destruct (IMAGE_EXPORT_DIRECTORY.AddressOfNames f exportDir) as [AoN|]; [|discriminate].
  cbn [mbind option_bind] in Hread.
  destruct (IMAGE_EXPORT_DIRECTORY.NumberOfNames f exportDir) as [M|] eqn:HM; [|discriminate].
  cbn [mbind option_bind load outcome_bind] in Hread, Hrun.
  destruct (RVA f AoN (ulong f (M * 4))) as [pName|]; [|discriminate].
  cbn [mbind option_bind] in Hread.
  destruct (IMAGE_EXPORT_DIRECTORY.AddressOfNameOrdinals f exportDir) as [AoNO|];
    [|discriminate].
  cbn [mbind option_bind load outcome_bind] in Hread, Hrun.
  destruct (RVA f AoNO (ulong f (M * 2))) as [pOrdl|]; [|discriminate].
  cbn [mbind option_bind] in Hread.
  destruct (IMAGE_EXPORT_DIRECTORY.AddressOfFunctions f exportDir) as [AoF|];
    [|discriminate].
  cbn [mbind option_bind] in Hread.
  destruct (IMAGE_EXPORT_DIRECTORY.NumberOfFunctions f exportDir) as [N|] eqn:HN;
    [|discriminate].
  cbn [mbind option_bind load outcome_bind] in Hread, Hrun.
  destruct (RVA f AoF (ulong f (N * 4))) as [pFunc|]; [|discriminate].
  cbn [mbind option_bind] in Hread.
  destruct (IMAGE_EXPORT_DIRECTORY.Base f exportDir) as [Base|]; [|discriminate].
  cbn [mbind option_bind load outcome_bind] in Hread, Hrun.
  destruct (rd32s f pFunc (Z.to_nat N)) as [funcs|] eqn:Hfuncs; [|discriminate].
  cbn [mbind option_bind] in Hread.
  destruct (read_named f pName pOrdl (Z.to_nat M)) as [named|] eqn:Hnamed; [|discriminate].
  cbn [mbind option_bind] in Hread. injection Hread as <-.
  unfold combined_symbols in *. cbn [exp_Base exp_funcs exp_named] in *.
  apply rd32_range in HN, HM.
  pose proof (rd32s_length _ _ _ _ Hfuncs) as Hlf.
  pose proof (read_named_length _ _ _ _ _ Hnamed) as Hln.
  set (oo := ordinal_only g Base named 0 funcs) in *.
  set (cells := named_symbols Base named) in *.
  assert (Hlc : length cells = length named) by (unfold cells; apply length_fmap).
  (* the two allocations *)
  set (L := Z.to_nat (DWORD (N + 1))) in Hrun.
  set (syms0 := junk <$> seq 0 L) in Hrun.
  set (map0 := replicate (Z.to_nat (Z.land (DWORD (N + 31)) (DWORD (-32)) / 32)) 0) in Hrun.
  assert (Hl0 : length syms0 = L) by (unfold syms0; rewrite length_fmap, length_seq; lia).
  (* the named exports *)
  destruct (grab_names f Base pName pOrdl (Z.to_nat M) 0 map0 syms0)
    as [[map1 syms1]| | |] eqn:Hgn; cbn [mbind outcome_bind] in Hrun; try discriminate.
  rewrite <- Hln in Hgn.
  apply (grab_names_run f Base pName pOrdl named) in Hgn as (-> & Hroom1 & Hbits).
  2:{ rewrite Hln. replace (pName + 4 * 0) with pName by lia.
      replace (pOrdl + 2 * 0) with pOrdl by lia. exact Hnamed. }
  2:{ lia. }
  (* the ordinal-only exports *)
  destruct (grab_ordinals g f Base N pFunc map1 (Z.to_nat N) 0 M _)
    as [[j syms2]| | |] eqn:Hgo; cbn [mbind outcome_bind] in Hrun; try discriminate.
  rewrite <- Hlf in Hgo.
  apply (grab_ordinals_inv g f Base N pFunc map1 named funcs) in Hgo as [-> ->].
  2:{ replace (pFunc + 4 * 0) with pFunc by lia. rewrite Hlf. exact Hfuncs. }
  2:{ lia. }
  2:{ lia. }
  2:{ intros k Hk. rewrite Hbits by exact Hk. unfold map0. rewrite bit_replicate.
      reflexivity. }
  fold oo in Hrun.
  change (Z.to_nat 0) with 0%nat in Hrun.
  rewrite take_0, app_nil_l, Nat.add_0_l in Hrun. fold cells in Hrun.
  replace (Z.to_nat M) with (length cells) in Hrun by lia.
  replace (Z.to_nat (M + Z.of_nat (length oo))) with (length (cells ++ oo)) in Hrun
    by (rewrite length_app; lia).
  rewrite take_app_length, drop_app_add in Hrun.
  rewrite (app_assoc cells oo) in Hrun.
  rewrite take_app_length, drop_app_length in Hrun.
  unfold syms0 in Hrun. rewrite <- !fmap_drop, !drop_seq in Hrun.
  rewrite <- Hlc in Hrun.
  set (sorted := qsort symbol_cmp (cells ++ oo)) in *.
  set (j := length (cells ++ oo)) in *.
  replace (0 + length cells + length oo)%nat with j in Hrun
    by (unfold j; rewrite length_app; lia).
  replace (L - length cells - length oo)%nat with (L - j)%nat in Hrun
    by (unfold j; rewrite length_app; lia).
  replace (M + Z.of_nat (length oo)) with (Z.of_nat j) in Hrun
    by (unfold j; rewrite length_app; lia).
  destruct (fetch (sorted ++ (junk <$> seq j (L - j))) (Z.of_nat j)) as [last| | |] eqn:Hlast;
    cbn [mbind outcome_bind] in Hrun; try discriminate.
  apply fetch_inv in Hlast as [_ Hlast]. rewrite Nat2Z.id in Hlast.
  assert (HjL : (j < L)%nat).
  { apply lookup_lt_Some in Hlast. rewrite length_app, length_fmap, length_seq in Hlast.
    lia. }
  assert (HL : L = S (length funcs)).
  { unfold L in *. destruct (Z.eq_dec (N + 1) (2 ^ 32)) as [Heq|Hne].
    - rewrite Heq in HjL. change (DWORD (2 ^ 32)) with 0 in HjL. cbn in HjL. lia.
    - replace (DWORD (N + 1)) with (N + 1) by (symmetry; apply wrap_small; lia). lia. }
  destruct (store (sorted ++ (junk <$> seq j (L - j))) (Z.of_nat j)
              {| ordinal := ordinal last; symbol := None |}) as [syms3| | |] eqn:Hs;
    cbn [mbind outcome_bind] in Hrun; try discriminate.
  apply store_inv in Hs as [_ ->]. injection Hrun as <-.
  split; [|lia].
  do 2 f_equal. rewrite Nat2Z.id.
  replace (L - j)%nat with (S (length funcs - j)) in * by lia.
  cbn [seq fmap list_fmap] in *.
  rewrite lookup_app_r in Hlast by lia.
  replace (j - length sorted)%nat with 0%nat in Hlast by lia.
  injection Hlast as <-.
  rewrite insert_app_r_alt by lia.
  replace (j - length sorted)%nat with 0%nat by lia.
  reflexivity.
Qed.

(** More symbols than function slots: [do_grab_sym] stops on its
    [assert(j <= exportDir->NumberOfFunctions)]. *)
Lemma do_grab_sym_crowded :
  forall qsort g junk st, do_grab_sym qsort g junk crowded_file st = Aborted.
Proof. intros qsort g junk st. vm_compute. reflexivity. Qed.

(** ** The library's merge sort *)

Section merge_sort.
Context {A : Type} (cmp : A -> A -> Z).

Lemma msort_merge_nil_l b2 : msort_merge cmp [] b2 = b2.
Proof. destruct b2; reflexivity. Qed.

Lemma msort_merge_nil_r b1 : msort_merge cmp b1 [] = b1.
Proof. destruct b1; reflexivity. Qed.

Lemma msort_merge_cons x b1 y b2 :
  msort_merge cmp (x :: b1) (y :: b2)
  = if cmp x y <=? 0 then x :: msort_merge cmp b1 (y :: b2)
    else y :: msort_merge cmp (x :: b1) b2.
Proof. reflexivity. Qed.

Lemma msort_merge_perm b1 : forall b2, Permutation (msort_merge cmp b1 b2) (b1 ++ b2).
Proof.
  induction b1 as [|x b1 IH1]; intros b2; [rewrite msort_merge_nil_l; reflexivity|].
  induction b2 as [|y b2 IH2].
  - rewrite msort_merge_nil_r, app_nil_r. reflexivity.
  - rewrite msort_merge_cons. destruct (cmp x y <=? 0).
    + cbn [app]. constructor. apply IH1.
    + rewrite IH2. apply Permutation_middle.
Qed.

Lemma msort_with_tmp_perm depth : forall b, Permutation (msort_with_tmp depth cmp b) b.
Proof.
  induction depth as [|depth IH]; intros b; [reflexivity|].
  cbn [msort_with_tmp]. destruct (length b <=? 1)%nat; [reflexivity|].
  rewrite msort_merge_perm, !IH, take_drop. reflexivity.
Qed.

Lemma qsort_perm b : Permutation (qsort cmp b) b.
Proof. apply msort_with_tmp_perm. Qed.

(** A comparison function that says "greater" exactly when the key of the
    left element is the greater one. *)
Context (key : A -> Z).
Hypothesis Hkey : forall x y, cmp x y <= 0 <-> key x <= key y.

Let le (x y : A) : Prop := key x <= key y.

Lemma msort_merge_hd a b1 b2 :
  HdRel le a b1 -> HdRel le a b2 -> HdRel le a (msort_merge cmp b1 b2).
Proof.
  intros H1 H2. destruct b1 as [|x b1]; [rewrite msort_merge_nil_l; exact H2|].
  destruct b2 as [|y b2]; [rewrite msort_merge_nil_r; exact H1|].
  rewrite msort_merge_cons. destruct (cmp x y <=? 0); constructor.
  - inversion H1; assumption.
  - inversion H2; assumption.
Qed.

Lemma msort_merge_sorted b1 : forall b2,
  Sorted le b1 -> Sorted le b2 -> Sorted le (msort_merge cmp b1 b2).
Proof.
  induction b1 as [|x b1 IH1]; intros b2 H1 H2; [rewrite msort_merge_nil_l; exact H2|].
  induction b2 as [|y b2 IH2]; [rewrite msort_merge_nil_r; exact H1|].
  rewrite msort_merge_cons.
  apply Sorted_inv in H1 as [H1 Hx]. apply Sorted_inv in H2 as [H2 Hy].
  destruct (cmp x y <=? 0) eqn:E.
  - apply Z.leb_le, Hkey in E. constructor.
    + apply IH1; [exact H1|constructor; assumption].
    + apply msort_merge_hd; [exact Hx|constructor; exact E].
  - apply Z.leb_gt in E. assert (Hyx : le y x).
    { unfold le. destruct (Z.le_gt_cases (key x) (key y)) as [Hle|Hgt]; [|lia].
      apply Hkey in Hle. lia. }
    constructor.
    + apply IH2. exact H2.
    + apply msort_merge_hd; [constructor; exact Hyx|exact Hy].
Qed.

Lemma msort_halves (b : list A) depth :
  (length b <= S depth)%nat -> (length b <=? 1)%nat = false ->
  (length (take (length b / 2) b) <= depth)%nat /\
  (length (drop (length b / 2) b) <= depth)%nat.
Proof.
  intros Hd Hn. apply Nat.leb_gt in Hn. rewrite length_take, length_drop.
  pose proof (Nat.div_mod_eq (length b) 2) as Hdm.
  pose proof (Nat.mod_upper_bound (length b) 2 ltac:(lia)) as Hm.
  lia.
Qed.

Lemma msort_with_tmp_sorted depth : forall b,
  (length b <= depth)%nat -> Sorted le (msort_with_tmp depth cmp b).
Proof.
  induction depth as [|depth IH]; intros b Hd.
  - destruct b; [constructor|cbn in Hd; lia].
  - cbn [msort_with_tmp]. destruct (length b <=? 1)%nat eqn:Hn.
    + apply Nat.leb_le in Hn. destruct b as [|x [|y b]]; [constructor| |cbn in Hn; lia].
      repeat constructor.
    + destruct (msort_halves b depth Hd Hn) as [H1 H2].
      apply msort_merge_sorted; apply IH; assumption.
Qed.

Lemma qsort_sorted b : Sorted le (qsort cmp b).
Proof. apply msort_with_tmp_sorted. reflexivity. Qed.

Lemma filter_key_none v (l : list A) :
  Forall (fun c => key c <> v) l -> filter (fun c => key c = v) l = [].
Proof.
  induction 1 as [|c l Hc Hl IH]; [reflexivity|].
  rewrite filter_cons_False by exact Hc. exact IH.
Qed.

(** The sort is stable: the elements of one key keep their order. *)
Lemma msort_merge_stable v b1 : forall b2,
  Sorted le b1 ->
  filter (fun c => key c = v) (msort_merge cmp b1 b2)
  = filter (fun c => key c = v) b1 ++ filter (fun c => key c = v) b2.
Proof.
  induction b1 as [|x b1 IH1]; intros b2 H1; [rewrite msort_merge_nil_l; reflexivity|].
  induction b2 as [|y b2 IH2]; [rewrite msort_merge_nil_r, app_nil_r; reflexivity|].
  rewrite msort_merge_cons. destruct (cmp x y <=? 0) eqn:E.
  - rewrite !(filter_cons _ x). rewrite IH1 by (apply Sorted_inv in H1; tauto).
    destruct (decide (key x = v)); reflexivity.
  - apply Z.leb_gt in E. assert (Hyx : key y < key x).
    { destruct (Z.le_gt_cases (key x) (key y)) as [Hle|Hgt]; [|lia].
      apply Hkey in Hle. lia. }
    rewrite !(filter_cons _ y), IH2.
    destruct (decide (key y = v)) as [Hv|Hv]; [|reflexivity].
    assert (Hnone : filter (fun c => key c = v) (x :: b1) = []).
    { assert (Htrans : Transitive le) by (intros a b c; unfold le; lia).
      apply Sorted_StronglySorted in H1; [|exact Htrans].
      apply StronglySorted_inv in H1 as [_ Hall].
      apply filter_key_none. constructor; [lia|].
      eapply Forall_impl; [exact Hall|]. intros c Hc. unfold le in Hc. lia. }
    rewrite Hnone. reflexivity.
Qed.

Lemma msort_with_tmp_stable v depth : forall b,
  (length b <= depth)%nat ->
  filter (fun c => key c = v) (msort_with_tmp depth cmp b) = filter (fun c => key c = v) b.
Proof.
  induction depth as [|depth IH]; intros b Hd; [reflexivity|].
  cbn [msort_with_tmp]. destruct (length b <=? 1)%nat eqn:Hn; [reflexivity|].
  destruct (msort_halves b depth Hd Hn) as [H1 H2].
  rewrite msort_merge_stable by (apply msort_with_tmp_sorted; exact H1).
  rewrite !IH by assumption. rewrite <- filter_app, take_drop. reflexivity.
Qed.

Lemma qsort_stable v b :
  filter (fun c => key c = v) (qsort cmp b) = filter (fun c => key c = v) b.
Proof. apply msort_with_tmp_stable. reflexivity. Qed.

End merge_sort.

Lemma symbol_cmp_le x y : symbol_cmp x y <= 0 <-> ordinal x <= ordinal y.
Proof. unfold symbol_cmp. destruct (ordinal y <? ordinal x) eqn:E; lia. Qed.

(** ** Enumerating the symbols *)

Lemma next_symbols_cells {R} (to_ordinal : Z -> Z) cells end_cell rest :
  symbol end_cell = None ->
  Forall (fun c => symbol c <> None) cells ->
  forall fuel k (sym : parsed_symbol R),
    (k <= length cells)%nat -> (length cells - k < fuel)%nat ->
    next_symbols to_ordinal fuel
      {| dll_symbols := Some (cells ++ end_cell :: rest);
         dll_current_symbol := Some k |} sym
    = Done (yielded to_ordinal <$> drop k cells).
Proof.
  intros Hend Hcells. induction fuel as [|fuel IH]; intros k sym Hk Hfuel; [lia|].
  cbn [next_symbols]. unfold dll_next_symbol.
  cbn [dll_current_symbol dll_symbols mbind option_bind].
  destruct (decide (k = length cells)) as [->|Hne].
  - rewrite list_lookup_middle by reflexivity. run.
    rewrite Hend. cbn [mbind outcome_bind Z.eqb].
    rewrite drop_all. reflexivity.
  - assert (Hlt : (k < length cells)%nat) by lia.
    destruct (lookup_lt_is_Some_2 cells k Hlt) as [c Hc].
    rewrite lookup_app_l, Hc by exact Hlt. run.
    rewrite Forall_forall in Hcells.
    pose proof (Hcells c (list_elem_of_lookup_2 _ _ _ Hc)) as Hsome.
    destruct (symbol c) as [s|] eqn:Hs; [|congruence].
    cbn [mbind outcome_bind Z.eqb]. rewrite IH by lia. cbn [mbind outcome_bind].
    rewrite (drop_S _ _ _ Hc), fmap_cons. unfold yielded at 2.
    cbn [sym_symbol sym_ordinal]. rewrite Hs. reflexivity.
Qed.

Lemma combined_symbols_named g t :
  Forall (fun c => symbol c <> None) (combined_symbols g t).
Proof.
  unfold combined_symbols. apply Forall_app. split.
  - unfold named_symbols. apply Forall_fmap, Forall_true. intros [o s]. discriminate.
  - generalize 0. induction (exp_funcs t) as [|func funcs IH]; intros i; [constructor|].
    cbn [ordinal_only]. apply Forall_app. split; [|apply IH].
    destruct (negb (func =? 0) && negb (claimed (exp_named t) i)); repeat constructor.
    discriminate.
Qed.

(** The ordinal of a symbol is a DWORD. *)
Lemma combined_symbols_range g t :
  Forall (fun c => 0 <= ordinal c < 2 ^ 32) (combined_symbols g t).
Proof.
  assert (Hd : forall x, 0 <= DWORD x < 2 ^ 32).
  { intros x. unfold DWORD, wrap. apply Z.mod_pos_bound. lia. }
  unfold combined_symbols. apply Forall_app. split.
  - unfold named_symbols. apply Forall_fmap, Forall_true. intros [o s]. apply Hd.
  - assert (Hi : forall funcs i,
              Forall (fun c => 0 <= ordinal c < 2 ^ 32)
                (ordinal_only g (exp_Base t) (exp_named t) i funcs)).
    { induction funcs as [|func funcs IH]; intros i; [constructor|].
      cbn [ordinal_only]. apply Forall_app. split; [|apply IH].
      destruct (negb (func =? 0) && negb (claimed (exp_named t) i)); repeat constructor;
        apply Hd. }
    apply Hi.
Qed.

(** C7 (as the code has it).  When the export tables can be read and
    [do_grab_sym] runs to its end, the combined list (named exports, then
    synthesized ordinal-only exports) has been sorted by the library's
    merge sort with [symbol_cmp]: the array holds the same symbols, none
    with a greater ordinal than its successor, and those of one ordinal
    in the order in which the combined list has them.  Successive
    [dll_next_symbol] calls yield the symbols in that order, each with its
    ordinal converted to the type of the caller's member; with the member
    an [int] the ordinals yielded never decrease as long as every ordinal
    is below 2^31. *)
Theorem C7_enumeration_order {R : Type} (to_ordinal : Z -> Z)
    (g : winedump_globals) (junk : nat -> dll_symbol) (f : pe_file)
    (st st' : enumerator) (t : export_tables) (sym : parsed_symbol R) :
  read_exports f = Some t ->
  do_grab_sym (@qsort dll_symbol) g junk f st = Done st' ->
  Permutation (qsort symbol_cmp (combined_symbols g t)) (combined_symbols g t) /\
  Sorted (fun x y => ordinal x <= ordinal y) (qsort symbol_cmp (combined_symbols g t)) /\
  (forall ord,
     filter (fun c => ordinal c = ord) (qsort symbol_cmp (combined_symbols g t))
     = filter (fun c => ordinal c = ord) (combined_symbols g t)) /\
  all_symbols to_ordinal st' sym
  = Done (yielded to_ordinal <$> qsort symbol_cmp (combined_symbols g t)) /\
  (Forall (fun c => ordinal c < 2 ^ 31) (combined_symbols g t) ->
   Sorted (fun a b => snd a <= snd b)
     (yielded to_int <$> qsort symbol_cmp (combined_symbols g t))).
Proof.
  intros Hread Hrun.
  pose proof (qsort_perm symbol_cmp (combined_symbols g t)) as Hperm.
  pose proof (qsort_sorted symbol_cmp ordinal symbol_cmp_le (combined_symbols g t))
    as Hsorted.
  split; [exact Hperm|]. split; [exact Hsorted|]. split; [|split].
  - intros ord. apply (qsort_stable symbol_cmp ordinal symbol_cmp_le).
  - apply (do_grab_sym_inv _ g junk f st st' t Hread) in Hrun as [-> Hroom];
      [|apply Permutation_length; exact Hperm].
    unfold all_symbols, built_symbols.
    cbn [dll_symbols default option_rect from_option].
    rewrite (next_symbols_cells (R := R)).
    + rewrite drop_0. reflexivity.
    + reflexivity.
    + rewrite Hperm. apply combined_symbols_named.
    + lia.
    + unfold id. rewrite length_app. cbn [length]. lia.
  - intros Hlow.
    assert (Hsame : yielded to_int <$> qsort symbol_cmp (combined_symbols g t)
                    = yielded id <$> qsort symbol_cmp (combined_symbols g t)).
    { apply Forall_fmap_ext_1. rewrite Hperm.
      pose proof (combined_symbols_range g t) as Hrange.
      rewrite Forall_forall in Hlow, Hrange |- *. intros c Hc.
      unfold yielded, id. rewrite to_int_small; [reflexivity|].
      specialize (Hlow c Hc). specialize (Hrange c Hc). lia. }
    rewrite Hsame. eapply Sorted_fmap; [|exact Hsorted].
    intros x y Hxy. exact Hxy.
Qed.

Lemma C7_enumeration_order_witness :
  do_grab_sym (@qsort dll_symbol) kernel32_globals stale alias_file no_symbols
  = Done {| dll_symbols :=
              Some [ {| ordinal := 1; symbol := Some "A"%string |};
                     {| ordinal := 2; symbol := Some "B1"%string |};
                     {| ordinal := 2; symbol := Some "B2"%string |};
                     {| ordinal := 0xDEAD; symbol := None |} ];
            dll_current_symbol := Some 0%nat |} /\
  all_symbols to_int
    {| dll_symbols :=
         Some [ {| ordinal := 1; symbol := Some "A"%string |};
                {| ordinal := 2; symbol := Some "B1"%string |};
                {| ordinal := 2; symbol := Some "B2"%string |};
                {| ordinal := 0xDEAD; symbol := None |} ];
       dll_current_symbol := Some 0%nat |}
    blank_symbol
  = Done [(Some "A"%string, 1); (Some "B1"%string, 2); (Some "B2"%string, 2)].
Proof.
  split; [vm_compute; reflexivity|].
  refine (eq_trans
            (proj1 (proj2 (proj2 (proj2
               (C7_enumeration_order to_int kernel32_globals stale alias_file
                  no_symbols _ alias_tables blank_symbol _ _))))) _).
  - vm_compute. reflexivity.
  - vm_compute. reflexivity.
  - vm_compute. reflexivity.
Defined.

(** C7 as stated fails where it has the ordinals yielded never decrease.
    The three functions of this image have ordinals 2147483646, 2147483647
    and 2147483648, and that is the order of the array; the member of the
    caller's structure is an [int], and for the third symbol
    [dll_next_symbol] leaves -2147483648 there. *)
Lemma C7_int_ordinal_counterexample :
  do_grab_sym (@qsort dll_symbol) kernel32_globals stale high_ordinals_file no_symbols
  = Done {| dll_symbols :=
              Some [ {| ordinal := 2147483646; symbol := Some "KERNEL32_2147483646"%string |};
                     {| ordinal := 2147483647; symbol := Some "Named"%string |};
                     {| ordinal := 2147483648; symbol := Some "KERNEL32_2147483648"%string |};
                     {| ordinal := 0xDEAD; symbol := None |} ];
            dll_current_symbol := Some 0%nat |} /\
  (st' ← do_grab_sym (@qsort dll_symbol) kernel32_globals stale high_ordinals_file no_symbols;
   all_symbols to_int st' blank_symbol)
  = Done [(Some "KERNEL32_2147483646"%string, 2147483646);
          (Some "Named"%string, 2147483647);
          (Some "KERNEL32_2147483648"%string, -2147483648)].
Proof. split; vm_compute; reflexivity. Qed.

(** ** Synthesized names *)

Lemma substring_all s : forall n, (String.length s <= n)%nat -> substring 0 n s = s.
Proof.
  induction s as [|c s IH]; intros n Hn.
  - destruct n; reflexivity.
  - destruct n as [|n]; [cbn in Hn; lia|]. cbn [substring]. f_equal.
    apply IH. cbn in Hn. lia.
Qed.

Lemma ordinal_name_fits g ord :
  (String.length (module_name g ++ "_" ++ decimal ord) <= 255)%nat ->
  ordinal_name g ord = spec_ordinal_name g ord.
Proof.
  intros Hfit. unfold ordinal_name, spec_ordinal_name, snprintf.
  change (256 - 1)%nat with 255%nat. rewrite substring_all by exact Hfit. reflexivity.
Qed.

Lemma claimed_false named i : claimed named i = false <-> i ∉ (fst <$> named).
Proof. unfold claimed. apply bool_decide_eq_false. Qed.

Lemma ordinal_only_elem g Base named funcs : forall i c,
  c ∈ ordinal_only g Base named i funcs <->
  exists (k : nat) func,
    funcs !! k = Some func /\ func <> 0 /\
    ((i + Z.of_nat k) ∉ (fst <$> named)) /\
    c = {| ordinal := DWORD (Base + (i + Z.of_nat k));
           symbol := Some (ordinal_name g (DWORD (Base + (i + Z.of_nat k)))) |}.
Proof.
  induction funcs as [|func funcs IH]; intros i c; cbn [ordinal_only].
  - split; [intros H; inversion H|intros (k & func & H & _); discriminate].
  - rewrite elem_of_app, IH. split.
    + intros [Hhere|(k & func' & Hk & Hnz & Hun & ->)].
      * destruct (func =? 0) eqn:Hz; cbn [negb andb] in Hhere; [inversion Hhere|].
        destruct (claimed named i) eqn:Hc; cbn [negb] in Hhere; [inversion Hhere|].
        apply list_elem_of_singleton in Hhere as ->.
        exists 0%nat, func. rewrite Z.add_0_r.
        split; [reflexivity|]. split; [lia|]. split; [|reflexivity].
        apply claimed_false. exact Hc.
      * exists (S k), func'. replace (i + Z.of_nat (S k)) with (i + 1 + Z.of_nat k) by lia.
        repeat split; assumption.
    + intros (k & func' & Hk & Hnz & Hun & ->). destruct k as [|k].
      * left. cbn in Hk. injection Hk as ->. rewrite Z.add_0_r in *.
        destruct (func' =? 0) eqn:Hz; [lia|].
        apply claimed_false in Hun. rewrite Hun. cbn [negb andb]. left.
      * right. exists k, func'.
        replace (i + 1 + Z.of_nat k) with (i + Z.of_nat (S k)) by lia.
        repeat split; assumption.
Qed.



(** * Properties of the rest of pe.c *)

(** ** printf's conversions *)

Lemma length_low_digits base k n : length (low_digits base k n) = k.
Proof.
  revert n. induction k as [|k IH]; intros n; [reflexivity|].
  cbn [low_digits]. rewrite length_app, IH. cbn. lia.
Qed.

Lemma digit_count_le bits n (k : nat) :
  0 < bits -> (1 <= k)%nat -> n < 2 ^ (bits * Z.of_nat k) -> (digit_count bits n <= k)%nat.
Proof.
  intros Hbits Hk Hn. unfold digit_count.
  destruct (n <=? 0) eqn:Hz; [exact Hk|].
  apply Z.leb_gt in Hz.
  assert (Z.log2 n < bits * Z.of_nat k) as Hlog by (apply Z.log2_lt_pow2; lia).
  assert (Z.log2 n / bits < Z.of_nat k) by (apply Z.div_lt_upper_bound; lia).
  pose proof (Z.log2_nonneg n).
  assert (0 <= Z.log2 n / bits) by (apply Z.div_pos; lia).
  lia.
Qed.

Lemma length_printf_x width n (k : nat) :
  (1 <= k)%nat -> (width <= k)%nat -> n < 2 ^ (4 * Z.of_nat k) ->
  (length (printf_x width n) <= k)%nat.
Proof.
  intros Hk Hw Hn. unfold printf_x. rewrite length_low_digits.
  pose proof (digit_count_le 4 n k ltac:(lia) Hk Hn). lia.
Qed.

Lemma length_printf_o width n (k : nat) :
  (1 <= k)%nat -> (width <= k)%nat -> n < 2 ^ (3 * Z.of_nat k) ->
  (length (printf_o width n) <= k)%nat.
Proof.
  intros Hk Hw Hn. unfold printf_o. rewrite length_low_digits.
  pose proof (digit_count_le 3 n k ltac:(lia) Hk Hn). lia.
Qed.

(** ** Escaped strings *)

Lemma length_control_text v rest : 0 <= v < 32 -> (length (control_text v rest) <= 4)%nat.
Proof.
  intros Hv. unfold control_text.
  destruct ((v =? 0) && bool_decide (rest = [])); [cbn; lia|].
  destruct (escapes !! Z.to_nat v) as [e|]; [|cbn; lia].
  destruct (negb (byte_value e =? byte_value ".")); [cbn; lia|].
  destruct (octal_follows rest); cbn [length];
    pose proof (length_printf_o 3 v 3 ltac:(lia) ltac:(lia) ltac:(cbn; lia));
    pose proof (length_printf_o 0 v 3 ltac:(lia) ltac:(lia) ltac:(cbn; lia)); lia.
Qed.

Lemma length_plain_text v : (length (plain_text v) <= 2)%nat.
Proof. unfold plain_text. destruct (v =? byte_value backslash); cbn; lia. Qed.

Lemma length_strA_text v rest : 0 <= v < 256 -> (length (strA_text v rest) <= 4)%nat.
Proof.
  intros Hv. unfold strA_text.
  destruct (127 <? v) eqn:H1.
  - rewrite length_app. change (length (chars "\x")) with 2%nat.
    pose proof (length_printf_x 2 v 2 ltac:(lia) ltac:(lia) ltac:(cbn; lia)). lia.
  - apply Z.ltb_ge in H1. destruct (v <? 32) eqn:H2.
    + apply Z.ltb_lt in H2. apply length_control_text. lia.
    + pose proof (length_plain_text v). lia.
Qed.

Lemma length_strW_text v rest : 0 <= v < 65536 -> (length (strW_text v rest) <= 6)%nat.
Proof.
  intros Hv. unfold strW_text.
  destruct (127 <? v) eqn:H1.
  - pose proof (length_printf_x 4 v 4 ltac:(lia) ltac:(lia) ltac:(cbn; lia)).
    pose proof (length_printf_x 0 v 4 ltac:(lia) ltac:(lia) ltac:(cbn; lia)).
    destruct (xdigit_follows rest); rewrite length_app;
      change (length (chars "\x")) with 2%nat; lia.
  - apply Z.ltb_ge in H1. destruct (v <? 32) eqn:H2.
    + apply Z.ltb_lt in H2. pose proof (length_control_text v rest). lia.
    + pose proof (length_plain_text v). lia.
Qed.

Lemma sprintf_stored b text :
  pos b <= 248 -> (length text <= 6)%nat -> sprintf b text = Done (stored b text).
Proof.
  intros Hpos Hlen. unfold sprintf, sizeof_buffer.
  destruct (pos b + Z.of_nat (length text) + 1 <=? 256) eqn:H; [reflexivity|].
  apply Z.leb_gt in H. lia.
Qed.

Lemma put_stored b c : pos b <= 249 -> put b c = Done (stored b [c]).
Proof.
  intros Hpos. unfold put, sizeof_buffer.
  destruct (pos b + 1 <=? 256) eqn:H; [reflexivity|]. apply Z.leb_gt in H. lia.
Qed.

Lemma stored_nil b : Done (stored b []) = Done b.
Proof. destruct b. unfold stored. cbn. rewrite app_nil_r. reflexivity. Qed.

Lemma control_escape_stored v rest b :
  0 <= v < 32 -> pos b <= 248 ->
  control_escape v rest b = Done (stored b (control_text v rest)).
Proof.
  intros Hv Hpos. pose proof (length_control_text v rest Hv) as Hlen.
  unfold control_escape, control_text in *.
  destruct ((v =? 0) && bool_decide (rest = [])); [symmetry; apply stored_nil|].
  unfold fetch. destruct (v <? 0) eqn:Hneg; [apply Z.ltb_lt in Hneg; lia|].
  destruct (escapes !! Z.to_nat v) as [e|] eqn:He.
  - run. destruct (negb (byte_value e =? byte_value ".")).
    + apply sprintf_stored; [exact Hpos|cbn; lia].
    + destruct (octal_follows rest); apply sprintf_stored; try exact Hpos; lia.
  - apply lookup_ge_None in He. change (length escapes) with 32%nat in He. lia.
Qed.

Lemma plain_char_stored v b :
  pos b <= 248 -> plain_char v b = Done (stored b (plain_text v)).
Proof.
  intros Hpos. unfold plain_char, plain_text.
  destruct (v =? byte_value backslash).
  - rewrite put_stored by lia. run. rewrite put_stored.
    + unfold stored. cbn. rewrite <- app_assoc. reflexivity.
    + unfold pos, stored in *. cbn. rewrite length_app. cbn. lia.
  - run. apply put_stored. lia.
Qed.

Lemma dump_strA_char_stored v rest b :
  0 <= v < 256 -> pos b <= 248 ->
  dump_strA_char v rest b = Done (stored b (strA_text v rest)).
Proof.
  intros Hv Hpos. pose proof (length_strA_text v rest Hv) as Hlen.
  unfold dump_strA_char, strA_text in *.
  destruct (127 <? v) eqn:H1; [apply sprintf_stored; [exact Hpos|lia]|].
  apply Z.ltb_ge in H1. destruct (v <? 32) eqn:H2.
  - apply Z.ltb_lt in H2. apply control_escape_stored; [lia|exact Hpos].
  - apply plain_char_stored. exact Hpos.
Qed.

Lemma dump_strW_char_stored v rest b :
  0 <= v < 65536 -> pos b <= 248 ->
  dump_strW_char v rest b = Done (stored b (strW_text v rest)).
Proof.
  intros Hv Hpos. pose proof (length_strW_text v rest Hv) as Hlen.
  unfold dump_strW_char, strW_text in *.
  destruct (127 <? v) eqn:H1.
  - destruct (xdigit_follows rest); apply sprintf_stored; try exact Hpos; lia.
  - apply Z.ltb_ge in H1. destruct (v <? 32) eqn:H2.
    + apply Z.ltb_lt in H2. apply control_escape_stored; [lia|exact Hpos].
    + apply plain_char_stored. exact Hpos.
Qed.

Lemma dump_strA_loop_escape str b :
  dump_strA_loop str b = escape_loop dump_strA_char str b.
Proof.
  revert b. induction str as [|v rest IH]; intros b; [reflexivity|].
  cbn [dump_strA_loop escape_loop]. destruct (make_room b); try reflexivity.
  run. destruct (dump_strA_char v rest a); try reflexivity. run. apply IH.
Qed.

Lemma dump_strW_loop_escape str b :
  dump_strW_loop str b = escape_loop dump_strW_char str b.
Proof.
  revert b. induction str as [|v rest IH]; intros b; [reflexivity|].
  cbn [dump_strW_loop escape_loop]. destruct (make_room b); try reflexivity.
  run. destruct (dump_strW_char v rest a); try reflexivity. run. apply IH.
Qed.

(** The loop over a body that stores [text v rest] for every character the
    predicate [ok] accepts, at most six bytes of it: the buffer is flushed
    in time, and only an [int] too small for the count stops the loop. *)
Section buffered.
Variable ok : Z -> Prop.
Variable body : Z -> list Z -> strbuf -> outcome strbuf.
Variable text : Z -> list Z -> list byte.
Hypothesis body_stored : forall v rest b,
  ok v -> pos b <= 248 -> body v rest b = Done (stored b (text v rest)).
Hypothesis text_short : forall v rest, ok v -> (length (text v rest) <= 6)%nat.

Lemma escape_loop_run str b :
  Forall ok str -> count b = Z.of_nat (length (stdout b)) -> pos b <= 254 ->
  (exists b', escape_loop body str b = Done b' /\
     count b' = Z.of_nat (length (stdout b')) /\ pos b' <= 254 /\
     stdout b' ++ buffer b' = stdout b ++ buffer b ++ escaped text str) \/
  (escape_loop body str b = Fault /\
   INT_MAX < Z.of_nat (length (stdout b ++ buffer b ++ escaped text str))).
Proof.
  intros Hok. revert b. induction Hok as [|v rest Hv Hrest IH]; intros b Hcount Hpos.
  - left. exists b. cbn [escape_loop escaped]. rewrite app_nil_r. auto.
  - cbn [escape_loop escaped].
    assert ((exists b1, make_room b = Done b1 /\
               count b1 = Z.of_nat (length (stdout b1)) /\ pos b1 <= 248 /\
               stdout b1 ++ buffer b1 = stdout b ++ buffer b) \/
            (make_room b = Fault /\ INT_MAX < Z.of_nat (length (stdout b ++ buffer b))))
      as [(b1 & -> & Hcount1 & Hpos1 & Hout1)|[-> Hbig]].
    { unfold make_room, sizeof_buffer.
      destruct (256 - 8 <? pos b) eqn:Hfull.
      - unfold fwrite_buffer. destruct (count b + pos b <=? INT_MAX) eqn:Hint.
        + left. eexists. split; [reflexivity|]. unfold rewind, pos. cbn.
          rewrite app_nil_r, length_app. unfold pos in *. repeat split; lia.
        + right. apply Z.leb_gt in Hint. split; [reflexivity|].
          rewrite length_app. unfold pos in *. lia.
      - apply Z.ltb_ge in Hfull. left. exists b. repeat split; [exact Hcount|lia]. }
    + run. rewrite body_stored by assumption. run.
      pose proof (text_short v rest Hv) as Hshort.
      destruct (IH (stored b1 (text v rest))) as [(b' & Hrun & Hc & Hp & Hout)|[Hrun Hbig]].
      * exact Hcount1.
      * unfold pos, stored in *. cbn. rewrite length_app. lia.
      * left. exists b'. repeat split; try assumption.
        rewrite Hout. unfold stored. cbn [stdout buffer].
        rewrite <- !app_assoc, (app_assoc (stdout b1)), Hout1, <- !app_assoc. reflexivity.
      * right. split; [exact Hrun|].
        revert Hbig. unfold stored. cbn [stdout buffer].
        rewrite <- !app_assoc, (app_assoc (stdout b1)), Hout1, <- !app_assoc. auto.
    + right. split; [reflexivity|]. revert Hbig. rewrite !length_app. lia.
Qed.

Lemma escape_loop_written str :
  Forall ok str ->
  (b ← escape_loop body str empty_buffer; b ← fwrite_buffer b; Done (stdout b, count b))
  = written (escaped text str).
Proof.
  intros Hok. unfold written.
  destruct (escape_loop_run str empty_buffer Hok eq_refl ltac:(unfold pos; cbn; lia))
    as [(b' & -> & Hc & Hp & Hout)|[-> Hbig]].
  - run. cbn [empty_buffer stdout buffer app] in Hout. rewrite <- Hout.
    unfold fwrite_buffer, pos. rewrite Hc, length_app, Nat2Z.inj_add.
    destruct (_ <=? INT_MAX); reflexivity.
  - cbn [empty_buffer stdout buffer app] in Hbig.
    destruct (_ <=? INT_MAX) eqn:H; [apply Z.leb_le in H; lia|reflexivity].
Qed.
End buffered.


Lemma Forall_byte_value (str : list byte) :
  Forall (fun v => 0 <= v < 256) (byte_value <$> str).
Proof. apply Forall_fmap, Forall_forall. intros b _. apply byte_value_range. Qed.

Lemma dump_strA_written (str : list byte) :
  dump_strA str = written (escaped strA_text (byte_value <$> str)).
Proof.
  unfold dump_strA. rewrite dump_strA_loop_escape.
  apply (escape_loop_written (fun v => 0 <= v < 256)).
  - intros v rest b. apply dump_strA_char_stored.
  - intros v rest Hv. pose proof (length_strA_text v rest Hv). lia.
  - apply Forall_byte_value.
Qed.

Lemma dump_strW_written (str : list Z) :
  Forall (fun v => 0 <= v < 65536) str ->
  dump_strW str = written (escaped strW_text str).
Proof.
  intros Hstr. unfold dump_strW. rewrite dump_strW_loop_escape.
  apply (escape_loop_written (fun v => 0 <= v < 65536)).
  - intros v rest b. apply dump_strW_char_stored.
  - intros v rest Hv. apply length_strW_text. exact Hv.
  - exact Hstr.
Qed.

Lemma written_Done out r n : written out = Done (r, n) -> r = out /\ n = Z.of_nat (length out).
Proof.
  unfold written. destruct (_ <=? INT_MAX); [|discriminate].
  intros [= <- <-]. split; reflexivity.
Qed.

(** *** The characters written *)

Lemma byte_value_byte_of v : 0 <= v < 256 -> byte_value (byte_of v) = v.
Proof.
  intros Hv. unfold byte_of, byte_value. rewrite Z.mod_small by exact Hv.
  destruct (Byte.of_N (Z.to_N v)) as [b|] eqn:Hb.
  - apply Byte.to_of_N in Hb. unfold default, id. cbn [from_option]. rewrite Hb. lia.
  - apply Byte.of_N_None_iff in Hb. lia.
Qed.

Lemma byte_value_digit d :
  0 <= d < 16 -> byte_value (digit d) = if d <? 10 then 48 + d else 87 + d.
Proof.
  intros Hd. unfold digit. apply byte_value_byte_of. destruct (d <? 10) eqn:H.
  - apply Z.ltb_lt in H. lia.
  - apply Z.ltb_ge in H. lia.
Qed.

Lemma plain_byte_digit d : 0 <= d < 16 -> plain_byte (digit d).
Proof.
  intros Hd. unfold plain_byte. rewrite byte_value_digit by exact Hd.
  destruct (d <? 10); lia.
Qed.

Lemma Forall_low_digits base k n :
  0 < base <= 16 -> Forall plain_byte (low_digits base k n).
Proof.
  intros Hbase. revert n. induction k as [|k IH]; intros n; [constructor|].
  cbn [low_digits]. apply Forall_app. split; [apply IH|].
  constructor; [|constructor]. apply plain_byte_digit.
  pose proof (Z.mod_pos_bound n base). lia.
Qed.

Lemma Forall_escapes : Forall plain_byte escapes.
Proof. unfold plain_byte. repeat constructor; cbn; lia. Qed.

Lemma plain_backslash : plain_byte backslash.
Proof. unfold plain_byte. cbn. lia. Qed.

Lemma Forall_control_text v rest : Forall plain_byte (control_text v rest).
Proof.
  unfold control_text.
  destruct ((v =? 0) && bool_decide (rest = [])); [constructor|].
  destruct (escapes !! Z.to_nat v) as [e|] eqn:He; [|constructor].
  destruct (negb (byte_value e =? byte_value ".")).
  - constructor; [apply plain_backslash|]. constructor; [|constructor].
    eapply Forall_lookup_1; [apply Forall_escapes|exact He].
  - destruct (octal_follows rest); constructor; try apply plain_backslash;
      apply Forall_low_digits; lia.
Qed.

Lemma Forall_plain_text v : 32 <= v <= 127 -> Forall plain_byte (plain_text v).
Proof.
  intros Hv. unfold plain_text. apply Forall_app. split.
  - destruct (v =? byte_value backslash); [|constructor].
    constructor; [apply plain_backslash|constructor].
  - constructor; [|constructor]. unfold plain_byte. rewrite byte_value_byte_of; lia.
Qed.

Lemma Forall_hex_escape width v : Forall plain_byte (chars "\x" ++ printf_x width v).
Proof.
  apply Forall_app. split.
  - unfold plain_byte. constructor; [cbn; lia|]. constructor; [cbn; lia|constructor].
  - apply Forall_low_digits. lia.
Qed.

Lemma Forall_strA_text v rest : Forall plain_byte (strA_text v rest).
Proof.
  unfold strA_text. destruct (127 <? v) eqn:H1; [apply Forall_hex_escape|].
  destruct (v <? 32) eqn:H2; [apply Forall_control_text|].
  apply Forall_plain_text. apply Z.ltb_ge in H1, H2. lia.
Qed.

Lemma Forall_strW_text v rest : Forall plain_byte (strW_text v rest).
Proof.
  unfold strW_text. destruct (127 <? v) eqn:H1.
  - destruct (xdigit_follows rest); apply Forall_hex_escape.
  - destruct (v <? 32) eqn:H2; [apply Forall_control_text|].
    apply Forall_plain_text. apply Z.ltb_ge in H1, H2. lia.
Qed.

Lemma Forall_escaped (P : byte -> Prop) text str :
  (forall v rest, Forall P (text v rest)) -> Forall P (escaped text str).
Proof.
  intros Htext. induction str as [|v rest IH]; [constructor|].
  cbn [escaped]. apply Forall_app. split; [apply Htext|exact IH].
Qed.

(** *** The text determines the string *)

Lemma octal_value_digit d : 0 <= d < 8 -> octal_value (digit d) = Some d.
Proof.
  intros Hd. unfold octal_value. rewrite byte_value_digit by lia.
  destruct (d <? 10) eqn:H; [|apply Z.ltb_ge in H; lia].
  destruct ((48 <=? 48 + d) && (48 + d <=? 55)) eqn:H1; [f_equal; lia|].
  apply andb_false_iff in H1 as [H1|H1]; apply Z.leb_gt in H1; lia.
Qed.

Lemma hex_value_digit d : 0 <= d < 16 -> hex_value (digit d) = Some d.
Proof.
  intros Hd. unfold hex_value. rewrite byte_value_digit by lia.
  destruct (d <? 10) eqn:H.
  - apply Z.ltb_lt in H.
    destruct ((48 <=? 48 + d) && (48 + d <=? 57)) eqn:H1; [f_equal; lia|].
    apply andb_false_iff in H1 as [H1|H1]; apply Z.leb_gt in H1; lia.
  - apply Z.ltb_ge in H.
    destruct ((48 <=? 87 + d) && (87 + d <=? 57)) eqn:H1.
    { apply andb_true_iff in H1 as [_ H1]. apply Z.leb_le in H1. lia. }
    destruct ((97 <=? 87 + d) && (87 + d <=? 102)) eqn:H2; [f_equal; lia|].
    apply andb_false_iff in H2 as [H2|H2]; apply Z.leb_gt in H2; lia.
Qed.

(** Reading the digits [printf] wrote gives the number back. *)
Lemma read_low_digits value base (k : nat) : forall n maxn acc l,
  1 < base ->
  (forall d, 0 <= d < base -> value (digit d) = Some d) ->
  (k <= maxn)%nat -> 0 <= n < base ^ Z.of_nat k ->
  read_digits value base maxn acc (low_digits base k n ++ l)
  = read_digits value base (maxn - k) (acc * base ^ Z.of_nat k + n) l.
Proof.
  induction k as [|k IH]; intros n maxn acc l Hbase Hvalue Hk Hn.
  - cbn [low_digits app]. rewrite Nat.sub_0_r. f_equal. cbn in Hn. cbn. lia.
  - cbn [low_digits]. rewrite <- app_assoc. cbn [app].
    rewrite Nat2Z.inj_succ, Z.pow_succ_r in Hn by lia.
    rewrite IH; try assumption; try lia.
    2:{ split; [apply Z.div_pos; lia|apply Z.div_lt_upper_bound; lia]. }
    destruct (maxn - k)%nat as [|m] eqn:Hm; [lia|].
    cbn [read_digits]. rewrite Hvalue by (apply Z.mod_pos_bound; lia).
    replace (maxn - S k)%nat with m by lia. f_equal.
    rewrite Nat2Z.inj_succ, Z.pow_succ_r by lia.
    pose proof (Z.div_mod n base ltac:(lia)). nia.
Qed.

Lemma read_digits_stop value base n acc l :
  n = 0%nat \/ match l with [] => True | c :: _ => value c = None end ->
  read_digits value base n acc l = (acc, l).
Proof.
  intros [->|Hl]; [destruct l; reflexivity|].
  destruct n; [destruct l; reflexivity|].
  destruct l as [|c l]; [reflexivity|]. cbn [read_digits]. rewrite Hl. reflexivity.
Qed.

Lemma digit_count_bound bits n :
  0 < bits -> 0 <= n -> n < 2 ^ (bits * Z.of_nat (digit_count bits n)).
Proof.
  intros Hbits Hn. unfold digit_count. destruct (n <=? 0) eqn:Hz.
  - apply Z.leb_le in Hz. assert (n = 0) as -> by lia. apply Z.pow_pos_nonneg; lia.
  - apply Z.leb_gt in Hz. pose proof (Z.log2_nonneg n).
    assert (0 <= Z.log2 n / bits) by (apply Z.div_pos; lia).
    rewrite Z2Nat.id by lia.
    pose proof (proj2 (Z.log2_spec n Hz)) as Hlt.
    eapply Z.lt_le_trans; [exact Hlt|]. apply Z.pow_le_mono_r; [lia|].
    pose proof (Z.div_mod (Z.log2 n) bits ltac:(lia)).
    pose proof (Z.mod_pos_bound (Z.log2 n) bits Hbits). nia.
Qed.

Lemma pow2_bits bits (k : nat) : 0 <= bits -> 2 ^ (bits * Z.of_nat k) = (2 ^ bits) ^ Z.of_nat k.
Proof. intros Hbits. apply Z.pow_mul_r; lia. Qed.

Lemma read_printf_x width v maxn l :
  0 <= v -> (Nat.max width (digit_count 4 v) <= maxn)%nat ->
  (Nat.max width (digit_count 4 v) = maxn \/
   match l with [] => True | c :: _ => hex_value c = None end) ->
  read_digits hex_value 16 maxn 0 (printf_x width v ++ l) = (v, l).
Proof.
  intros Hv Hmax Hstop. unfold printf_x.
  set (k := Nat.max width (digit_count 4 v)) in *.
  assert (v < 16 ^ Z.of_nat k) as Hlt.
  { change 16 with (2 ^ 4). rewrite <- pow2_bits by lia.
    eapply Z.lt_le_trans; [apply (digit_count_bound 4 v); lia|].
    apply Z.pow_le_mono_r; lia. }
  rewrite read_low_digits; try lia; [|apply hex_value_digit].
  rewrite read_digits_stop; [f_equal; lia|].
  destruct Hstop as [Hstop|Hstop]; [left; lia|right; exact Hstop].
Qed.

Lemma read_printf_o width v maxn l :
  0 <= v -> (Nat.max width (digit_count 3 v) <= maxn)%nat ->
  (Nat.max width (digit_count 3 v) = maxn \/
   match l with [] => True | c :: _ => octal_value c = None end) ->
  read_digits octal_value 8 maxn 0 (printf_o width v ++ l) = (v, l).
Proof.
  intros Hv Hmax Hstop. unfold printf_o.
  set (k := Nat.max width (digit_count 3 v)) in *.
  assert (v < 8 ^ Z.of_nat k) as Hlt.
  { change 8 with (2 ^ 3). rewrite <- pow2_bits by lia.
    eapply Z.lt_le_trans; [apply (digit_count_bound 3 v); lia|].
    apply Z.pow_le_mono_r; lia. }
  rewrite read_low_digits; try lia; [|apply octal_value_digit].
  rewrite read_digits_stop; [f_equal; lia|].
  destruct Hstop as [Hstop|Hstop]; [left; lia|right; exact Hstop].
Qed.

Lemma low_digits_head base (k : nat) : forall n,
  0 < base -> (1 <= k)%nat ->
  exists d l, 0 <= d < base /\ low_digits base k n = digit d :: l.
Proof.
  induction k as [|k IH]; intros n Hbase Hk; [lia|].
  cbn [low_digits]. destruct k as [|k].
  - exists (n mod base), []. split; [apply Z.mod_pos_bound; lia|reflexivity].
  - destruct (IH (n / base) Hbase ltac:(lia)) as (d & l & Hd & ->).
    exists d, (l ++ [digit (n mod base)]). split; [exact Hd|reflexivity].
Qed.

(** The letters of the table [escapes]: none is a backslash or an x, and
    each stands for the one character it is listed under. *)
Lemma escapes_code (i : nat) e :
  escapes !! i = Some e -> byte_value e <> byte_value "." ->
  byte_value e <> byte_value backslash /\ byte_value e <> byte_value "x" /\
  escape_code e = Some (Z.of_nat i).
Proof.
  intros Hi Hdot.
  do 32 (destruct i as [|i];
         [injection Hi as <-;
          first [exfalso; apply Hdot; reflexivity
                |split; [|split]; vm_compute; congruence]|]).
  discriminate.
Qed.

Lemma escape_code_digit d :
  0 <= d < 8 ->
  byte_value (digit d) <> byte_value backslash /\
  byte_value (digit d) <> byte_value "x" /\
  escape_code (digit d) = None.
Proof.
  intros Hd.
  assert (d = 0 \/ d = 1 \/ d = 2 \/ d = 3 \/ d = 4 \/ d = 5 \/ d = 6 \/ d = 7)
    as [->|[->|[->|[->|[->|[->|[->| ->]]]]]]] by lia;
    (split; [|split]); vm_compute; congruence.
Qed.

Lemma control_text_head v rest :
  0 <= v < 32 ->
  (control_text v rest = [] /\ v = 0 /\ rest = []) \/
  (exists l, control_text v rest = backslash :: l).
Proof.
  intros Hv. unfold control_text.
  destruct ((v =? 0) && bool_decide (rest = [])) eqn:Hnul.
  - left. apply andb_true_iff in Hnul as [H0 Hrest].
    apply Z.eqb_eq in H0. apply bool_decide_eq_true in Hrest. auto.
  - right. destruct (escapes !! Z.to_nat v) as [e|] eqn:He.
    + destruct (negb (byte_value e =? byte_value ".")); [eexists; reflexivity|].
      destruct (octal_follows rest); eexists; reflexivity.
    + apply lookup_ge_None in He. change (length escapes) with 32%nat in He. lia.
Qed.

Lemma plain_text_head v :
  (exists l, plain_text v = backslash :: l) \/
  (v <> byte_value backslash /\ plain_text v = [byte_of v]).
Proof.
  unfold plain_text. destruct (v =? byte_value backslash) eqn:Hb.
  - left. eexists. reflexivity.
  - right. apply Z.eqb_neq in Hb. auto.
Qed.

Lemma strA_text_head v rest : 0 <= v < 256 -> text_head strA_text v rest.
Proof.
  intros Hv. unfold text_head, strA_text.
  destruct (127 <? v) eqn:H1; [right; left; eexists; reflexivity|].
  apply Z.ltb_ge in H1. destruct (v <? 32) eqn:H2.
  - apply Z.ltb_lt in H2.
    destruct (control_text_head v rest) as [H|H]; [lia|left; exact H|right; left; exact H].
  - apply Z.ltb_ge in H2. right.
    destruct (plain_text_head v) as [H|[Hb H]]; [left; exact H|right].
    repeat split; try assumption; lia.
Qed.

Lemma strW_text_head v rest : 0 <= v < 65536 -> text_head strW_text v rest.
Proof.
  intros Hv. unfold text_head, strW_text.
  destruct (127 <? v) eqn:H1.
  { right. left. destruct (xdigit_follows rest); eexists; reflexivity. }
  apply Z.ltb_ge in H1. destruct (v <? 32) eqn:H2.
  - apply Z.ltb_lt in H2.
    destruct (control_text_head v rest) as [H|H]; [lia|left; exact H|right; left; exact H].
  - apply Z.ltb_ge in H2. right.
    destruct (plain_text_head v) as [H|[Hb H]]; [left; exact H|right].
    repeat split; try assumption; lia.
Qed.

Lemma octal_value_backslash : octal_value backslash = None.
Proof. reflexivity. Qed.

Lemma hex_value_backslash : hex_value backslash = None.
Proof. reflexivity. Qed.

Section determined.
Variable ok : Z -> Prop.
Variable text : Z -> list Z -> list byte.
Variable hexmax : nat.
Hypothesis text_heads : forall v rest, ok v -> text_head text v rest.
Hypothesis text_nul : text 0 [] = [].

Lemma escaped_head rest c l :
  Forall ok rest -> escaped text rest = c :: l ->
  c = backslash \/
  exists next rest', rest = next :: rest' /\ 32 <= next <= 127 /\ c = byte_of next.
Proof.
  intros Hok Hhead. destruct Hok as [|next rest' Hnext Hrest]; [discriminate|].
  cbn [escaped] in Hhead.
  destruct (text_heads next rest' Hnext) as [(Ht & _ & ->)|[[l' Ht]|(Hv & _ & Ht)]];
    rewrite Ht in Hhead.
  - discriminate.
  - injection Hhead as <- _. left. reflexivity.
  - injection Hhead as <- _. right. exists next, rest'. auto.
Qed.

Lemma octal_stops rest :
  Forall ok rest -> octal_follows rest = false ->
  match escaped text rest with [] => True | c :: _ => octal_value c = None end.
Proof.
  intros Hok Hno. destruct (escaped text rest) as [|c l] eqn:Hhead; [exact I|].
  destruct (escaped_head rest c l Hok Hhead) as [->|(next & rest' & -> & Hnext & ->)];
    [reflexivity|].
  cbn [octal_follows] in Hno. unfold octal_value.
  rewrite byte_value_byte_of by lia. rewrite Hno. reflexivity.
Qed.

Lemma hex_stops rest :
  Forall ok rest -> xdigit_follows rest = false ->
  match escaped text rest with [] => True | c :: _ => hex_value c = None end.
Proof.
  intros Hok Hno. destruct (escaped text rest) as [|c l] eqn:Hhead; [exact I|].
  destruct (escaped_head rest c l Hok Hhead) as [->|(next & rest' & -> & Hnext & ->)];
    [reflexivity|].
  cbn [xdigit_follows] in Hno. unfold hex_value.
  rewrite byte_value_byte_of by lia.
  destruct (next <? 128) eqn:H128; [|apply Z.ltb_ge in H128; lia].
  cbn [andb] in Hno. unfold isxdigit in Hno.
  apply orb_false_iff in Hno as [Hno _]. apply orb_false_iff in Hno as [-> ->].
  reflexivity.
Qed.

Hypothesis text_read : forall v rest,
  ok v -> Forall ok rest -> text v rest <> [] ->
  unescape_char hexmax (text v rest ++ escaped text rest)
  = Some (v, escaped text rest).

Lemma text_empty v rest : ok v -> text v rest = [] -> v = 0 /\ rest = [].
Proof.
  intros Hv Ht. destruct (text_heads v rest Hv) as [(_ & H0 & Hr)|[[l H]|(_ & _ & H)]];
    [auto|rewrite Ht in H; discriminate..].
Qed.

Lemma escaped_nil str : Forall ok str -> escaped text str = [] -> unterminated str = [].
Proof.
  intros Hok Hnil. destruct Hok as [|v rest Hv Hrest]; [reflexivity|].
  cbn [escaped] in Hnil. apply app_eq_nil in Hnil as [Ht _].
  destruct (text_empty v rest Hv Ht) as [-> ->]. reflexivity.
Qed.

Lemma unterminated_cons v rest :
  text v rest <> [] -> unterminated (v :: rest) = v :: unterminated rest.
Proof.
  intros Ht. cbn [unterminated].
  destruct ((v =? 0) && bool_decide (rest = [])) eqn:Hnul; [|reflexivity].
  apply andb_true_iff in Hnul as [H0 Hrest].
  apply Z.eqb_eq in H0. apply bool_decide_eq_true in Hrest. subst.
  exfalso. apply Ht. exact text_nul.
Qed.

(** Two strings with the same text are the same string, the NUL that
    ends them apart. *)
Lemma escaped_inj s1 : forall s2,
  Forall ok s1 -> Forall ok s2 -> escaped text s1 = escaped text s2 ->
  unterminated s1 = unterminated s2.
Proof.
  induction s1 as [|v1 r1 IH]; intros s2 Hok1 Hok2 Heq.
  - symmetry. apply escaped_nil; [exact Hok2|]. symmetry. exact Heq.
  - destruct (decide (text v1 r1 = [])) as [Ht1|Ht1].
    { destruct (text_empty v1 r1 (Forall_inv Hok1) Ht1) as [-> ->].
      cbn [escaped] in Heq. rewrite Ht1 in Heq. cbn in Heq.
      symmetry. rewrite (escaped_nil s2 Hok2); [reflexivity|]. symmetry. exact Heq. }
    destruct s2 as [|v2 r2].
    { cbn [escaped] in Heq. apply app_eq_nil in Heq as [Heq _]. contradiction. }
    destruct (decide (text v2 r2 = [])) as [Ht2|Ht2].
    { cbn [escaped] in Heq. rewrite Ht2 in Heq.
      destruct (text_empty v2 r2 (Forall_inv Hok2) Ht2) as [-> ->].
      cbn in Heq. apply app_eq_nil in Heq as [Heq _]. contradiction. }
    inversion Hok1 as [|? ? Hv1 Hr1]; subst. inversion Hok2 as [|? ? Hv2 Hr2]; subst.
    pose proof (text_read v1 r1 Hv1 Hr1 Ht1) as Hread1.
    pose proof (text_read v2 r2 Hv2 Hr2 Ht2) as Hread2.
    cbn [escaped] in Heq. rewrite Heq, Hread2 in Hread1.
    injection Hread1 as <- Hrest.
    rewrite !unterminated_cons by assumption. f_equal.
    apply IH; [assumption..|]. symmetry. exact Hrest.
Qed.
End determined.

Lemma digit_count_pos bits n : 0 < bits -> (1 <= digit_count bits n)%nat.
Proof.
  intros Hbits. unfold digit_count. destruct (n <=? 0) eqn:Hz; [lia|].
  pose proof (Z.log2_nonneg n).
  assert (0 <= Z.log2 n / bits) by (apply Z.div_pos; lia). lia.
Qed.

Lemma plain_text_read hexmax v l :
  32 <= v <= 127 -> unescape_char hexmax (plain_text v ++ l) = Some (v, l).
Proof.
  intros Hv. unfold plain_text. destruct (v =? byte_value backslash) eqn:Hb.
  - apply Z.eqb_eq in Hb. subst v. reflexivity.
  - cbn [app unescape_char]. rewrite byte_value_byte_of by lia. rewrite Hb. reflexivity.
Qed.

Lemma hex_escape_read hexmax width v l :
  0 <= v -> (Nat.max width (digit_count 4 v) <= hexmax)%nat ->
  (Nat.max width (digit_count 4 v) = hexmax \/
   match l with [] => True | c :: _ => hex_value c = None end) ->
  unescape_char hexmax ((chars "\x" ++ printf_x width v) ++ l) = Some (v, l).
Proof.
  intros Hv Hmax Hstop. rewrite <- app_assoc.
  change (chars "\x") with [backslash; "x"%byte]. cbn [app unescape_char].
  rewrite Z.eqb_refl.
  change (byte_value "x" =? byte_value backslash) with false. cbn match.
  rewrite Z.eqb_refl. rewrite read_printf_x by assumption. reflexivity.
Qed.

Section reading.
Variable ok : Z -> Prop.
Variable text : Z -> list Z -> list byte.
Variable hexmax : nat.
Hypothesis text_heads : forall v rest, ok v -> text_head text v rest.

Lemma control_text_read v rest :
  0 <= v < 32 -> Forall ok rest -> control_text v rest <> [] ->
  unescape_char hexmax (control_text v rest ++ escaped text rest)
  = Some (v, escaped text rest).
Proof.
  intros Hv Hok. unfold control_text.
  destruct ((v =? 0) && bool_decide (rest = [])); [intros H; contradiction|].
  destruct (escapes !! Z.to_nat v) as [e|] eqn:He; [|intros H; contradiction].
  intros _. destruct (byte_value e =? byte_value ".") eqn:Hdot; cbn [negb].
  - assert (exists w, (if octal_follows rest then backslash :: printf_o 3 v
                       else backslash :: printf_o 0 v) = backslash :: printf_o w v /\
                      (Nat.max w (digit_count 3 v) <= 3)%nat /\
                      (Nat.max w (digit_count 3 v) = 3%nat \/
                       match escaped text rest with
                       | [] => True | c :: _ => octal_value c = None end))
      as (w & -> & Hmax & Hstop).
    { pose proof (digit_count_le 3 v 2 ltac:(lia) ltac:(lia) ltac:(cbn; lia)).
      destruct (octal_follows rest) eqn:Hoct.
      - exists 3%nat. split; [reflexivity|]. split; [lia|left; lia].
      - exists 0%nat. split; [reflexivity|]. split; [lia|right].
        apply (octal_stops ok); assumption. }
    pose proof (digit_count_pos 3 v ltac:(lia)).
    destruct (low_digits_head 8 (Nat.max w (digit_count 3 v)) v ltac:(lia) ltac:(lia))
      as (d & l & Hd & Hdigits).
    destruct (escape_code_digit d Hd) as (Hb & Hx & Hcode).
    assert (printf_o w v = digit d :: l) as Hprintf by exact Hdigits.
    cbn [app unescape_char]. rewrite Z.eqb_refl. rewrite Hprintf. cbn [app].
    apply Z.eqb_neq in Hb, Hx. rewrite Hb, Hx, Hcode.
    change (digit d :: l ++ escaped text rest) with ((digit d :: l) ++ escaped text rest).
    rewrite <- Hprintf. rewrite read_printf_o by (assumption || lia). reflexivity.
  - apply Z.eqb_neq in Hdot.
    destruct (escapes_code (Z.to_nat v) e He Hdot) as (Hb & Hx & Hcode).
    cbn [app unescape_char]. rewrite Z.eqb_refl.
    apply Z.eqb_neq in Hb, Hx. rewrite Hb, Hx, Hcode.
    rewrite Z2Nat.id by lia. reflexivity.
Qed.
End reading.

Lemma strA_text_read v rest :
  0 <= v < 256 -> Forall (fun v => 0 <= v < 256) rest -> strA_text v rest <> [] ->
  unescape_char 2 (strA_text v rest ++ escaped strA_text rest)
  = Some (v, escaped strA_text rest).
Proof.
  intros Hv Hrest. unfold strA_text at 1 2.
  destruct (127 <? v) eqn:H1.
  - intros _. pose proof (digit_count_le 4 v 2 ltac:(lia) ltac:(lia) ltac:(cbn; lia)).
    apply hex_escape_read; [lia|lia|left; lia].
  - apply Z.ltb_ge in H1. destruct (v <? 32) eqn:H2.
    + apply Z.ltb_lt in H2.
      apply (control_text_read (fun v => 0 <= v < 256)); [|lia|exact Hrest].
      intros v' rest'. apply strA_text_head.
    + apply Z.ltb_ge in H2. intros _. apply plain_text_read. lia.
Qed.

Lemma strW_text_read v rest :
  0 <= v < 65536 -> Forall (fun v => 0 <= v < 65536) rest -> strW_text v rest <> [] ->
  unescape_char 4 (strW_text v rest ++ escaped strW_text rest)
  = Some (v, escaped strW_text rest).
Proof.
  intros Hv Hrest. unfold strW_text at 1 2.
  destruct (127 <? v) eqn:H1.
  - intros _. pose proof (digit_count_le 4 v 4 ltac:(lia) ltac:(lia) ltac:(cbn; lia)).
    destruct (xdigit_follows rest) eqn:Hx.
    + apply hex_escape_read; [lia|lia|left; lia].
    + apply hex_escape_read; [lia|lia|right].
      apply (hex_stops (fun v => 0 <= v < 65536)); [|exact Hrest|exact Hx].
      intros v' rest'. apply strW_text_head.
  - apply Z.ltb_ge in H1. destruct (v <? 32) eqn:H2.
    + apply Z.ltb_lt in H2.
      apply (control_text_read (fun v => 0 <= v < 65536)); [|lia|exact Hrest].
      intros v' rest'. apply strW_text_head.
    + apply Z.ltb_ge in H2. intros _. apply plain_text_read. lia.
Qed.

Lemma escaped_strA_inj s1 s2 :
  Forall (fun v => 0 <= v < 256) s1 -> Forall (fun v => 0 <= v < 256) s2 ->
  escaped strA_text s1 = escaped strA_text s2 -> unterminated s1 = unterminated s2.
Proof.
  apply (escaped_inj (fun v => 0 <= v < 256) strA_text 2).
  - intros v rest. apply strA_text_head.
  - reflexivity.
  - apply strA_text_read.
Qed.

Lemma escaped_strW_inj s1 s2 :
  Forall (fun v => 0 <= v < 65536) s1 -> Forall (fun v => 0 <= v < 65536) s2 ->
  escaped strW_text s1 = escaped strW_text s2 -> unterminated s1 = unterminated s2.
Proof.
  apply (escaped_inj (fun v => 0 <= v < 65536) strW_text 4).
  - intros v rest. apply strW_text_head.
  - reflexivity.
  - apply strW_text_read.
Qed.

(** X1.  [dump_strA] never stores outside its 256-byte buffer, and the
    flushes of the buffer do not show in what is written: the output is the
    text of the characters one after the other, and the value returned is
    the number of bytes written.  Only when that number does not fit [int]
    does the count overflow. *)
Theorem dump_strA_text (str : list byte) :
  dump_strA str
  = let out := escaped strA_text (byte_value <$> str) in
    if Z.of_nat (length out) <=? INT_MAX
    then Done (out, Z.of_nat (length out)) else Fault.
Proof. apply dump_strA_written. Qed.

(** X2.  Whatever [dump_strA] writes is made of the bytes 32 to 127, both
    included: nothing below 32 and nothing above 127 reaches the output. *)
Theorem dump_strA_plain (str out : list byte) (n : Z) :
  dump_strA str = Done (out, n) -> Forall (fun c => 32 <= byte_value c <= 127) out.
Proof.
  rewrite dump_strA_written. intros H. apply written_Done in H as [-> _].
  apply (Forall_escaped plain_byte). apply Forall_strA_text.
Qed.

Lemma dump_strA_plain_witness :
  Forall (fun c => 32 <= byte_value c <= 127) (text_bytes "A\\\n\0017\1\xc8a\0").
Proof.
  apply (dump_strA_plain (byte_of <$> mixed_string) _ 19). vm_compute. reflexivity.
Defined.

(** X3.  The text [dump_strA] writes determines the string: two strings
    that give the same output are equal, the NUL that ends them apart
    (which is not written). *)
Theorem dump_strA_determines (s1 s2 : list byte) (out : list byte) (n : Z) :
  dump_strA s1 = Done (out, n) -> dump_strA s2 = Done (out, n) ->
  unterminated (byte_value <$> s1) = unterminated (byte_value <$> s2).
Proof.
  rewrite !dump_strA_written. intros H1 H2.
  apply written_Done in H1 as [-> _]. apply written_Done in H2 as [H2 _].
  apply escaped_strA_inj; [apply Forall_byte_value..|]. exact H2.
Qed.

Lemma dump_strA_determines_witness :
  unterminated (byte_value <$> (byte_of <$> take 8 mixed_string))
  = unterminated (byte_value <$> (byte_of <$> take 9 mixed_string)).
Proof.
  apply (dump_strA_determines _ _ (text_bytes "A\\\n\0017\1\xc8a") 17);
    vm_compute; reflexivity.
Defined.

(** X4.  [dump_strW], given WCHARs, never stores outside its buffer either
    (a character takes at most six bytes), and writes the text of the
    characters one after the other, returning the number of bytes. *)
Theorem dump_strW_text (str : list Z) :
  Forall (fun v => 0 <= v < 65536) str ->
  dump_strW str
  = let out := escaped strW_text str in
    if Z.of_nat (length out) <=? INT_MAX
    then Done (out, Z.of_nat (length out)) else Fault.
Proof. apply dump_strW_written. Qed.

Lemma dump_strW_text_witness :
  dump_strW mixed_wide_string = Done (text_bytes "A\\\n\0017\1\xc8\x1234a\0", 25).
Proof.
  rewrite (dump_strW_text mixed_wide_string).
  - vm_compute. reflexivity.
  - unfold mixed_wide_string. repeat constructor; lia.
Defined.

(** X5.  Whatever [dump_strW] writes for a string of WCHARs is made of the
    bytes 32 to 127. *)
Theorem dump_strW_plain (str : list Z) (out : list byte) (n : Z) :
  Forall (fun v => 0 <= v < 65536) str ->
  dump_strW str = Done (out, n) -> Forall (fun c => 32 <= byte_value c <= 127) out.
Proof.
  intros Hstr. rewrite dump_strW_written by exact Hstr.
  intros H. apply written_Done in H as [-> _].
  apply (Forall_escaped plain_byte). apply Forall_strW_text.
Qed.

Lemma dump_strW_plain_witness :
  Forall (fun c => 32 <= byte_value c <= 127) (text_bytes "A\\\n\0017\1\xc8\x1234a\0").
Proof.
  apply (dump_strW_plain mixed_wide_string _ 25).
  - unfold mixed_wide_string. repeat constructor; lia.
  - vm_compute. reflexivity.
Defined.

(** X6.  The text [dump_strW] writes determines the string of WCHARs, the
    NUL that ends it apart: a hexadecimal escape is given four digits when
    a hexadecimal digit follows, an octal one three digits when an octal
    digit follows, so the next character is never read into the escape. *)
Theorem dump_strW_determines (s1 s2 : list Z) (out : list byte) (n : Z) :
  Forall (fun v => 0 <= v < 65536) s1 -> Forall (fun v => 0 <= v < 65536) s2 ->
  dump_strW s1 = Done (out, n) -> dump_strW s2 = Done (out, n) ->
  unterminated s1 = unterminated s2.
Proof.
  intros Hs1 Hs2. rewrite !dump_strW_written by assumption. intros H1 H2.
  apply written_Done in H1 as [-> _]. apply written_Done in H2 as [H2 _].
  apply escaped_strW_inj; [assumption..|]. exact H2.
Qed.

Lemma dump_strW_determines_witness :
  unterminated (take 9 mixed_wide_string) = unterminated (take 10 mixed_wide_string).
Proof.
  apply (dump_strW_determines _ _ (text_bytes "A\\\n\0017\1\xc8\x1234a") 23).
  - unfold mixed_wide_string. cbn [take]. repeat constructor; lia.
  - unfold mixed_wide_string. cbn [take]. repeat constructor; lia.
  - vm_compute. reflexivity.
  - vm_compute. reflexivity.
Defined.

(** ** print_longlong *)

Lemma low_digits_app base (a b : nat) : forall n,
  0 < base ->
  low_digits base (a + b) n
  = low_digits base a (n / base ^ Z.of_nat b) ++ low_digits base b n.
Proof.
  induction b as [|b IH]; intros n Hbase.
  - rewrite Nat.add_0_r. cbn [low_digits Z.of_nat]. rewrite Z.pow_0_r, Z.div_1_r, app_nil_r.
    reflexivity.
  - replace (a + S b)%nat with (S (a + b)) by lia. cbn [low_digits].
    rewrite IH by exact Hbase. rewrite <- app_assoc. do 2 f_equal.
    rewrite Nat2Z.inj_succ, Z.pow_succ_r by lia.
    rewrite Z.div_div by (try apply Z.pow_pos_nonneg; lia). reflexivity.
Qed.

Lemma low_digits_mod base (k : nat) : forall n,
  0 < base -> low_digits base k (n mod base ^ Z.of_nat k) = low_digits base k n.
Proof.
  induction k as [|k IH]; intros n Hbase; [reflexivity|].
  cbn [low_digits]. rewrite Nat2Z.inj_succ, Z.pow_succ_r by lia.
  assert (0 < base ^ Z.of_nat k) as Hpow by (apply Z.pow_pos_nonneg; lia).
  rewrite Z.rem_mul_r by lia.
  replace ((n mod base + base * ((n / base) mod base ^ Z.of_nat k)) / base)
    with ((n / base) mod base ^ Z.of_nat k).
  2:{ rewrite (Z.mul_comm base), Z.div_add by lia.
      rewrite (Z.div_small (n mod base)) by (apply Z.mod_pos_bound; lia). lia. }
  rewrite IH by exact Hbase. do 2 f_equal.
  rewrite (Z.mul_comm base), Z.mod_add by lia. rewrite Z.mod_mod by lia. reflexivity.
Qed.

Lemma digit_count_high hi lo :
  0 < hi -> 0 <= lo < 2 ^ 32 ->
  digit_count 4 (hi * 2 ^ 32 + lo) = (digit_count 4 hi + 8)%nat.
Proof.
  intros Hhi Hlo. unfold digit_count.
  destruct (hi * 2 ^ 32 + lo <=? 0) eqn:H1; [apply Z.leb_le in H1; lia|].
  destruct (hi <=? 0) eqn:H2; [apply Z.leb_le in H2; lia|].
  pose proof (Z.log2_nonneg hi) as Hnn.
  destruct (Z.log2_spec hi Hhi) as [Hl Hu].
  assert (Z.log2 (hi * 2 ^ 32 + lo) = Z.log2 hi + 32) as ->.
  { apply Z.log2_unique; [lia|].
    rewrite Z.pow_succ_r in Hu by lia. rewrite Z.pow_succ_r by lia.
    rewrite !Z.pow_add_r by lia.
    set (P := 2 ^ Z.log2 hi) in *. change (2 ^ 32) with 4294967296 in *. nia. }
  replace (Z.log2 hi + 32) with (Z.log2 hi + 8 * 4) by lia.
  rewrite Z.div_add by lia.
  assert (0 <= Z.log2 hi / 4) by (apply Z.div_pos; lia). lia.
Qed.

Lemma printf_x_wide width n :
  (width <= digit_count 4 n)%nat -> printf_x width n = printf_x 0 n.
Proof. intros H. unfold printf_x. f_equal. lia. Qed.

(** X7.  [print_longlong] writes the hexadecimal digits of a 64-bit value
    in two parts, both converted to [unsigned long].  Where that type has
    32 bits the parts are the two halves and the digits are those of the
    value; where it has 64 bits the second part is the whole value, so a
    value of 2^32 or more is written as the digits of its high half
    followed by all its digits. *)
Theorem print_longlong_hex f value :
  0 <= value < 2 ^ 64 ->
  (ulong_bits f = 32 -> print_longlong f value = printf_x 0 value) /\
  (ulong_bits f = 64 -> 2 ^ 32 <= value ->
   print_longlong f value = printf_x 0 (value / 2 ^ 32) ++ printf_x 0 value).
Proof.
  intros Hv. unfold print_longlong, ulong. rewrite Z.shiftr_div_pow2 by lia.
  pose proof (Z.div_mod value (2 ^ 32) ltac:(lia)) as Hdm.
  pose proof (Z.mod_pos_bound value (2 ^ 32) ltac:(lia)) as Hlo.
  assert (0 <= value / 2 ^ 32 < 2 ^ 32) as Hhi
    by (split; [apply Z.div_pos; lia|apply Z.div_lt_upper_bound; lia]).
  split.
  - intros ->. destruct (value / 2 ^ 32 =? 0) eqn:Hz; cbn [negb].
    + apply Z.eqb_eq in Hz. rewrite wrap_small by lia. reflexivity.
    + apply Z.eqb_neq in Hz. rewrite (wrap_small 32 (value / 2 ^ 32)) by lia.
      unfold wrap.
      assert (digit_count 4 value = (digit_count 4 (value / 2 ^ 32) + 8)%nat) as Hcount.
      { rewrite Hdm at 1. rewrite (Z.mul_comm (2 ^ 32)). apply digit_count_high; lia. }
      pose proof (digit_count_le 4 (value mod 2 ^ 32) 8 ltac:(lia) ltac:(lia) ltac:(lia)).
      unfold printf_x. rewrite Hcount. cbn [Nat.max].
      rewrite (low_digits_app 16 _ 8) by lia.
      change (16 ^ Z.of_nat 8) with (2 ^ 32). f_equal.
      replace (Nat.max 8 (digit_count 4 (value mod 2 ^ 32))) with 8%nat by lia.
      change (2 ^ 32) with (16 ^ Z.of_nat 8). apply low_digits_mod. lia.
  - intros -> Hbig. rewrite !wrap_small by lia.
    destruct (value / 2 ^ 32 =? 0) eqn:Hz; [apply Z.eqb_eq in Hz; lia|]. cbn [negb].
    f_equal. apply printf_x_wide.
    assert (digit_count 4 value = (digit_count 4 (value / 2 ^ 32) + 8)%nat) as ->.
    { rewrite Hdm at 1. rewrite (Z.mul_comm (2 ^ 32)). apply digit_count_high; lia. }
    lia.
Qed.

Lemma print_longlong_hex_witness :
  print_longlong (on_host 32) 0x140000000 = text_bytes "140000000" /\
  print_longlong (on_host 64) 0x140000000 = text_bytes "1140000000".
Proof.
  split.
  - rewrite (proj1 (print_longlong_hex (on_host 32) 0x140000000 ltac:(lia)) eq_refl).
    vm_compute. reflexivity.
  - rewrite (proj2 (print_longlong_hex (on_host 64) 0x140000000 ltac:(lia)) eq_refl)
      by lia.
    vm_compute. reflexivity.
Defined.

(** ** String resources: how far dump_string_data reads *)

Lemma rd16s_in_file f n : forall p,
  0 <= p -> p + 2 * Z.of_nat n <= dump_total_len f ->
  exists ws, rd16s f p n = Some ws /\ length ws = n.
Proof.
  induction n as [|n IH]; intros p Hp Hlen.
  - exists []. split; reflexivity.
  - cbn [rd16s]. destruct (rd16_in_file f p) as [c ->]; [lia|lia|].
    destruct (IH (p + 2)) as (cs & -> & Hcs); [lia|lia|].
    exists (c :: cs). split; [reflexivity|]. cbn [length]. lia.
Qed.

Lemma string_slots_nothing_left f id n i ptr :
  string_slots f id n i ptr 0 = Done [].
Proof. destruct n; reflexivity. Qed.

Lemma string_slots_in_file f id n : forall i p size,
  0 <= p -> 0 <= size -> p + 2 * (size + 1) <= dump_total_len f ->
  exists lines,
    string_slots f id n i (Some p) size = Done lines /\
    (length lines <= n)%nat /\
    Z.of_nat (sum_list (line_chars <$> lines)) <= size.
Proof.
  induction n as [|n IH]; intros i p size Hp Hsize Hfile.
  - exists []. repeat split; cbn; lia.
  - cbn [string_slots]. destruct (size =? 0) eqn:Hz.
    { exists []. repeat split; cbn; lia. }
    apply Z.eqb_neq in Hz. run.
    destruct (rd16_in_file f p) as [len0 Hlen0]; [lia|lia|]. rewrite Hlen0. run.
    pose proof (rd16_range f p len0 Hlen0) as Hrange.
    destruct (size <=? len0) eqn:Hclamp.
    + apply Z.leb_le in Hclamp.
      destruct (size =? 0) eqn:Hz'; [apply Z.eqb_eq in Hz'; lia|]. cbn [negb].
      destruct (rd16s_in_file f (Z.to_nat size) (p + 2)) as (str & -> & Hstr); [lia|lia|].
      run. rewrite string_slots_nothing_left. run.
      eexists. split; [reflexivity|]. cbn. split; lia.
    + apply Z.leb_gt in Hclamp. destruct (len0 =? 0) eqn:Hempty; cbn [negb].
      * apply Z.eqb_eq in Hempty. subst len0.
        destruct (IH (i + 1) (p + 2) (size - (0 + 1))) as (lines & -> & Hn & Hsum);
          [lia|lia|lia|].
        exists lines. split; [reflexivity|]. split; lia.
      * apply Z.eqb_neq in Hempty.
        destruct (rd16s_in_file f (Z.to_nat len0) (p + 2)) as (str & -> & Hstr); [lia|lia|].
        run.
        destruct (IH (i + 1) (p + 2 + 2 * len0) (size - (len0 + 1)))
          as (lines & -> & Hn & Hsum); [lia|lia|lia|].
        run. eexists. split; [reflexivity|]. cbn. split; lia.
Qed.

(** X8.  [dump_string_data] never reads more than [size + 1] WCHARs from
    [ptr]: the length that starts a string is cut down to what is left of
    [size].  So when these WCHARs lie in the file the function returns,
    having printed at most 16 strings of no more than [size] characters in
    all. *)
Theorem dump_string_data_in_file f p size id :
  0 <= p -> 0 <= size -> p + 2 * (size + 1) <= dump_total_len f ->
  exists lines,
    dump_string_data f (Some p) size id = Done lines /\
    (length lines <= 16)%nat /\
    Z.of_nat (sum_list (line_chars <$> lines)) <= size.
Proof. apply string_slots_in_file. Qed.

Lemma dump_string_data_in_file_witness :
  exists lines,
    dump_string_data hi_abc_file (Some 0) 20 2 = Done lines /\
    (length lines <= 16)%nat /\
    Z.of_nat (sum_list (line_chars <$> lines)) <= 20.
Proof.
  apply (dump_string_data_in_file hi_abc_file 0 20 2); [lia|lia|].
  apply Z.leb_le. vm_compute. reflexivity.
Defined.

(** ** Exported names: the merge of the name table *)

Lemma merge_names_fold f pName pOrdl n : forall i ords names funcs,
  rd16s f (pOrdl + 2 * i) n = Some ords ->
  rd32s f (pName + 4 * i) n = Some names ->
  Forall (fun o => o < Z.of_nat (length funcs)) ords ->
  merge_names f (Some pName) (Some pOrdl) n i funcs
  = Done (foldl (fun a on => <[Z.to_nat (fst on) := snd on]> a) funcs (zip ords names)).
Proof.
  induction n as [|n IH]; intros i ords names funcs Hords Hnames Hin.
  - injection Hords as <-. reflexivity.
  - cbn [rd16s rd32s] in Hords, Hnames. cbn [merge_names].
    cbn [mbind option_bind]. 
    destruct (rd16 f (pOrdl + 2 * i)) as [o|] eqn:Ho; [|discriminate].
    destruct (rd32 f (pName + 4 * i)) as [nm|] eqn:Hnm; [|discriminate].
    cbn [mbind option_bind] in Hords, Hnames.
    destruct (rd16s f (pOrdl + 2 * i + 2) n) as [os|] eqn:Hos; [|discriminate].
    destruct (rd32s f (pName + 4 * i + 4) n) as [nms|] eqn:Hnms; [|discriminate].
    injection Hords as <-. injection Hnames as <-.
    apply rd16_range in Ho. inversion Hin as [|? ? Ho' Hos']; subst.
    run. unfold store.
    destruct ((0 <=? o) && (o <? Z.of_nat (length funcs))) eqn:Hb.
    2:{ apply andb_false_iff in Hb as [Hb|Hb]; [apply Z.leb_gt in Hb|apply Z.ltb_ge in Hb]; lia. }
    run. cbn [zip zip_with foldl fst snd]. apply IH.
    + replace (pOrdl + 2 * (i + 1)) with (pOrdl + 2 * i + 2) by lia. exact Hos.
    + replace (pName + 4 * (i + 1)) with (pName + 4 * i + 4) by lia. exact Hnms.
    + rewrite length_insert. exact Hos'.
Qed.

Lemma foldl_insert_length (l : list (Z * Z)) : forall funcs : list Z,
  length (foldl (fun a on => <[Z.to_nat (fst on) := snd on]> a) funcs l) = length funcs.
Proof.
  induction l as [|on l IH]; intros funcs; [reflexivity|].
  cbn [foldl]. rewrite IH. apply length_insert.
Qed.

Lemma foldl_insert_lookup (l : list (Z * Z)) : forall (funcs : list Z) (k : nat) d,
  funcs !! k = Some d -> Forall (fun on => 0 <= fst on) l ->
  foldl (fun a on => <[Z.to_nat (fst on) := snd on]> a) funcs l !! k
  = Some (default d (snd <$> last (filter (fun on => fst on = Z.of_nat k) l))).
Proof.
  induction l as [|[o nm] l IH]; intros funcs k d Hk Hpos; [exact Hk|].
  inversion Hpos as [|? ? Ho Hl]; subst. cbn [fst] in Ho. cbn [foldl fst snd].
  destruct (decide (o = Z.of_nat k)) as [->|Hne].
  - rewrite filter_cons_True by reflexivity. rewrite last_cons.
    rewrite Nat2Z.id.
    rewrite (IH _ k nm); [|apply list_lookup_insert_eq; eapply lookup_lt_Some; exact Hk|exact Hl].
    destruct (last (filter (fun on => fst on = Z.of_nat k) l)); reflexivity.
  - rewrite filter_cons_False by (cbn; exact Hne).
    apply IH; [|exact Hl]. rewrite list_lookup_insert_ne by lia. exact Hk.
Qed.

Lemma rd16s_nonneg f : forall ords pOrdl,
  rd16s f pOrdl (length ords) = Some ords -> Forall (fun o => 0 <= o) ords.
Proof.
  induction ords as [|o ords IH]; intros pOrdl Hords; [constructor|].
  cbn [length rd16s] in Hords.
  destruct (rd16 f pOrdl) as [c|] eqn:Hc; [|discriminate].
  destruct (rd16s f (pOrdl + 2) (length ords)) as [cs|] eqn:Hcs; [|discriminate].
  cbn in Hords. injection Hords as -> ->.
  constructor; [apply rd16_range in Hc; lia|]. eapply IH. exact Hcs.
Qed.

Lemma last_name_claimed ords names slot :
  length names = length ords -> Forall (fun nm => nm <> 0) names ->
  last_name ords names slot = 0 <-> slot ∉ ords.
Proof.
  intros Hlen Hnames. unfold last_name. split.
  - intros Hzero Hin.
    destruct (last (filter (fun on => fst on = slot) (zip ords names))) as [[o nm]|] eqn:Hlast.
    + apply last_Some_elem_of, list_elem_of_filter in Hlast as [_ Hon].
      apply elem_of_zip_r in Hon. cbn in Hzero.
      rewrite Forall_forall in Hnames. exact (Hnames nm Hon Hzero).
    + apply last_None in Hlast.
      apply list_elem_of_lookup in Hin as [i Hi].
      destruct (lookup_lt_is_Some_2 names i) as [nm Hnm].
      { rewrite Hlen. eapply lookup_lt_Some. exact Hi. }
      apply (filter_nil_not_elem_of _ _ (slot, nm)) in Hlast; [|reflexivity].
      apply Hlast. apply list_elem_of_lookup. exists i.
      apply lookup_zip_with_Some. exists slot, nm. auto.
  - intros Hout.
    destruct (last (filter (fun on => fst on = slot) (zip ords names))) as [[o nm]|] eqn:Hlast;
      [|reflexivity].
    apply last_Some_elem_of, list_elem_of_filter in Hlast as [Ho Hon].
    cbn in Ho. subst o. apply elem_of_zip_l in Hon. contradiction.
Qed.

Lemma present_slots_range fs : forall i,
  Forall (fun sf => i <= fst sf < i + Z.of_nat (length fs)) (present_slots i fs).
Proof.
  induction fs as [|func fs IH]; intros i; [constructor|].
  cbn [present_slots length]. apply Forall_app. split.
  - destruct (func =? 0); repeat constructor; cbn [fst]; lia.
  - eapply Forall_impl; [apply IH|]. intros sf Hsf. cbn beta in Hsf. lia.
Qed.

(** The printing loop of [dump_dir_exported_functions]: one line for each
    slot that holds an address, in slot order, named from the cell of
    [funcs] of that slot. *)
Lemma export_entries_shown f exportDir size Base pFunc funcs fs : forall i lines,
  rd32s f (pFunc + 4 * i) (length fs) = Some fs ->
  export_entries f exportDir size Base pFunc funcs (length fs) i = Done lines ->
  Forall2 (fun sf line =>
             exists name_rva name forward,
               fetch funcs (fst sf) = Done name_rva /\
               line = ExportEntry (snd sf) (DWORD (Base + fst sf)) name forward /\
               entry_name f name_rva name)
          (present_slots i fs) lines.
Proof.
  induction fs as [|func fs IH]; intros i lines Hread Hrun.
  - cbn [length export_entries present_slots] in *. injection Hrun as <-. constructor.
  - cbn [length rd32s] in Hread.
    destruct (rd32 f (pFunc + 4 * i)) as [func'|] eqn:Hf; [|discriminate].
    cbn [mbind option_bind] in Hread.
    destruct (rd32s f (pFunc + 4 * i + 4) (length fs)) as [rest|] eqn:Hrest;
      [|discriminate].
    cbn [mbind option_bind] in Hread. injection Hread as -> ->.
    assert (Hrest' : rd32s f (pFunc + 4 * (i + 1)) (length fs) = Some fs).
    { replace (pFunc + 4 * (i + 1)) with (pFunc + 4 * i + 4) by lia. exact Hrest. }
    cbn [length export_entries] in Hrun. rewrite Hf in Hrun.
    cbn [load mbind outcome_bind] in Hrun. cbn [present_slots].
    destruct (func =? 0) eqn:Hz; cbn [app].
    + apply IH; assumption.
    + destruct (fetch funcs i) as [name_rva| | |] eqn:Hcell;
        cbn [mbind outcome_bind] in Hrun; try discriminate.
      destruct (if name_rva =? 0 then Done by_ordinal
                else s ← string_arg f (RVA f name_rva 4); Done (by_name s))
        as [name| | |] eqn:Hname; cbn [mbind outcome_bind] in Hrun; try discriminate.
      destruct (if inside_directory exportDir size (RVA f func 1)
                then s ← string_arg f (RVA f func 1); Done s
                else Done None)
        as [forward| | |] eqn:Hforward; cbn [mbind outcome_bind] in Hrun; try discriminate.
      destruct (export_entries f exportDir size Base pFunc funcs (length fs) (i + 1))
        as [more| | |] eqn:Hmore; cbn [mbind outcome_bind] in Hrun; try discriminate.
      injection Hrun as <-. constructor.
      * exists name_rva, name, forward. cbn [fst snd].
        split; [exact Hcell|]. split; [reflexivity|].
        unfold entry_name. destruct (name_rva =? 0).
        -- injection Hname as <-. reflexivity.
        -- destruct (string_arg f (RVA f name_rva 4)) as [s| | |];
             cbn [mbind outcome_bind] in Hname; try discriminate.
           injection Hname as <-. exists s. split; reflexivity.
      * apply IH; [exact Hrest'|exact Hmore].
Qed.



(** ** Unwind data: how far the opcode loop reads *)

Lemma opcode_in_file f p :
  0 <= p -> p + 2 <= dump_total_len f ->
  exists offset code opinfo,
    opcode.offset f p = Some offset /\ opcode.code f p = Some code /\
    opcode.info f p = Some opinfo.
Proof.
  intros Hp Hlen. unfold opcode.offset, opcode.code, opcode.info.
  destruct (rd8_in_file f p) as [a ->]; [lia|].
  destruct (rd8_in_file f (p + 1)) as [b ->]; [lia|].
  do 3 eexists. repeat split.
Qed.

Lemma unwind_opcodes_in_file f info count frame_reg frame_offset fuel : forall i,
  0 <= i -> count - i < Z.of_nat fuel -> (1 <= fuel)%nat ->
  0 <= unwind_info.opcodes info 0 ->
  unwind_info.opcodes info (count + 2) <= dump_total_len f ->
  exists lines,
    unwind_opcodes f info count frame_reg frame_offset fuel i = Done lines /\
    Z.of_nat (length lines) <= Z.max 0 (count - i).
Proof.
  induction fuel as [|fuel IH]; intros i Hi Hfuel H1 Hlow Hhigh; [lia|].
  cbn [unwind_opcodes]. destruct (i <? count) eqn:Hlt.
  2:{ exists []. split; [reflexivity|]. cbn. lia. }
  apply Z.ltb_lt in Hlt. unfold unwind_info.opcodes in Hlow, Hhigh.
  destruct (opcode_in_file f (unwind_info.opcodes info i))
    as (offset & code & opinfo & Ho & Hc & Hinfo);
    [unfold unwind_info.opcodes; lia..|].
  pose proof (documented_slots_pos code opinfo) as Hslots.
  destruct (unwind_opcode_slots f info frame_reg frame_offset i offset code opinfo
              Ho Hc Hinfo) as [op ->].
  { unfold slots_in_file, unwind_info.opcodes. lia. }
  run.
  destruct (IH (i + documented_slots code opinfo - 1 + 1)) as (rest & -> & Hrest);
    [lia|lia| |exact Hlow|exact Hhigh|].
  { destruct fuel; [lia|lia]. }
  run. eexists. split; [reflexivity|]. cbn [length]. lia.
Qed.

(** X10.  The opcode loop of [dump_x86_64_unwind_info] reads at most two
    slots past the [count] slots the header announces (the operand of a
    last opcode that takes three slots).  When [count + 2] slots behind the
    header lie in the file, the loop decodes every opcode and prints at
    most [count] lines. *)
Theorem unwind_opcodes_bound f info count frame_reg frame_offset :
  0 <= count -> slots_in_file f info 0 (count + 2) ->
  exists lines,
    unwind_opcodes f info count frame_reg frame_offset (S (Z.to_nat count)) 0
    = Done lines /\
    Z.of_nat (length lines) <= count.
Proof.
  intros Hcount [Hlow Hhigh].
  destruct (unwind_opcodes_in_file f info count frame_reg frame_offset
              (S (Z.to_nat count)) 0) as (lines & Hrun & Hlen); try lia.
  { rewrite Z.add_0_l in Hhigh. exact Hhigh. }
  exists lines. split; [exact Hrun|lia].
Qed.

Lemma unwind_opcodes_bound_witness :
  exists lines,
    unwind_opcodes unwind_file 12 2 5 0 3 0 = Done lines /\
    Z.of_nat (length lines) <= 2.
Proof.
  apply (unwind_opcodes_bound unwind_file 12 2 5 0); [lia|].
  split; apply Z.leb_le; vm_compute; reflexivity.
Defined.

(** ** RVA: the pointer returned *)

Lemma RVA_scan_in_file f rva len n p :
  0 <= ulong_bits f -> RVA_scan f rva len n = Some p ->
  0 <= p /\ p + len <= dump_total_len f.
Proof.
  intros Hbits. induction n as [|n IH]; [discriminate|].
  cbn [RVA_scan]. destruct (sectHead f !! n) as [s|]; [|discriminate].
  destruct ((VirtualAddress s <=? rva)
            && (ulong f (rva + len) <=? DWORD (VirtualAddress s + SizeOfRawData s)));
    [|exact IH].
  unfold PRD.
  destruct (_ + len <=? dump_total_len f) eqn:Hfit; [|discriminate].
  intros [= <-]. apply Z.leb_le in Hfit. split; [|exact Hfit].
  apply wrap_range. exact Hbits.
Qed.

Lemma RVA_Some_in_file f rva len p :
  0 <= ulong_bits f -> RVA f rva len = Some p -> 0 <= p /\ p + len <= dump_total_len f.
Proof.
  intros Hbits. unfold RVA. destruct (rva =? 0); [discriminate|].
  apply RVA_scan_in_file. exact Hbits.
Qed.

Lemma get_dir_and_size_in_file f idx size0 p size :
  0 <= ulong_bits f -> get_dir_and_size f idx size0 = (Some p, size) ->
  idx < NumberOfRvaAndSizes f /\ 0 <= p /\ p + size <= dump_total_len f.
Proof.
  intros Hbits. unfold get_dir_and_size.
  destruct (NumberOfRvaAndSizes f <=? idx) eqn:Hidx; [discriminate|].
  apply Z.leb_gt in Hidx.
  destruct (DataDirectory f !! Z.to_nat idx) as [d|]; [|discriminate].
  intros [= Hp <-]. split; [exact Hidx|]. apply (RVA_Some_in_file _ _ _ _ Hbits Hp).
Qed.

(** X11.  A pointer [RVA] returns is an offset into the mapped file with
    [len] bytes behind it inside the file, whatever the section table
    says: the last step of [RVA] is [PRD], which refuses a range that
    leaves the file.  The same holds for the directory [get_dir_and_size]
    returns with its size. *)
Theorem RVA_in_file f :
  0 <= ulong_bits f ->
  (forall rva len p, RVA f rva len = Some p -> 0 <= p /\ p + len <= dump_total_len f) /\
  (forall idx size0 p size,
     get_dir_and_size f idx size0 = (Some p, size) ->
     idx < NumberOfRvaAndSizes f /\ 0 <= p /\ p + size <= dump_total_len f).
Proof.
  intros Hbits. split.
  - intros rva len p. apply RVA_Some_in_file. exact Hbits.
  - intros idx size0 p size. apply get_dir_and_size_in_file. exact Hbits.
Qed.

Lemma RVA_in_file_witness :
  0 <= 0 /\ 0 + 12 <= dump_total_len (reloc_file two_entry_block).
Proof.
  apply (proj1 (RVA_in_file (reloc_file two_entry_block) ltac:(vm_compute; discriminate))
           0x1000 12 0).
  vm_compute. reflexivity.
Defined.

(** ** Base relocations: a block shorter than its header *)

Lemma rd8_Some_in_file f p v : rd8 f p = Some v -> 0 <= p < dump_total_len f.
Proof.
  unfold rd8, dump_total_len. destruct (p <? 0) eqn:Hneg; [discriminate|].
  apply Z.ltb_ge in Hneg.
  destruct (dump_base f !! Z.to_nat p) as [b|] eqn:Hb; [|discriminate].
  intros _. apply lookup_lt_Some in Hb. lia.
Qed.

Lemma rd16_Some_in_file f p v : rd16 f p = Some v -> 0 <= p /\ p + 2 <= dump_total_len f.
Proof.
  unfold rd16. destruct (rd8 f p) as [lo|] eqn:Hlo; [|discriminate].
  destruct (rd8 f (p + 1)) as [hi|] eqn:Hhi; [|discriminate].
  intros _. apply rd8_Some_in_file in Hlo, Hhi. lia.
Qed.

Lemma rd32_Some_in_file f p v : rd32 f p = Some v -> 0 <= p /\ p + 4 <= dump_total_len f.
Proof.
  unfold rd32. destruct (rd16 f p) as [lo|] eqn:Hlo; [|discriminate].
  destruct (rd16 f (p + 2)) as [hi|] eqn:Hhi; [|discriminate].
  intros _. apply rd16_Some_in_file in Hlo, Hhi. lia.
Qed.

Lemma reloc_entries_past_end f n : forall relocs,
  (1 <= n)%nat -> dump_total_len f < relocs + 2 * Z.of_nat n ->
  reloc_entries f relocs n = Fault.
Proof.
  induction n as [|n IH]; intros relocs Hn Hend; [lia|].
  cbn [reloc_entries]. destruct (rd16 f relocs) as [w|] eqn:Hw; [|reflexivity].
  run. rewrite reloc_type_name by (eapply rd16_range; exact Hw). run.
  apply rd16_Some_in_file in Hw. rewrite IH; [reflexivity|lia|lia].
Qed.

Lemma short_block_count f sz :
  ulong_bits f = 32 \/ ulong_bits f = 64 -> 0 < sz < 8 ->
  2 ^ 31 - 4 <= DWORD (ulong f (sz - IMAGE_BASE_RELOCATION.size) / 2).
Proof.
  intros Hbits Hsz. unfold DWORD, ulong, wrap, IMAGE_BASE_RELOCATION.size.
  destruct Hbits as [-> | ->].
  - change (2 ^ 32) with 4294967296. change (2 ^ 31) with 2147483648.
    Z.div_mod_to_equations. lia.
  - change (2 ^ 64) with 18446744073709551616.
    change (2 ^ 32) with 4294967296. change (2 ^ 31) with 2147483648.
    Z.div_mod_to_equations. lia.
Qed.

(** X12.  A relocation block whose SizeOfBlock is between 1 and 7, less
    than its own header, is not refused: the number of entries,
    [(SizeOfBlock - 8) / 2], is computed without sign and comes to 2^31 - 4
    or more, so that in a file of less than 4 GB the walk over the entries
    leaves the file. *)
Theorem reloc_short_block_faults f rel size sz :
  get_dir_and_size f IMAGE_DIRECTORY_ENTRY_BASERELOC 0 = (Some rel, size) ->
  ulong_bits f = 32 \/ ulong_bits f = 64 ->
  dump_total_len f < 2 ^ 32 - 8 ->
  IMAGE_BASE_RELOCATION.size < size ->
  IMAGE_BASE_RELOCATION.SizeOfBlock f rel = Some sz ->
  0 < sz < IMAGE_BASE_RELOCATION.size ->
  dump_dir_reloc f = Fault.
Proof.
  intros Hdir Hbits Hfile Hsize Hblock Hsz. unfold dump_dir_reloc. rewrite Hdir.
  assert (0 <= rel) as Hrel.
  { apply get_dir_and_size_in_file in Hdir; [lia|destruct Hbits; lia]. }
  unfold IMAGE_BASE_RELOCATION.size in Hsize, Hsz.
  cbn [reloc_blocks]. unfold IMAGE_BASE_RELOCATION.size at 1.
  destruct (rel <? rel + size - 8) eqn:Hroom; [|apply Z.ltb_ge in Hroom; lia].
  rewrite Hblock. run.
  destruct (sz =? 0) eqn:Hz; [apply Z.eqb_eq in Hz; lia|].
  unfold IMAGE_BASE_RELOCATION.SizeOfBlock in Hblock.
  apply rd32_Some_in_file in Hblock.
  unfold IMAGE_BASE_RELOCATION.VirtualAddress.
  destruct (rd32_in_file f rel) as [va ->]; [lia|lia|]. run.
  pose proof (short_block_count f sz Hbits ltac:(lia)) as Hcount.
  change (2 ^ 31) with 2147483648 in Hcount. change (2 ^ 32) with 4294967296 in Hfile.
  rewrite reloc_entries_past_end; [reflexivity|lia|].
  unfold IMAGE_BASE_RELOCATION.size at 1. rewrite Z2Nat.id by lia. lia.
Qed.

Lemma reloc_short_block_faults_witness :
  dump_dir_reloc (reloc_file short_size_block) = Fault.
Proof.
  apply (reloc_short_block_faults (reloc_file short_size_block) 0 20 4).
  - vm_compute. reflexivity.
  - right. reflexivity.
  - apply Z.ltb_lt. vm_compute. reflexivity.
  - unfold IMAGE_BASE_RELOCATION.size. lia.
  - vm_compute. reflexivity.
  - unfold IMAGE_BASE_RELOCATION.size. lia.
Defined.


(** ** Exception directory: one block per runtime function *)

Lemma unwind_opcode_line f info frame_reg frame_offset i line i' :
  unwind_opcode f info frame_reg frame_offset i = Done (line, i') ->
  is_function_header line = false.
Proof.
  unfold unwind_opcode.
  repeat match goal with
         | |- context [load ?o] => destruct o; run
         | |- context [if ?c then _ else _] => destruct c
         end; try discriminate; intros [= <- _]; reflexivity.
Qed.

Lemma unwind_opcodes_lines f info count frame_reg frame_offset fuel : forall i lines,
  unwind_opcodes f info count frame_reg frame_offset fuel i = Done lines ->
  function_headers lines = 0%nat.
Proof.
  induction fuel as [|fuel IH]; intros i lines; [discriminate|].
  cbn [unwind_opcodes]. destruct (i <? count); [|intros [= <-]; reflexivity].
  destruct (unwind_opcode f info frame_reg frame_offset i) as [[line i']| | |] eqn:Hop;
    try discriminate.
  run. destruct (unwind_opcodes f info count frame_reg frame_offset fuel (i' + 1))
    as [rest| | |] eqn:Hrest; try discriminate.
  run. intros [= <-]. apply unwind_opcode_line in Hop. apply IH in Hrest.
  unfold function_headers in *. rewrite filter_cons_False by congruence. exact Hrest.
Qed.

Lemma unwind_handler_data_lines f UnwindData info flags count lines :
  unwind_handler_data f UnwindData info flags count = Done lines ->
  function_headers lines = 0%nat.
Proof.
  unfold unwind_handler_data.
  repeat match goal with
         | |- context [load ?o] => destruct o; run
         | |- context [if ?c then _ else _] => destruct c
         end; try discriminate; intros [= <-]; reflexivity.
Qed.

Lemma function_headers_app l1 l2 :
  function_headers (l1 ++ l2) = (function_headers l1 + function_headers l2)%nat.
Proof. unfold function_headers. rewrite filter_app, length_app. reflexivity. Qed.

Lemma dump_x86_64_unwind_info_header f function lines :
  dump_x86_64_unwind_info f function = Done lines -> function_headers lines = 1%nat.
Proof.
  unfold dump_x86_64_unwind_info.
  destruct (runtime_function.BeginAddress f function); [|discriminate].
  destruct (runtime_function.EndAddress f function); [|discriminate].
  destruct (runtime_function.UnwindData f function) as [UnwindData|]; [|discriminate].
  run. destruct (Z.testbit UnwindData 0).
  { destruct (RVA f _ _) as [next|]; [|discriminate]. run.
    destruct (runtime_function.BeginAddress f next); [|discriminate].
    destruct (runtime_function.EndAddress f next); [|discriminate].
    run. intros [= <-]. reflexivity. }
  destruct (RVA f UnwindData unwind_info.size) as [info|]; [|discriminate]. run.
  destruct (unwind_info.version f info) as [version|]; [|discriminate]. run.
  destruct (negb (version =? 1)); [intros [= <-]; reflexivity|].
  destruct (unwind_info.flags f info) as [flags|]; [|discriminate].
  destruct (unwind_info.prolog f info); [|discriminate].
  destruct (unwind_info.frame_reg f info) as [frame_reg|]; [|discriminate].
  destruct (unwind_info.frame_offset f info) as [frame_offset|]; [|discriminate].
  destruct (unwind_info.count f info) as [count|]; [|discriminate]. run.
  destruct (unwind_opcodes f info count frame_reg frame_offset _ 0)
    as [codes| | |] eqn:Hcodes; try discriminate. run.
  destruct (unwind_handler_data f UnwindData info flags count)
    as [tail| | |] eqn:Htail; try discriminate. run.
  intros [= <-]. apply unwind_opcodes_lines in Hcodes.
  apply unwind_handler_data_lines in Htail.
  change (?a :: ?b :: ?c :: ?l) with ([a; b; c] ++ l).
  rewrite !function_headers_app, Hcodes, Htail.
  unfold unwind_frame. destruct (frame_reg =? 0); reflexivity.
Qed.

Lemma exception_functions_headers f funcs n : forall i lines,
  exception_functions f funcs n i = Done lines -> function_headers lines = n.
Proof.
  induction n as [|n IH]; intros i lines; [intros [= <-]; reflexivity|].
  cbn [exception_functions].
  destruct (dump_x86_64_unwind_info f _) as [ls| | |] eqn:Hone; try discriminate. run.
  destruct (exception_functions f funcs n (i + 1)) as [rest| | |] eqn:Hrest;
    try discriminate.
  run. intros [= <-]. rewrite function_headers_app.
  rewrite (dump_x86_64_unwind_info_header _ _ _ Hone), (IH _ _ Hrest). reflexivity.
Qed.

(** X13.  [dump_dir_exceptions] dumps one runtime function for every 12
    bytes of the exception directory of an AMD64 image and leaves the bytes
    behind the last whole record alone: when it returns, its output is the
    line giving [size / 12] functions followed by that many function
    blocks.  For any other machine it prints one line and reads nothing of
    the directory. *)
Theorem dump_dir_exceptions_functions f funcs size Machine :
  get_dir_and_size f IMAGE_FILE_EXCEPTION_DIRECTORY 0 = (Some funcs, size) ->
  0 <= size ->
  (Machine = IMAGE_FILE_MACHINE_AMD64 ->
   forall out, dump_dir_exceptions f Machine = Done out ->
     exists lines,
       out = ExceptionInfo (size / 12) :: (ExceptionUnwind <$> lines) /\
       Z.of_nat (function_headers lines) = size / 12) /\
  (Machine <> IMAGE_FILE_MACHINE_AMD64 ->
   dump_dir_exceptions f Machine = Done [ExceptionNotSupported Machine]).
Proof.
  intros Hdir Hsize. unfold dump_dir_exceptions. rewrite Hdir. split.
  - intros -> out. rewrite Z.eqb_refl. unfold runtime_function.size.
    destruct (exception_functions f funcs (Z.to_nat (size / 12)) 0)
      as [lines| | |] eqn:Hrun; try discriminate.
    run. intros [= <-]. exists lines. split; [reflexivity|].
    rewrite (exception_functions_headers _ _ _ _ _ Hrun).
    apply Z2Nat.id. apply Z.div_pos; lia.
  - intros Hne. apply Z.eqb_neq in Hne. rewrite Hne. reflexivity.
Qed.

Lemma dump_dir_exceptions_functions_witness :
  exists lines,
    [ExceptionInfo 2; ExceptionUnwind (UnwindFunction 0x2000 0x2010);
     ExceptionUnwind (UnwindNextFunction 0x2010 0x2020);
     ExceptionUnwind (UnwindFunction 0x2010 0x2020);
     ExceptionUnwind (UnwindNextFunction 0x2000 0x2010)]
    = ExceptionInfo (30 / 12) :: (ExceptionUnwind <$> lines) /\
    Z.of_nat (function_headers lines) = 30 / 12.
Proof.
  apply (proj1 (dump_dir_exceptions_functions chained_functions_file 0 30
                  IMAGE_FILE_MACHINE_AMD64 ltac:(vm_compute; reflexivity) ltac:(lia))
           eq_refl).
  vm_compute. reflexivity.
Defined.

(** ** Delay-load imports *)

Lemma delay_descriptors_stop f ImageBase pre s post : forall p,
  Forall (fun d => ImgDelayDescr.szName d <> 0 /\ ImgDelayDescr.pIAT d <> 0 /\
                   ImgDelayDescr.pINT d <> 0) pre ->
  ImgDelayDescr.szName s = 0 \/ ImgDelayDescr.pIAT s = 0 \/ ImgDelayDescr.pINT s = 0 ->
  delay_descriptors f ImageBase (pre ++ s :: post) p = delay_processed f ImageBase pre p.
Proof.
  induction pre as [|d pre IH]; intros p Hpre Hs.
  - cbn [app delay_descriptors delay_processed].
    destruct Hs as [-> |[-> | ->]]; rewrite ?orb_true_r; reflexivity.
  - inversion Hpre as [|? ? (Hn & Hi & Ht) Hpre']; subst.
    cbn [app delay_descriptors delay_processed].
    apply Z.eqb_neq in Hn, Hi, Ht. rewrite Hn, Hi, Ht. cbn [orb].
    rewrite IH by assumption. reflexivity.
Qed.

(** X14.  The walk over the delay-import descriptors stops at the first
    one whose szName, pIAT or pINT is zero; the descriptors before it are
    dumped in turn and nothing behind it is looked at.  For a descriptor
    whose grAttrs has bit 0 set the fields are taken as RVAs: the image
    base plays no part in its dump. *)
Theorem delay_import_walk f ImageBase importDesc pre post s :
  get_dir f IMAGE_DIRECTORY_ENTRY_DELAY_IMPORT = Some importDesc ->
  array_at f ImgDelayDescr.read ImgDelayDescr.size importDesc = pre ++ s :: post ->
  Forall (fun d => ImgDelayDescr.szName d <> 0 /\ ImgDelayDescr.pIAT d <> 0 /\
                   ImgDelayDescr.pINT d <> 0) pre ->
  ImgDelayDescr.szName s = 0 \/ ImgDelayDescr.pIAT s = 0 \/ ImgDelayDescr.pINT s = 0 ->
  dump_dir_delay_imported_functions f ImageBase
  = (lines ← delay_processed f ImageBase pre importDesc;
     Done (DelayImportTableSize (directory_size f IMAGE_DIRECTORY_ENTRY_DELAY_IMPORT)
             :: lines ++ [DelayImport ImportBlankLine])) /\
  (forall d p base, Z.land (ImgDelayDescr.grAttrs d) 1 <> 0 ->
     delay_descriptor f ImageBase d p = delay_descriptor f base d p).
Proof.
  intros Hdir Harr Hpre Hs. split.
  - unfold dump_dir_delay_imported_functions. rewrite Hdir, Harr.
    rewrite (delay_descriptors_stop f ImageBase pre s post importDesc Hpre Hs).
    reflexivity.
  - intros d p base Hbit. unfold delay_descriptor, delay_offset.
    apply Z.eqb_neq in Hbit. rewrite Hbit. reflexivity.
Qed.

Lemma delay_import_walk_witness :
  dump_dir_delay_imported_functions delay_import_file 0x400000
  = Done [DelayImportTableSize 64;
          DelayImportedModule 0 0 (Some "k.dll"%string) 0x401040 0;
          DelayImport (ThunkByOrdinal 1); DelayImport (ThunkByName 7 "Fn" 0x401054);
          DelayImport ImportBlankLine; DelayImport ImportBlankLine].
Proof.
  refine (eq_trans
            (proj1 (delay_import_walk delay_import_file 0x400000 0
                      [delay_k_dll] _ delay_zero _ _ _ _)) _).
  - vm_compute. reflexivity.
  - vm_compute. reflexivity.
  - repeat constructor; discriminate.
  - left. reflexivity.
  - vm_compute. reflexivity.
Defined.

(** ** String resources: the strings handed to dump_strW *)

Lemma rd16s_range f n : forall p ws,
  rd16s f p n = Some ws -> Forall (fun v => 0 <= v < 65536) ws /\ length ws = n.
Proof.
  induction n as [|n IH]; intros p ws H.
  - injection H as <-. split; [constructor|reflexivity].
  - cbn [rd16s] in H. destruct (rd16 f p) as [c|] eqn:Hc; [|discriminate].
    destruct (rd16s f (p + 2) n) as [cs|] eqn:Hcs; [|discriminate].
    cbn in H. injection H as <-. destruct (IH _ _ Hcs) as [Hall Hlen].
    split; [constructor; [eapply rd16_range; exact Hc|exact Hall]|].
    cbn [length]. lia.
Qed.

Lemma string_slots_strings f id n : forall i ptr size lines,
  0 <= size ->
  string_slots f id n i ptr size = Done lines ->
  Forall (fun l => match l with
                   | StringEntry _ str =>
                       Forall (fun v => 0 <= v < 65536) str /\
                       Z.of_nat (length str) <= size
                   end) lines.
Proof.
  induction n as [|n IH]; intros i ptr size lines Hsize; [intros [= <-]; constructor|].
  cbn [string_slots]. destruct (size =? 0) eqn:Hz; [intros [= <-]; constructor|].
  apply Z.eqb_neq in Hz.
  destruct ptr as [p|]; [|discriminate]. run.
  destruct (rd16 f p) as [len0|] eqn:Hlen0; [|discriminate]. run.
  pose proof (rd16_range f p len0 Hlen0) as Hrange.
  destruct (size <=? len0) eqn:Hclamp.
  - apply Z.leb_le in Hclamp.
    destruct (size =? 0) eqn:Hz'; [apply Z.eqb_eq in Hz'; lia|]. cbn [negb].
    destruct (rd16s f (p + 2) (Z.to_nat size)) as [str|] eqn:Hstr; [|discriminate].
    run. rewrite string_slots_nothing_left. run. intros [= <-].
    apply rd16s_range in Hstr as [Hall Hlen].
    constructor; [|constructor]. split; [exact Hall|lia].
  - apply Z.leb_gt in Hclamp. destruct (len0 =? 0) eqn:Hempty; cbn [negb].
    + intros Hrest. apply IH in Hrest; [|lia].
      eapply Forall_impl; [exact Hrest|]. intros [n' str] [Hall Hlen]. split; [exact Hall|lia].
    + destruct (rd16s f (p + 2) (Z.to_nat len0)) as [str|] eqn:Hstr; [|discriminate].
      run.
      destruct (string_slots f id n (i + 1) (Some (p + 2 + 2 * len0)) (size - (len0 + 1)))
        as [rest| | |] eqn:Hrest; try discriminate.
      run. intros [= <-]. apply rd16s_range in Hstr as [Hall Hlen].
      constructor; [split; [exact Hall|lia]|].
      apply IH in Hrest; [|lia].
      eapply Forall_impl; [exact Hrest|]. intros [n' str'] [Hall' Hlen']. split; [exact Hall'|lia].
Qed.

Lemma length_escaped_strW str :
  Forall (fun v => 0 <= v < 65536) str ->
  (length (escaped strW_text str) <= 6 * length str)%nat.
Proof.
  induction 1 as [|v rest Hv Hrest IH]; [cbn; lia|].
  cbn [escaped length]. rewrite length_app.
  pose proof (length_strW_text v rest Hv). lia.
Qed.

(** X15.  The strings [dump_string_data] hands to [dump_strW] are WCHARs
    read from the file, none longer than [size]; so when six bytes a
    character fit the count, [dump_strW] writes the text of each string in
    full, without leaving its buffer. *)
Theorem string_lines_dumped f ptr size id lines n str :
  dump_string_data f ptr size id = Done lines ->
  0 <= size -> 6 * size <= INT_MAX ->
  StringEntry n str ∈ lines ->
  Z.of_nat (length str) <= size /\
  dump_strW str
  = Done (escaped strW_text str, Z.of_nat (length (escaped strW_text str))).
Proof.
  intros Hrun Hsize Hint Hin. unfold dump_string_data in Hrun.
  apply string_slots_strings in Hrun; [|exact Hsize].
  rewrite Forall_forall in Hrun. destruct (Hrun _ Hin) as [Hall Hlen].
  split; [exact Hlen|]. rewrite dump_strW_written by exact Hall. unfold written.
  pose proof (length_escaped_strW str Hall).
  destruct (_ <=? INT_MAX) eqn:Hfit; [reflexivity|]. apply Z.leb_gt in Hfit. lia.
Qed.

Lemma string_lines_dumped_witness :
  Z.of_nat (length [72; 105]) <= 42 /\
  dump_strW [72; 105] = Done (escaped strW_text [72; 105],
                              Z.of_nat (length (escaped strW_text [72; 105]))).
Proof.
  apply (string_lines_dumped hi_abc_file (Some 0) 42 2
           [StringEntry 16 [72; 105]; StringEntry 21 [97; 98; 99]] 16).
  - vm_compute. reflexivity.
  - lia.
  - unfold INT_MAX. lia.
  - apply elem_of_cons. left. reflexivity.
Defined.

(** ** Unwind data: where the handler data is read *)

Lemma round_up_even count : 0 <= count -> Z.land (count + 1) (-2) = count + count mod 2.
Proof.
  intros Hcount. change (-2) with (Z.lnot (Z.ones 1)).
  rewrite <- Z.ldiff_land, Z.ldiff_ones_r by lia.
  rewrite Z.shiftl_mul_pow2 by lia. change (2 ^ 1) with 2.
  rewrite Z.shiftr_div_pow2 by lia. change (2 ^ 1) with 2.
  Z.div_mod_to_equations. lia.
Qed.

(** X16.  The handler data of an unwind-info record is read behind the
    opcode slots rounded up to an even number, that is at the next DWORD
    boundary behind the [count] slots.  A chained record is printed from
    there when CHAININFO is set, whatever the handler flags say; without
    CHAININFO and with a handler flag, the handler is read there and its
    data is announced four bytes further. *)
Theorem unwind_handler_data_position f UnwindData info flags count :
  0 <= count ->
  let handler_data := info + 4 + 2 * (count + count mod 2) in
  (handler_data - info) mod 4 = 0 /\
  (Z.land flags UNW_FLAG_CHAININFO <> 0 ->
   unwind_handler_data f UnwindData info flags count
   = (b ← load (rd32 f handler_data); e ← load (rd32 f (handler_data + 4));
      Done [UnwindChained b e])) /\
  (Z.land flags UNW_FLAG_CHAININFO = 0 ->
   Z.land flags (Z.lor UNW_FLAG_EHANDLER UNW_FLAG_UHANDLER) <> 0 ->
   unwind_handler_data f UnwindData info flags count
   = (handler ← load (rd32 f handler_data);
      Done [UnwindHandler handler (DWORD (UnwindData + (handler_data + 4 - info)))])) /\
  (Z.land flags UNW_FLAG_CHAININFO = 0 ->
   Z.land flags (Z.lor UNW_FLAG_EHANDLER UNW_FLAG_UHANDLER) = 0 ->
   unwind_handler_data f UnwindData info flags count = Done []).
Proof.
  intros Hcount handler_data. unfold unwind_handler_data, unwind_info.opcodes.
  rewrite round_up_even by exact Hcount. fold handler_data.
  unfold runtime_function.BeginAddress, runtime_function.EndAddress.
  split; [|split; [|split]].
  - unfold handler_data. Z.div_mod_to_equations. lia.
  - intros Hchain. apply Z.eqb_neq in Hchain. rewrite Hchain. reflexivity.
  - intros Hchain Hhandler. apply Z.eqb_eq in Hchain. apply Z.eqb_neq in Hhandler.
    rewrite Hchain, Hhandler. reflexivity.
  - intros Hchain Hhandler. apply Z.eqb_eq in Hchain, Hhandler.
    rewrite Hchain, Hhandler. reflexivity.
Qed.

Lemma unwind_handler_data_position_witness :
  unwind_handler_data unwind_file 0x100C 12 UNW_FLAG_EHANDLER 1
  = Done [UnwindHandler 0x03015004 0x1018].
Proof.
  refine (eq_trans
            (proj1 (proj2 (proj2
               (unwind_handler_data_position unwind_file 0x100C 12 UNW_FLAG_EHANDLER 1
                  ltac:(lia)))) _ _) _).
  - reflexivity.
  - discriminate.
  - vm_compute. reflexivity.
Defined.

(** ** Thunk tables *)

Lemma import_by_name_shown f rva data :
  0 <= ulong_bits f -> name_readable f rva ->
  exists line,
    import_by_name f (RVA f rva 4) data = Done line /\
    thunk_shown f false 0 rva data line.
Proof.
  intros Hbits Hname. unfold thunk_shown, import_by_name.
  destruct (RVA f rva 4) as [p|] eqn:Hp; [|eexists; split; reflexivity].
  destruct (Hname p Hp) as [Name HName].
  apply RVA_Some_in_file in Hp as [Hp0 Hp4]; [|exact Hbits].
  destruct (rd16_in_file f p) as [Hint HHint]; [lia|lia|].
  rewrite HHint, HName. run. eexists. split; [reflexivity|]. eauto.
Qed.

Lemma thunk_ordinal_DWORD t : DWORD (Z.land t 0xffff) = Z.land t 0xffff.
Proof.
  apply wrap_small. change 0xffff with (Z.ones 16).
  destruct (Z_lt_le_dec t 0) as [Hneg|Hpos].
  - rewrite Z.land_ones by lia. pose proof (Z.mod_pos_bound t (2 ^ 16)). lia.
  - rewrite Z.land_ones by lia. pose proof (Z.mod_pos_bound t (2 ^ 16)). lia.
Qed.

Lemma dump_image_thunk_data64_walk f post : forall pre,
  0 <= ulong_bits f ->
  Forall (fun t => t <> 0) pre ->
  Forall (fun t => Z.testbit t 63 = false -> name_readable f (DWORD t)) pre ->
  exists lines,
    dump_image_thunk_data64 f (pre ++ 0 :: post) = Done lines /\
    Forall2 (fun t line => thunk_shown f (Z.testbit t 63) t (DWORD t) (DWORD t) line)
      pre lines.
Proof.
  induction pre as [|t pre IH]; intros Hbits Hnz Hnames.
  - exists []. split; [reflexivity|constructor].
  - inversion Hnz as [|? ? Ht Hnz']; subst. inversion Hnames as [|? ? Hname Hnames']; subst.
    destruct (IH Hbits Hnz' Hnames') as (rest & Hrest & Hshown).
    cbn [app dump_image_thunk_data64]. apply Z.eqb_neq in Ht. rewrite Ht.
    unfold IMAGE_SNAP_BY_ORDINAL64, IMAGE_ORDINAL64.
    destruct (Z.testbit t 63) eqn:Hbit.
    + run. rewrite Hrest. run. eexists. split; [reflexivity|].
      constructor; [|exact Hshown]. unfold thunk_shown. rewrite Hbit.
      rewrite thunk_ordinal_DWORD. reflexivity.
    + destruct (import_by_name_shown f (DWORD t) (DWORD t) Hbits (Hname eq_refl))
        as (line & -> & Hline).
      run. rewrite Hrest. run. eexists. split; [reflexivity|].
      constructor; [|exact Hshown]. unfold thunk_shown in *. rewrite Hbit. exact Hline.
Qed.

Lemma dump_image_thunk_data32_walk f post offset : forall pre,
  0 <= ulong_bits f ->
  Forall (fun t => t <> 0) pre ->
  Forall (fun t => Z.testbit t 31 = false -> name_readable f (DWORD (t - offset))) pre ->
  exists lines,
    dump_image_thunk_data32 f (pre ++ 0 :: post) offset = Done lines /\
    Forall2 (fun t line => thunk_shown f (Z.testbit t 31) t (DWORD (t - offset)) t line)
      pre lines.
Proof.
  induction pre as [|t pre IH]; intros Hbits Hnz Hnames.
  - exists []. split; [reflexivity|constructor].
  - inversion Hnz as [|? ? Ht Hnz']; subst. inversion Hnames as [|? ? Hname Hnames']; subst.
    destruct (IH Hbits Hnz' Hnames') as (rest & Hrest & Hshown).
    cbn [app dump_image_thunk_data32]. apply Z.eqb_neq in Ht. rewrite Ht.
    unfold IMAGE_SNAP_BY_ORDINAL32, IMAGE_ORDINAL32.
    destruct (Z.testbit t 31) eqn:Hbit.
    + run. rewrite Hrest. run. eexists. split; [reflexivity|].
      constructor; [|exact Hshown]. unfold thunk_shown. rewrite Hbit. reflexivity.
    + destruct (import_by_name_shown f (DWORD (t - offset)) t Hbits (Hname eq_refl))
        as (line & -> & Hline).
      run. rewrite Hrest. run. eexists. split; [reflexivity|].
      constructor; [|exact Hshown]. unfold thunk_shown in *. rewrite Hbit. exact Hline.
Qed.

(** X17.  Both thunk walks stop at the first zero thunk and print one line
    for every thunk in front of it; nothing behind it is looked at.  A
    thunk with its top bit set is shown by the ordinal in its low 16 bits;
    any other thunk is looked up as a name, at its low 32 bits in a 64-bit
    table and at the thunk less [offset] in a 32-bit one.  A name that does
    not resolve gives the line saying so and the walk goes on; the walk
    ends well as long as the names that resolve end inside the file. *)
Theorem thunk_table_walk f pre post offset :
  0 <= ulong_bits f ->
  Forall (fun t => t <> 0) pre ->
  (Forall (fun t => Z.testbit t 63 = false -> name_readable f (DWORD t)) pre ->
   exists lines,
     dump_image_thunk_data64 f (pre ++ 0 :: post) = Done lines /\
     Forall2 (fun t line => thunk_shown f (Z.testbit t 63) t (DWORD t) (DWORD t) line)
       pre lines) /\
  (Forall (fun t => Z.testbit t 31 = false -> name_readable f (DWORD (t - offset))) pre ->
   exists lines,
     dump_image_thunk_data32 f (pre ++ 0 :: post) offset = Done lines /\
     Forall2 (fun t line => thunk_shown f (Z.testbit t 31) t (DWORD (t - offset)) t line)
       pre lines).
Proof.
  intros Hbits Hnz. split.
  - apply dump_image_thunk_data64_walk; assumption.
  - apply dump_image_thunk_data32_walk; assumption.
Qed.

Lemma thunk_table_walk_witness :
  exists lines,
    dump_image_thunk_data32 import_file ([0x80000001; 0x103C] ++ 0 :: []) 0 = Done lines /\
    Forall2 (fun t line => thunk_shown import_file (Z.testbit t 31) t (DWORD (t - 0)) t line)
      [0x80000001; 0x103C] lines.
Proof.
  apply (proj2 (thunk_table_walk import_file [0x80000001; 0x103C] [] 0
                  ltac:(vm_compute; discriminate)
                  ltac:(repeat constructor; discriminate))).
  constructor; [intros H; discriminate H|].
  constructor; [|constructor].
  intros _ p Hp. vm_compute in Hp. injection Hp as <-. vm_compute. eauto.
Defined.

